(** * Ray-Tracer: a shallow embedding of the path tracer and its verified properties

    The C++ sources (vec3.h, ray.h, interval.h, hittableObject.h, sphere.h,
    hittable_list.h, material.h, color.h, camera.h) are embedded function by
    function.  A C++ [double] is an IEEE-754 binary64 number, which is exactly
    Rocq's primitive [float]; the [float] of [Qsqrt] is a binary32 number,
    modelled by [spec_float] at precision 24.  Out-parameters are modelled by
    state passing: a function that receives [hit_record& rec] takes the
    caller's record and returns the record as it is left on return. *)

From Stdlib Require Import ZArith List Bool Lia String Ascii DecimalString Floats.
From Stdlib Require Uint63.
From Equations Require Import Equations.
Import ListNotations.

(* ===================================================================== *)
(** * Scalars *)
(* ===================================================================== *)

(** [double] is binary64. Expressions are evaluated operation by operation,
    each one rounded to nearest-even, without fused multiply-add. *)
Definition double : Set := float.

(** <cmath> [fabs]. *)
Definition fabs (x : double) : double := PrimFloat.abs x.

(** <cmath> [fmin]: a NaN argument is treated as missing data. *)
Definition fmin (x y : double) : double :=
  if is_nan x then y
  else if is_nan y then x
  else if (x <? y)%float then x else y.

(** The 32-bit [int] of the sources. *)
Definition INT_MAX : Z := 2147483647.
Definition INT_MIN : Z := -2147483648.

(** Conversion of an [int] to [double] (exact: 53 bits hold every int). *)
Definition double_of_int (n : Z) : double :=
  match n with
  | Z0 => 0%float
  | Zpos _ => PrimFloat.of_uint63 (Uint63.of_Z n)
  | Zneg _ => (- PrimFloat.of_uint63 (Uint63.of_Z (- n)))%float
  end.

(** Conversion of a C++ [bool] to [double] (integral promotion first). *)
Definition double_of_bool (b : bool) : double :=
  if b then 1%float else 0%float.

(** Contextual conversion of a [double] to [bool]: non-zero is true. *)
Definition bool_of_double (x : double) : bool := negb (x =? 0)%float.

(** The integer part of a binary64 value, rounding toward zero. *)
Definition SFtruncate (x : spec_float) : option Z :=
  match x with
  | S754_zero _ => Some 0%Z
  | S754_finite s m e =>
      let mag := match e with
                 | Zneg sh => Z.shiftr (Zpos m) (Zpos sh)
                 | _ => Z.shiftl (Zpos m) e
                 end in
      Some (if s then (- mag)%Z else mag)
  | S754_infinity _ | S754_nan => None
  end.

(** [static_cast<int>(x)]: truncation toward zero; the behaviour is
    undefined ([None]) when the truncated value does not fit an [int]. *)
Definition static_cast_int (x : double) : option Z :=
  match SFtruncate (Prim2SF x) with
  | Some z => if ((INT_MIN <=? z) && (z <=? INT_MAX))%Z then Some z else None
  | None => None
  end.

(** Modelled from the spec: [infinity], the constant of the header
    rtweekend.h that is not part of the sources; the spec names it as the
    bound of the universal interval and of the search range (0.001, +inf). *)
Definition infinity : double := PrimFloat.infinity.

(* ===================================================================== *)
(** * Single precision and the fast inverse square root (vec3.h) *)
(* ===================================================================== *)

Module Binary32.

(** A binary32 number: precision 24, infinities at exponent 128. *)
Definition float32 : Set := spec_float.
Definition prec : Z := 24.
Definition emax : Z := 128.

(** [(float) x]: rounding of a binary64 value to the nearest binary32. *)
Definition of_double (x : double) : float32 :=
  match Prim2SF x with
  | S754_finite s m e => binary_round prec emax s m e
  | y => y
  end.

(** Promotion of a [float] to [double] (exact). *)
Definition to_double (y : float32) : double := SF2Prim y.

Definition mul (x y : float32) : float32 := SFmul prec emax x y.
Definition sub (x y : float32) : float32 := SFsub prec emax x y.

(** The constants [0.5F] and [1.5F]. *)
Definition half : float32 := S754_finite false 8388608 (-24).
Definition threehalfs : float32 := S754_finite false 12582912 (-23).

(** The 32 bits of a binary32 number, as an unsigned integer. *)
Definition bits (y : float32) : Z :=
  let sign (s : bool) := if s then 2147483648%Z else 0%Z in
  match y with
  | S754_zero s => sign s
  | S754_infinity s => (sign s + 2139095040)%Z
  | S754_nan => 2143289344%Z
  | S754_finite s m e =>
      if (Zpos m <? 8388608)%Z then (sign s + Zpos m)%Z
      else (sign s + (e + 150) * 8388608 + (Zpos m - 8388608))%Z
  end.

(** The binary32 number with the given 32 bits. *)
Definition of_bits (b : Z) : float32 :=
  let s := Z.testbit b 31 in
  let e := ((b / 8388608) mod 256)%Z in
  let m := (b mod 8388608)%Z in
  if (e =? 0)%Z then
    if (m =? 0)%Z then S754_zero s else S754_finite s (Z.to_pos m) (-149)
  else if (e =? 255)%Z then
    if (m =? 0)%Z then S754_infinity s else S754_nan
  else S754_finite s (Z.to_pos (m + 8388608)) (e - 150).

(** The [long] of [Qsqrt], a 32-bit two's complement number as the
    source declares it ("declare 32 bit number"). *)
Definition to_long (u : Z) : Z :=
  let w := (u mod 4294967296)%Z in
  if (w <? 2147483648)%Z then w else (w - 4294967296)%Z.

End Binary32.

(** [Qsqrt]: one bit-level guess and two Newton steps for 1/sqrt(t). *)
Definition Qsqrt (t : Binary32.float32) : Binary32.float32 :=
  let x2 := Binary32.mul t Binary32.half in
  let y := t in
  let i := Binary32.to_long (Binary32.bits y) in
  let i := Binary32.to_long (1597463007 - Z.shiftr i 1) in
  let y := Binary32.of_bits (i mod 4294967296) in
  let y := Binary32.mul y
             (Binary32.sub Binary32.threehalfs
                (Binary32.mul (Binary32.mul x2 y) y)) in
  let y := Binary32.mul y
             (Binary32.sub Binary32.threehalfs
                (Binary32.mul (Binary32.mul x2 y) y)) in
  y.

#[local] Set Warnings "-inexact-float".
#[local] Open Scope float_scope.

(* ===================================================================== *)
(** * vec3.h *)
(* ===================================================================== *)

(** [class vec3]: the three entries of the vector [e]. *)
Record vec3 : Set := mkvec3 { e0 : double; e1 : double; e2 : double }.

Definition point3 : Set := vec3.
Definition color : Set := vec3.

(** The default constructor [vec3()]: [e.assign(3,0)]. *)
Definition vec3_zero : vec3 := mkvec3 0 0 0.

Definition vec3_x (v : vec3) : double := e0 v.
Definition vec3_y (v : vec3) : double := e1 v.
Definition vec3_z (v : vec3) : double := e2 v.

(** [operator-() const]. *)
Definition vneg (v : vec3) : vec3 := mkvec3 (- e0 v) (- e1 v) (- e2 v).

(** [operator+(const vec3&, const vec3&)]. *)
Definition vadd (u v : vec3) : vec3 :=
  mkvec3 (e0 u + e0 v) (e1 u + e1 v) (e2 u + e2 v).

(** [operator-(const vec3&, const vec3&)]. *)
Definition vsub (u v : vec3) : vec3 :=
  mkvec3 (e0 u - e0 v) (e1 u - e1 v) (e2 u - e2 v).

(** [operator*(const vec3&, const vec3&)]. *)
Definition vmul (u v : vec3) : vec3 :=
  mkvec3 (e0 u * e0 v) (e1 u * e1 v) (e2 u * e2 v).

(** [operator*(double t, const vec3&)]. *)
Definition vscale (t : double) (v : vec3) : vec3 :=
  mkvec3 (t * e0 v) (t * e1 v) (t * e2 v).

(** [operator*(const vec3& v, double t)]: [t * v]. *)
Definition vscale_r (v : vec3) (t : double) : vec3 := vscale t v.

(** [operator/(vec3 v, double t)]: [(1/t) * v]. *)
Definition vdiv (v : vec3) (t : double) : vec3 := vscale (1 / t) v.

Definition length_squared (v : vec3) : double :=
  e0 v * e0 v + e1 v * e1 v + e2 v * e2 v.

Definition vec3_length (v : vec3) : double := PrimFloat.sqrt (length_squared v).

Definition dot (u v : vec3) : double :=
  e0 u * e0 v + e1 u * e1 v + e2 u * e2 v.

Definition cross (u v : vec3) : vec3 :=
  mkvec3 (e1 u * e2 v - e2 u * e1 v)
         (e2 u * e0 v - e0 u * e2 v)
         (e0 u * e1 v - e1 u * e0 v).

(** [vec3::near_zero], as written: the middle conjunct is
    [fabs(e[1] < s)], the absolute value of a comparison. *)
Definition near_zero (v : vec3) : bool :=
  let s := 1e-8 in
  (fabs (e0 v) <? s)
  && bool_of_double (fabs (double_of_bool (e1 v <? s)))
  && (fabs (e2 v) <? s).

Definition unit_vector (v : vec3) : vec3 := vdiv v (vec3_length v).

(** [reflect]: [v - 2*dot(v,n)*n]. *)
Definition reflect (v n : vec3) : vec3 := vsub v (vscale (2 * dot v n) n).

(** [refract] by Snell's law. *)
Definition refract (uv n : vec3) (etai_over_etat : double) : vec3 :=
  let cos_theta := fmin (dot (vneg uv) n) 1 in
  let r_out_perp := vscale etai_over_etat (vadd uv (vscale cos_theta n)) in
  let r_out_parallel :=
    vscale (- PrimFloat.sqrt (fabs (1 - length_squared r_out_perp))) n in
  vadd r_out_perp r_out_parallel.

(** [unit_vectorQ]: normalization by the fast inverse square root. *)
Definition unit_vectorQ (v : vec3) : vec3 :=
  vscale_r v (Binary32.to_double (Qsqrt (Binary32.of_double (length_squared v)))).

(* ===================================================================== *)
(** * ray.h and interval.h *)
(* ===================================================================== *)

Record ray : Set := mkray { orig : point3; dir : vec3 }.

(** The default constructor [ray()]. *)
Definition ray_default : ray := mkray vec3_zero vec3_zero.

Definition origin (r : ray) : point3 := orig r.
Definition direction (r : ray) : vec3 := dir r.

(** [ray::at]. *)
Definition ray_at (r : ray) (t : double) : point3 :=
  vadd (orig r) (vscale t (dir r)).

Record interval : Set := mkinterval { min : double; max : double }.

Definition contains (i : interval) (x : double) : bool :=
  (min i <=? x) && (x <=? max i).

Definition surrounds (i : interval) (x : double) : bool :=
  (min i <? x) && (x <? max i).

Definition clamp (i : interval) (x : double) : double :=
  if x <? min i then min i
  else if max i <? x then max i
  else x.

Definition empty : interval := mkinterval infinity (- infinity).
Definition universe : interval := mkinterval (- infinity) infinity.

(* ===================================================================== *)
(** * material.h (data), hittableObject.h, sphere.h, hittable_list.h *)
(* ===================================================================== *)

(** The three classes derived from [material], with their members. *)
Inductive material : Set :=
| lambertian (albedo : color)
| metal (albedo : color) (fuzz : double)
| dielectric (ir : double).

(** The constructor [metal(a, f)] clamps the fuzz: [fuzz(f < 1 ? f : 1)]. *)
Definition make_metal (a : color) (f : double) : material :=
  metal a (if f <? 1 then f else 1).

(** [class hit_record]; [mat] is a shared pointer, null ([None]) until a
    hit stores a material. *)
Record hit_record : Set := mkhit_record {
  p : point3;
  t : double;
  normal : vec3;
  frontfacing : bool;
  mat : option material
}.

(** [hit_record::set_face_normal]. *)
Definition set_face_normal (rec : hit_record) (r : ray) (outward_normal : vec3)
  : hit_record :=
  let ff := dot (direction r) outward_normal <? 0 in
  mkhit_record rec.(p) rec.(t)
    (if ff then outward_normal else vneg outward_normal) ff rec.(mat).

#[local] Set Warnings "-register-all".

(** The classes derived from [hittableObject]. *)
Inductive hittableObject : Set :=
| sphere (center : point3) (radius : double) (m : material)
| hittable_list (scene_objects : list hittableObject).

(** Assignments to the members of a record: [rec.t = x], [rec.p = x],
    [rec.mat = x]. *)
Definition set_t (rec : hit_record) (x : double) : hit_record :=
  mkhit_record rec.(p) x rec.(normal) rec.(frontfacing) rec.(mat).
Definition set_p (rec : hit_record) (x : point3) : hit_record :=
  mkhit_record x rec.(t) rec.(normal) rec.(frontfacing) rec.(mat).
Definition set_mat (rec : hit_record) (x : option material) : hit_record :=
  mkhit_record rec.(p) rec.(t) rec.(normal) rec.(frontfacing) x.

(** The end of [sphere::hit], once [root] is accepted: the record is
    filled in and the hit is reported. *)
Definition sphere_record (center : point3) (radius : double) (m : material)
    (r : ray) (root : double) (rec : hit_record) : bool * hit_record :=
  let rec := set_t rec root in
  let rec := set_p rec (ray_at r root) in
  let outward_normal := vdiv (vsub rec.(p) center) radius in
  let rec := set_face_normal rec r outward_normal in
  let rec := set_mat rec (Some m) in
  (true, rec).

(** [sphere::hit]: the result and the caller's record on return. *)
Definition sphere_hit (center : point3) (radius : double) (m : material)
    (r : ray) (ray_t : interval) (rec : hit_record) : bool * hit_record :=
  let oc := vsub (origin r) center in
  let a := length_squared (direction r) in
  let half_b := dot (direction r) oc in
  let c := length_squared oc - radius * radius in
  let discriminant := half_b * half_b - a * c in
  let d_sqrt := PrimFloat.sqrt discriminant in
  if discriminant <? 0 then (false, rec)
  else
    let root := (- half_b - d_sqrt) / a in
    if negb (surrounds ray_t root) then
      let root := (- half_b + d_sqrt) / a in
      if negb (surrounds ray_t root) then (false, rec)
      else sphere_record center radius m r root rec
    else sphere_record center radius m r root rec.

(** The variables of the loop of [hittable_list::hit]. *)
Record hit_loop : Set := mkhit_loop {
  tmp : hit_record;
  hit_anything : bool;
  closest_so_far : double;
  out_rec : hit_record
}.

(** The body of the loop of [hittable_list::hit] for the member [obj],
    tested by [hit_obj]. *)
Definition hit_step {A : Type}
    (hit_obj : A -> interval -> hit_record -> bool * hit_record)
    (ray_t : interval) (obj : A) (st : hit_loop) : hit_loop :=
  let '(b, tmp') :=
    hit_obj obj (mkinterval (min ray_t) st.(closest_so_far)) st.(tmp) in
  if b then mkhit_loop tmp' true tmp'.(t) tmp'
  else mkhit_loop tmp' st.(hit_anything) st.(closest_so_far) st.(out_rec).

(** The loop of [hittable_list::hit] over the members, in their order. *)
Definition hit_members {A : Type}
    (hit_obj : A -> interval -> hit_record -> bool * hit_record)
    (ray_t : interval) : list A -> hit_loop -> hit_loop :=
  fix loop (objs : list A) (st : hit_loop) : hit_loop :=
    match objs with
    | [] => st
    | obj :: rest => loop rest (hit_step hit_obj ray_t obj st)
    end.

Section Scene.

(** A default-initialized [hit_record] has zero vectors and a null material;
    [t] and [frontfacing] are left indeterminate, whatever the stack holds. *)
Variable indeterminate_t : double.
Variable indeterminate_frontfacing : bool.

Definition hit_record_default : hit_record :=
  mkhit_record vec3_zero indeterminate_t vec3_zero indeterminate_frontfacing None.

(** The virtual [hit] of an object for the ray [r]: [sphere::hit] or
    [hittable_list::hit]. *)
Fixpoint hit (r : ray) (obj : hittableObject) (ray_t : interval)
    (rec : hit_record) {struct obj} : bool * hit_record :=
  match obj with
  | sphere center radius m => sphere_hit center radius m r ray_t rec
  | hittable_list scene_objects =>
      let st := hit_members (hit r) ray_t scene_objects
                  (mkhit_loop hit_record_default false (max ray_t) rec) in
      (st.(hit_anything), st.(out_rec))
  end.

End Scene.

(* ===================================================================== *)
(** * Randomness and loops that may not return *)
(* ===================================================================== *)

(** What a call returns: a value, no value because a [while] loop exceeded
    the iteration budget of the model, or a null material dereferenced. *)
Inductive result (A : Type) : Type :=
| Ok (a : A)
| Timeout
| Fault.
Arguments Ok {A} a.
Arguments Timeout {A}.
Arguments Fault {A}.

Definition bind {A B : Type} (c : result A) (f : A -> result B) : result B :=
  match c with
  | Ok a => f a
  | Timeout => Timeout
  | Fault => Fault
  end.

Notation "'let*' x ':=' c 'in' f" := (bind c (fun x => f))
  (at level 10, x pattern, c at level 100, f at level 200).

(** What [scatter] leaves behind: its return value and the two
    out-parameters. *)
Record scatter_out : Set := mkscatter_out {
  scatters : bool;
  attenuation : color;
  scattered : ray
}.

Section Renderer.

(** Modelled from the spec: [random_double()], the generator of the header
    rtweekend.h that is not part of the sources, returns a real in [0,1) at
    each call. The generator is global state: [draws k] is the value of its
    call number [k], and the state is the number of calls made so far. *)
Variable draws : nat -> double.

(** <cmath> [pow], whose rounding the language does not fix. *)
Variable pow : double -> double -> double.

(** The number of iterations after which a [while (true)] loop of the model
    gives up with [Timeout]. *)
Variable budget : nat.

Variable indeterminate_t : double.
Variable indeterminate_frontfacing : bool.

Definition random_double (k : nat) : double * nat := (draws k, S k).

(** Modelled from the spec: [random_double(min, max)] of rtweekend.h, a real
    in [min,max): the draw scaled to the range. *)
Definition random_double_range (lo hi : double) (k : nat) : double * nat :=
  let '(x, k) := random_double k in
  (lo + (hi - lo) * x, k).

(** [vec3::random(min, max)]; the three draws are taken left to right. *)
Definition vec3_random (lo hi : double) (k : nat) : vec3 * nat :=
  let '(x, k) := random_double_range lo hi k in
  let '(y, k) := random_double_range lo hi k in
  let '(z, k) := random_double_range lo hi k in
  (mkvec3 x y z, k).

(** [random_in_unit_sphere]: rejection sampling, [while (1)]. *)
Fixpoint random_in_unit_sphere_loop (fuel : nat) (k : nat) : result (vec3 * nat) :=
  match fuel with
  | O => Timeout
  | S fuel' =>
      let '(q, k) := vec3_random (-1) 1 k in
      if length_squared q <? 1 then Ok (q, k)
      else random_in_unit_sphere_loop fuel' k
  end.

Definition random_in_unit_sphere (k : nat) : result (vec3 * nat) :=
  random_in_unit_sphere_loop budget k.

Definition random_unit_vector (k : nat) : result (vec3 * nat) :=
  let* (q, k) := random_in_unit_sphere k in
  Ok (unit_vectorQ q, k).

(* ===================================================================== *)
(** * material.h: scatter *)
(* ===================================================================== *)

(** [lambertian::scatter]. *)
Definition lambertian_scatter (albedo : color) (r : ray) (rec : hit_record)
    (out : scatter_out) (k : nat) : result (scatter_out * nat) :=
  let '(does_it_scatter, k) := random_double k in
  if does_it_scatter <? 1 then
    let* (u, k) := random_unit_vector k in
    let scatter_dir := vadd rec.(normal) u in
    let scatter_dir := if near_zero scatter_dir then rec.(normal) else scatter_dir in
    let scattered' := mkray rec.(p) scatter_dir in
    let attenuation' := vdiv albedo 1 in
    Ok (mkscatter_out true attenuation' scattered', k)
  else
    Ok (mkscatter_out false out.(attenuation) out.(scattered), k).

(** [metal::scatter]. *)
Definition metal_scatter (albedo : color) (fuzz : double) (r : ray)
    (rec : hit_record) (out : scatter_out) (k : nat)
  : result (scatter_out * nat) :=
  let '(does_it_scatter, k) := random_double k in
  if does_it_scatter <? 1 then
    let reflected := reflect (unit_vectorQ (direction r)) rec.(normal) in
    let* (u, k) := random_unit_vector k in
    let scattered' := mkray rec.(p) (vadd reflected (vscale fuzz u)) in
    let attenuation' := vdiv albedo 1 in
    Ok (mkscatter_out (0 <? dot (direction scattered') rec.(normal))
          attenuation' scattered', k)
  else
    Ok (mkscatter_out false out.(attenuation) out.(scattered), k).

(** [dielectric::reflectance]: Schlick's approximation. *)
Definition reflectance (cosine ref_idx : double) : double :=
  let r0 := (1 - ref_idx) / (1 + ref_idx) in
  let r0 := r0 * r0 in
  r0 + (1 - r0) * pow (1 - cosine) 5.

(** [dielectric::scatter]; [||] evaluates its right operand, and so draws
    from the generator, only when [cannot_refract] is false. *)
Definition dielectric_scatter (ir : double) (r : ray) (rec : hit_record)
    (out : scatter_out) (k : nat) : result (scatter_out * nat) :=
  let attenuation' := mkvec3 1 1 1 in
  let refraction_ratio := if rec.(frontfacing) then 1 / ir else ir in
  let unit_direction := unit_vectorQ (direction r) in
  let cos_theta := fmin (dot (vneg unit_direction) rec.(normal)) 1 in
  let sin_theta := PrimFloat.sqrt (1 - cos_theta * cos_theta) in
  let cannot_refract := 1 <? refraction_ratio * sin_theta in
  let '(reflects, k) :=
    if cannot_refract then (true, k)
    else let '(x, k) := random_double k in
         (x <? reflectance cos_theta refraction_ratio, k) in
  let direction' :=
    if reflects then reflect unit_direction rec.(normal)
    else refract unit_direction rec.(normal) refraction_ratio in
  Ok (mkscatter_out true attenuation' (mkray rec.(p) direction'), k).

(** The virtual [scatter]. *)
Definition scatter (m : material) (r : ray) (rec : hit_record)
    (out : scatter_out) (k : nat) : result (scatter_out * nat) :=
  match m with
  | lambertian albedo => lambertian_scatter albedo r rec out k
  | metal albedo fuzz => metal_scatter albedo fuzz r rec out k
  | dielectric ir => dielectric_scatter ir r rec out k
  end.

(* ===================================================================== *)
(** * camera.h: ray_color *)
(* ===================================================================== *)

(** The background of [ray_color]: white blended with sky blue. *)
Definition background (r : ray) : color :=
  let unit_dir := unit_vectorQ (direction r) in
  let a := 0.5 * (vec3_y unit_dir + 1) in
  vadd (vscale (1 - a) (mkvec3 1 1 1)) (vscale a (mkvec3 0.5 0.7 1)).

(** [camera::ray_color]. The recursion is on [depth]: the call is made
    only when [depth > 0], with [depth - 1]. *)
Equations? ray_color (r : ray) (depth : Z) (world : hittableObject) (k : nat)
  : result (color * nat) by wf (Z.to_nat depth) lt :=
  ray_color r depth world k with Z_le_gt_dec depth 0 := {
    | left _ => Ok (mkvec3 0 0 0, k)
    | right _ =>
        let '(found, rec) :=
          hit indeterminate_t indeterminate_frontfacing r world
            (mkinterval 0.001 infinity)
            (hit_record_default indeterminate_t indeterminate_frontfacing) in
        if found then
          match rec.(mat) with
          | None => Fault
          | Some m =>
              let* (out, k) :=
                scatter m r rec (mkscatter_out false vec3_zero ray_default) k in
              if out.(scatters) then
                let* (c, k) := ray_color out.(scattered) (depth - 1) world k in
                Ok (vmul out.(attenuation) c, k)
              else Ok (mkvec3 0 0 0, k)
          end
        else Ok (background r, k) }.
Proof. lia. Qed.

End Renderer.

(* ===================================================================== *)
(** * color.h: write_color *)
(* ===================================================================== *)

Definition linear_to_gamma (linear_component : double) : double :=
  PrimFloat.sqrt linear_component.

(** [out << n] for an [int]: its decimal digits. *)
Definition print_int (n : Z) : string :=
  DecimalString.NilZero.string_of_int (Z.to_int n).

Definition newline : string := String (ascii_of_nat 10) EmptyString.

(** [write_color]: the text written to the stream, or [None] when a
    conversion to [int] is undefined. *)
Definition write_color (pixel_color : color) (samples_per_pixel : Z)
  : option string :=
  let r := vec3_x pixel_color in
  let g := vec3_y pixel_color in
  let b := vec3_z pixel_color in
  let scale := 1 / double_of_int samples_per_pixel in
  let r := r * scale in
  let g := g * scale in
  let b := b * scale in
  let r := linear_to_gamma r in
  let g := linear_to_gamma g in
  let b := linear_to_gamma b in
  let intensity := mkinterval 0.000 0.999 in
  match static_cast_int (255.999 * clamp intensity r),
        static_cast_int (255.999 * clamp intensity g),
        static_cast_int (255.999 * clamp intensity b) with
  | Some ir, Some ig, Some ib =>
      Some (print_int ir ++ " " ++ print_int ig ++ " " ++ print_int ib ++ newline)%string
  | _, _, _ => None
  end.

(* ===================================================================== *)
(** * vec3.h: the remaining operations *)
(* ===================================================================== *)

(** [operator+=], [operator*=] and [operator/=]: the vector after the
    assignment. *)
Definition vadd_assign (u v : vec3) : vec3 :=
  mkvec3 (e0 u + e0 v) (e1 u + e1 v) (e2 u + e2 v).

Definition vmul_assign (u : vec3) (t : double) : vec3 :=
  mkvec3 (e0 u * t) (e1 u * t) (e2 u * t).

Definition vdiv_assign (u : vec3) (t : double) : vec3 := vmul_assign u (1 / t).

(** [operator+(double t, const vec3&)]. *)
Definition vadd_scalar (t : double) (v : vec3) : vec3 :=
  mkvec3 (t + e0 v) (t + e1 v) (t + e2 v).

Section Sampling.

Variable draws : nat -> double.
Variable budget : nat.

(** [vec3::random()]; the three draws are taken left to right. *)
Definition vec3_random_unit (k : nat) : vec3 * nat :=
  let '(x, k) := random_double draws k in
  let '(y, k) := random_double draws k in
  let '(z, k) := random_double draws k in
  (mkvec3 x y z, k).

(** [random_in_unit_disk]: rejection sampling, [while (true)]. *)
Fixpoint random_in_unit_disk_loop (fuel : nat) (k : nat) : result (vec3 * nat) :=
  match fuel with
  | O => Timeout
  | S fuel' =>
      let '(x, k) := random_double_range draws (-1) 1 k in
      let '(y, k) := random_double_range draws (-1) 1 k in
      let q := mkvec3 x y 0 in
      if length_squared q <? 1 then Ok (q, k)
      else random_in_unit_disk_loop fuel' k
  end.

Definition random_in_unit_disk (k : nat) : result (vec3 * nat) :=
  random_in_unit_disk_loop budget k.

(** [random_on_hemishpere]. *)
Definition random_on_hemishpere (normal : vec3) (k : nat) : result (vec3 * nat) :=
  let* (ran, k) := random_unit_vector draws budget k in
  if 0 <? dot normal ran then Ok (ran, k) else Ok (vneg ran, k).

End Sampling.

(* ===================================================================== *)
(** * hittable_list.h: the container *)
(* ===================================================================== *)

(** [hittable_list::clear] and [hittable_list::add], on the vector
    [scene_objects]. *)
Definition clear (scene_objects : list hittableObject) : list hittableObject := [].

Definition add (scene_objects : list hittableObject) (obj : hittableObject)
  : list hittableObject :=
  scene_objects ++ [obj].

(** The constructors [hittable_list()] and [hittable_list(obj)]. *)
Definition hittable_list_empty : hittableObject := hittable_list [].

Definition hittable_list_of (obj : hittableObject) : hittableObject :=
  hittable_list (add [] obj).

(* ===================================================================== *)
(** * Streams and counted loops *)
(* ===================================================================== *)

(** The two streams the program writes to. *)
Record streams : Set := mkstreams { cout : string; clog : string }.

Definition to_cout (s : string) (io : streams) : streams :=
  mkstreams (io.(cout) ++ s) io.(clog).

Definition to_clog (s : string) (io : streams) : streams :=
  mkstreams io.(cout) (io.(clog) ++ s).

(** An operation whose behaviour is undefined ends the run as a fault. *)
Definition defined {A : Type} (o : option A) : result A :=
  match o with
  | Some a => Ok a
  | None => Fault
  end.

(** [for (int i = lo; i < hi; ++i) body]: [n] iterations are left, and the
    counter is [i]. *)
Fixpoint for_loop {S : Type} (n : nat) (i : Z) (body : Z -> S -> result S) (s : S)
  : result S :=
  match n with
  | O => Ok s
  | S n' => let* s := body i s in for_loop n' (i + 1)%Z body s
  end.

Definition for_range {S : Type} (lo hi : Z) (body : Z -> S -> result S) (s : S)
  : result S :=
  for_loop (Z.to_nat (hi - lo)) lo body s.

Definition carriage_return : string := String (ascii_of_nat 13) EmptyString.

(* ===================================================================== *)
(** * camera.h: the camera *)
(* ===================================================================== *)

Module Camera.

(** The public members of [class camera]. *)
Record camera : Set := mkcamera {
  aspect_ratio : double;
  image_width : Z;
  samples_per_pixel : Z;
  max_depth : Z;
  vfov : double;
  lookfrom : point3;
  lookat : point3;
  vup : vec3;
  defocus_angle : double;
  focus_dist : double
}.

(** The default member initializers. *)
Definition camera_default : camera :=
  mkcamera 1.0 100 10 10 90 (mkvec3 0 0 (-1)) (mkvec3 0 0 0) (mkvec3 0 1 0) 0 10.

(** The private members; [initialize] assigns every one of them before
    [render] reads any. *)
Record camera_frame : Set := mkcamera_frame {
  image_height : Z;
  camera_origin : point3;
  pixel00_loc : point3;
  pixel_delta_u : vec3;
  pixel_delta_v : vec3;
  u : vec3;
  v : vec3;
  w : vec3;
  defocus_disk_u : vec3;
  defocus_disk_v : vec3
}.

Section Camera.

Variable draws : nat -> double.
Variable pow : double -> double -> double.
Variable budget : nat.
Variable indeterminate_t : double.
Variable indeterminate_frontfacing : bool.

(** <cmath> [tan], whose rounding the language does not fix, and
    [degrees_to_radians] of the header rtweekend.h, which is not part of the
    sources: both are left uninterpreted. *)
Variable tan : double -> double.
Variable degrees_to_radians : double -> double.

(** [camera::initialize]; [None] when the conversion of the height to [int]
    is undefined. *)
Definition initialize (cam : camera) : option camera_frame :=
  match static_cast_int (double_of_int cam.(image_width) / cam.(aspect_ratio)) with
  | None => None
  | Some image_height =>
      let image_height := if (image_height <? 1)%Z then 1%Z else image_height in
      let camera_origin := cam.(lookfrom) in
      let theta := degrees_to_radians cam.(vfov) in
      let h := tan (theta / 2) in
      let viewport_height := 2 * h * cam.(focus_dist) in
      let viewport_width :=
        viewport_height
        * (double_of_int cam.(image_width) / double_of_int image_height) in
      let w := unit_vector (vsub cam.(lookfrom) cam.(lookat)) in
      let u := unit_vector (cross cam.(vup) w) in
      let v := cross w u in
      let viewport_u := vscale viewport_width u in
      let viewport_v := vscale viewport_height (vneg v) in
      let pixel_delta_u := vdiv viewport_u (double_of_int cam.(image_width)) in
      let pixel_delta_v := vdiv viewport_v (double_of_int image_height) in
      let upper_left_corner :=
        vsub (vsub (vsub camera_origin (vscale cam.(focus_dist) w))
                (vdiv viewport_u 2))
          (vdiv viewport_v 2) in
      let pixel00_loc :=
        vadd upper_left_corner (vscale 0.5 (vadd pixel_delta_u pixel_delta_v)) in
      let defocus_radius :=
        cam.(focus_dist) * tan (degrees_to_radians (cam.(defocus_angle) / 2)) in
      let defocus_disk_u := vscale_r u defocus_radius in
      let defocus_disk_v := vscale_r v defocus_radius in
      Some (mkcamera_frame image_height camera_origin pixel00_loc
              pixel_delta_u pixel_delta_v u v w defocus_disk_u defocus_disk_v)
  end.

(** [camera::pixel_sample_square]. *)
Definition pixel_sample_square (fr : camera_frame) (k : nat) : vec3 * nat :=
  let '(x, k) := random_double draws k in
  let px := (- 0.5) + x in
  let '(y, k) := random_double draws k in
  let py := (- 0.5) + y in
  (vadd (vscale px fr.(pixel_delta_u)) (vscale py fr.(pixel_delta_v)), k).

(** [camera::defocus_disk_sample]. *)
Definition defocus_disk_sample (fr : camera_frame) (k : nat)
  : result (point3 * nat) :=
  let* (q, k) := random_in_unit_disk draws budget k in
  Ok (vadd (vadd fr.(camera_origin) (vscale (e0 q) fr.(defocus_disk_u)))
        (vscale (e1 q) fr.(defocus_disk_v)), k).

(** [camera::get_ray]. *)
Definition get_ray (cam : camera) (fr : camera_frame) (i j : Z) (k : nat)
  : result (ray * nat) :=
  let curr_pixel_center :=
    vadd (vadd fr.(pixel00_loc) (vscale (double_of_int i) fr.(pixel_delta_u)))
      (vscale (double_of_int j) fr.(pixel_delta_v)) in
  let '(square, k) := pixel_sample_square fr k in
  let pixel_sample := vadd curr_pixel_center square in
  let* (ray_origin, k) :=
    if cam.(defocus_angle) <=? 0 then Ok (fr.(camera_origin), k)
    else defocus_disk_sample fr k in
  Ok (mkray ray_origin (vsub pixel_sample ray_origin), k).

(** The innermost loop of [render]: one more sample of the pixel. *)
Definition sample_step (cam : camera) (fr : camera_frame) (world : hittableObject)
    (i j : Z) (s : Z) (st : color * nat) : result (color * nat) :=
  let '(pixel_color, k) := st in
  let* (r, k) := get_ray cam fr i j k in
  let* (c, k) :=
    ray_color draws pow budget indeterminate_t indeterminate_frontfacing
      r cam.(max_depth) world k in
  Ok (vadd_assign pixel_color c, k).

(** The loop over the columns: one pixel is sampled and written. *)
Definition pixel_step (cam : camera) (fr : camera_frame) (world : hittableObject)
    (j : Z) (i : Z) (st : streams * nat) : result (streams * nat) :=
  let '(io, k) := st in
  let pixel_color := mkvec3 0 0 0 in
  let* (pixel_color, k) :=
    for_range 0 cam.(samples_per_pixel) (sample_step cam fr world i j)
      (pixel_color, k) in
  let* line := defined (write_color pixel_color cam.(samples_per_pixel)) in
  Ok (to_cout line io, k).

(** The loop over the rows: the progress goes to [clog]. *)
Definition scanline_step (cam : camera) (fr : camera_frame) (world : hittableObject)
    (j : Z) (st : streams * nat) : result (streams * nat) :=
  let '(io, k) := st in
  let io :=
    to_clog (carriage_return ++ "Scanline remaining: "
             ++ print_int (fr.(image_height) - j) ++ " ")%string io in
  for_range 0 cam.(image_width) (pixel_step cam fr world j) (io, k).

(** The header of the image: [P3], the size and the largest value. *)
Definition header (width height : Z) : string :=
  ("P3" ++ newline ++ print_int width ++ " " ++ print_int height
   ++ newline ++ "255" ++ newline)%string.

(** [camera::render]. *)
Definition render (cam : camera) (world : hittableObject) (st : streams * nat)
  : result (streams * nat) :=
  let '(io, k) := st in
  let* fr := defined (initialize cam) in
  let io := to_cout (header cam.(image_width) fr.(image_height)) io in
  let* (io, k) :=
    for_range 0 fr.(image_height) (scanline_step cam fr world) (io, k) in
  Ok (to_clog (carriage_return ++ "Done.                 " ++ newline)%string io, k).

End Camera.

End Camera.

(* ===================================================================== *)
(** * RayTracer.cpp: main *)
(* ===================================================================== *)

Section Main.

Variable draws : nat -> double.
Variable pow : double -> double -> double.
Variable budget : nat.
Variable indeterminate_t : double.
Variable indeterminate_frontfacing : bool.
Variable tan : double -> double.
Variable degrees_to_radians : double -> double.

(** The body of the two loops of [main]: at most one small sphere is added
    near the grid point (a, b). The draws of one expression are taken in the
    order in which they are written, as for [vec3::random]. *)
Definition place_sphere (a b : Z) (st : list hittableObject * nat)
  : result (list hittableObject * nat) :=
  let '(world, k) := st in
  let '(choose_mat, k) := random_double draws k in
  let '(x, k) := random_double draws k in
  let '(z, k) := random_double draws k in
  let center := mkvec3 (double_of_int a + 0.9 * x) 0.2 (double_of_int b + 0.9 * z) in
  if 0.9 <? vec3_length (vsub center (mkvec3 4 0.2 0)) then
    if choose_mat <? 0.8 then
      let '(c1, k) := vec3_random_unit draws k in
      let '(c2, k) := vec3_random_unit draws k in
      let albedo := vmul c1 c2 in
      Ok (add world (sphere center 0.2 (lambertian albedo)), k)
    else if choose_mat <? 0.95 then
      let '(albedo, k) := vec3_random draws 0.5 1 k in
      let '(fuzz, k) := random_double_range draws 0 0.5 k in
      Ok (add world (sphere center 0.2 (make_metal albedo fuzz)), k)
    else
      Ok (add world (sphere center 0.2 (dielectric 1.5)), k)
  else Ok (world, k).

(** The scene of [main]: the ground, the grid of small spheres and the
    three large ones. *)
Definition build_world (k : nat) : result (list hittableObject * nat) :=
  let world := [] in
  let ground_material := lambertian (mkvec3 0.5 0.5 0.5) in
  let world := add world (sphere (mkvec3 0 (-1000) 0) 1000 ground_material) in
  let* (world, k) :=
    for_range (-11) 11
      (fun a => for_range (-11) 11 (fun b => place_sphere a b)) (world, k) in
  let material1 := dielectric 1.5 in
  let world := add world (sphere (mkvec3 0 1 0) 1.0 material1) in
  let material2 := lambertian (mkvec3 0.4 0.2 0.1) in
  let world := add world (sphere (mkvec3 (-4) 1 0) 1.0 material2) in
  let material3 := make_metal (mkvec3 0.7 0.6 0.5) 0.0 in
  let world := add world (sphere (mkvec3 4 1 0) 1.0 material3) in
  Ok (world, k).

(** The camera of [main]. *)
Definition main_camera : Camera.camera :=
  Camera.mkcamera (16.0 / 9.0) 1200 100 50 20
    (mkvec3 13 2 3) (mkvec3 0 0 0) (mkvec3 0 1 0) 0.6 10.0.

(** [main]. *)
Definition main (st : streams * nat) : result (streams * nat) :=
  let '(io, k) := st in
  let* (world, k) := build_world k in
  Camera.render draws pow budget indeterminate_t indeterminate_frontfacing
    tan degrees_to_radians main_camera (hittable_list world) (io, k).

End Main.

(* ===================================================================== *)
(** * The vocabulary of the properties *)
(* ===================================================================== *)

(** The quadratic of the specification for a ray and a sphere,
    [a t^2 + 2 half_b t + c = 0], and its two roots. *)
Definition quadratic_a (r : ray) : double := length_squared (direction r).

Definition quadratic_half_b (center : point3) (r : ray) : double :=
  dot (direction r) (vsub (origin r) center).

Definition quadratic_c (center : point3) (radius : double) (r : ray) : double :=
  length_squared (vsub (origin r) center) - radius * radius.

Definition quadratic_discriminant (center : point3) (radius : double) (r : ray)
  : double :=
  quadratic_half_b center r * quadratic_half_b center r
  - quadratic_a r * quadratic_c center radius r.

Definition smaller_root (center : point3) (radius : double) (r : ray) : double :=
  (- quadratic_half_b center r
   - PrimFloat.sqrt (quadratic_discriminant center radius r)) / quadratic_a r.

Definition larger_root (center : point3) (radius : double) (r : ray) : double :=
  (- quadratic_half_b center r
   + PrimFloat.sqrt (quadratic_discriminant center radius r)) / quadratic_a r.

(** The outward normal of the specification at a point of a sphere. *)
Definition outward_normal_at (center : point3) (radius : double) (q : point3)
  : vec3 :=
  vdiv (vsub q center) radius.

(** The background gradient of the specification for a direction:
    [a = 0.5 (y + 1)], white blended with blue. *)
Definition gradient (unit_dir : vec3) : color :=
  let a := 0.5 * (vec3_y unit_dir + 1) in
  vadd (vscale (1 - a) (mkvec3 1 1 1)) (vscale a (mkvec3 0.5 0.7 1)).

(** The root that [sphere::hit] accepts, if any. *)
Definition accepted_root (center : point3) (radius : double) (r : ray)
    (ray_t : interval) : option double :=
  if quadratic_discriminant center radius r <? 0 then None
  else if surrounds ray_t (smaller_root center radius r)
       then Some (smaller_root center radius r)
       else if surrounds ray_t (larger_root center radius r)
            then Some (larger_root center radius r)
            else None.

(** The spheres of a scene, in the order in which [hit] visits them. *)
Fixpoint spheres_of (obj : hittableObject) : list hittableObject :=
  match obj with
  | sphere _ _ _ => [obj]
  | hittable_list scene_objects => flat_map spheres_of scene_objects
  end.

(** The orientation that [sphere::hit] gives the normal of a record: the
    outward normal at the recorded point, negated unless the ray meets the
    front face, and so never along the ray. *)
Definition normal_opposes_ray (r : ray) (center : point3) (radius : double)
    (rec : hit_record) : Prop :=
  let outward := outward_normal_at center radius rec.(p) in
  rec.(frontfacing) = (dot (direction r) outward <? 0)
  /\ rec.(normal) = (if rec.(frontfacing) then outward else vneg outward)
  /\ (0 <? dot (direction r) rec.(normal)) = false
  /\ (is_nan (dot (direction r) outward) = false ->
      (dot (direction r) rec.(normal) <=? 0) = true).

(** ** The order of binary64 numbers *)

(** Every number that is not a NaN is given a rank in the lexicographic
    order of integer triples; comparisons of floats are comparisons of
    ranks, which linear arithmetic decides. *)
Definition lexlt (a b : Z * Z * Z) : Prop :=
  let '(a1, a2, a3) := a in
  let '(b1, b2, b3) := b in
  (a1 < b1 \/ (a1 = b1 /\ (a2 < b2 \/ (a2 = b2 /\ a3 < b3))))%Z.

Definition SFrank (x : spec_float) : option (Z * Z * Z) :=
  match x with
  | S754_nan => None
  | S754_infinity true => Some (-2, 0, 0)%Z
  | S754_finite true m e => Some (-1, - e, Zneg m)%Z
  | S754_zero _ => Some (0, 0, 0)%Z
  | S754_finite false m e => Some (1, e, Zpos m)%Z
  | S754_infinity false => Some (2, 0, 0)%Z
  end.

Definition rank_lt (a b : option (Z * Z * Z)) : Prop :=
  match a, b with
  | Some a, Some b => lexlt a b
  | _, _ => False
  end.

Definition lexle (a b : Z * Z * Z) : Prop :=
  let '(a1, a2, a3) := a in
  let '(b1, b2, b3) := b in
  (a1 < b1 \/ (a1 = b1 /\ (a2 < b2 \/ (a2 = b2 /\ a3 <= b3))))%Z.

Definition rank_le (a b : option (Z * Z * Z)) : Prop :=
  match a, b with
  | Some a, Some b => lexle a b
  | _, _ => False
  end.

Definition rank (x : double) : option (Z * Z * Z) := SFrank (Prim2SF x).

(** [x] is at most [y], or they are the same number (a NaN included):
    the relation between the bounds of a search range and of a narrower
    one. *)
Definition at_most (x y : double) : Prop := x = y \/ (x <=? y) = true.

(** The rank of the opposite number. *)
Definition rank_opp (a : option (Z * Z * Z)) : option (Z * Z * Z) :=
  match a with
  | Some (a1, a2, a3) => Some (- a1, - a2, - a3)%Z
  | None => None
  end.

(** ** The contract between the loop of hittable_list::hit and its members *)

(** What a member's [hit] owes the loop. A hit does not depend on the
    record passed in, and a miss leaves it alone. *)
Definition frame_ok {A : Type}
    (hit_obj : A -> interval -> hit_record -> bool * hit_record) (o : A) : Prop :=
  forall i rec rec2,
    (forall rm, hit_obj o i rec = (true, rm) -> hit_obj o i rec2 = (true, rm))
    /\ (forall rm, hit_obj o i rec = (false, rm) -> rm = rec).

(** A hit is strictly inside the range. *)
Definition inside_ok {A : Type}
    (hit_obj : A -> interval -> hit_record -> bool * hit_record) (o : A) : Prop :=
  forall i rec rm, hit_obj o i rec = (true, rm) -> surrounds i rm.(t) = true.

(** Under a lower upper bound, a hit is replaced by one that is no
    farther, or is lost because it is at or past the bound. *)
Definition narrow_ok {A : Type}
    (hit_obj : A -> interval -> hit_record -> bool * hit_record) (o : A) : Prop :=
  forall lo hi c rec rm,
    at_most c hi ->
    hit_obj o (mkinterval lo hi) rec = (true, rm) ->
    (exists rm', hit_obj o (mkinterval lo c) rec = (true, rm')
                 /\ at_most rm'.(t) rm.(t))
    \/ (fst (hit_obj o (mkinterval lo c) rec) = false /\ at_most c rm.(t)).

(** A hit under a lower upper bound is a hit under the higher one. *)
Definition widen_ok {A : Type}
    (hit_obj : A -> interval -> hit_record -> bool * hit_record) (o : A) : Prop :=
  forall lo hi c rec,
    at_most c hi ->
    fst (hit_obj o (mkinterval lo c) rec) = true ->
    fst (hit_obj o (mkinterval lo hi) rec) = true.

Definition well_behaved {A : Type}
    (hit_obj : A -> interval -> hit_record -> bool * hit_record) (o : A) : Prop :=
  frame_ok hit_obj o /\ inside_ok hit_obj o /\ narrow_ok hit_obj o
  /\ widen_ok hit_obj o.

(** The state of the loop is settled: [closest_so_far] is the upper bound
    of the query until a member is hit, and from then on the [t] of the
    record, strictly inside the query interval. *)
Definition settled (ray_t : interval) (st : hit_loop) : Prop :=
  if st.(hit_anything)
  then st.(out_rec).(t) = st.(closest_so_far)
       /\ surrounds ray_t st.(closest_so_far) = true
  else st.(closest_so_far) = max ray_t.

(** Two runs of the loop that have found the same. *)
Definition same_search (st1 st2 : hit_loop) : Prop :=
  st1.(hit_anything) = st2.(hit_anything)
  /\ st1.(closest_so_far) = st2.(closest_so_far)
  /\ (st1.(hit_anything) = true -> st1.(out_rec) = st2.(out_rec)).

(** A run under a lower upper bound, beside a run under a higher one. *)
Definition coupled (stA stB : hit_loop) : Prop :=
  at_most stB.(closest_so_far) stA.(closest_so_far)
  /\ (stB.(hit_anything) = true -> stA.(hit_anything) = true).

(** ** Rounding to 53 bits *)

#[local] Open Scope Z_scope.

(** The end of a rounding: a mantissa of 53 bits is kept, and 2^53 is
    renormalized. *)
Definition round_tail (s : bool) (m : Z) (e : Z) : spec_float :=
  let '(mrs, e') := shr_fexp prec emax m e loc_Exact in
  match shr_m mrs with
  | Z0 => S754_zero s
  | Zpos q => if e' <=? emax - prec then S754_finite s q e' else S754_infinity s
  | Zneg _ => S754_nan
  end.

Definition rounded (s : bool) (m1 e : Z) : spec_float :=
  if m1 <? 9007199254740992 then S754_finite s (Z.to_pos m1) e
  else S754_finite s 4503599627370496 (e + 1).

(** A binary64 number with a full mantissa, of magnitude between 1 and 2^31. *)
Definition normal_in_range (x : spec_float) : Prop :=
  exists M e,
    x = S754_finite false M e
    /\ 4503599627370496 <= Zpos M < 9007199254740992
    /\ -52 <= e <= -22.

(** The four binary64 numbers nearest to 1. *)
Definition near_one (y : spec_float) : Prop :=
  y = S754_finite false 9007199254740990 (-53)
  \/ y = S754_finite false 9007199254740991 (-53)
  \/ y = S754_finite false 4503599627370496 (-52)
  \/ y = S754_finite false 4503599627370497 (-52).

#[local] Close Scope Z_scope.

(** One channel of [write_color]. *)
Definition channel (c : double) (samples_per_pixel : Z) : option Z :=
  static_cast_int
    (255.999 * clamp (mkinterval 0.000 0.999)
                 (linear_to_gamma (c * (1 / double_of_int samples_per_pixel)))).

(** ** Concrete scenes *)

Definition example_matte : material := lambertian (mkvec3 0.5 0.5 0.5).
Definition example_steel : material := metal (mkvec3 0.8 0.8 0.8) 1.
Definition example_glass : material := dielectric 1.5.

(** Two balls on the axis of the camera, the far one listed first. *)
Definition example_near_center : point3 := mkvec3 0 0 (-1).
Definition example_far_center : point3 := mkvec3 0 0 (-3).
Definition example_near : hittableObject := sphere example_near_center 0.5 example_matte.
Definition example_far : hittableObject := sphere example_far_center 0.5 example_matte.
Definition example_world : hittableObject := hittable_list [example_far; example_near].

(** A sphere whose radius is a positive subnormal number. *)
Definition example_speck : hittableObject := sphere vec3_zero 1e-320 example_matte.

Definition example_ahead : ray := mkray vec3_zero (mkvec3 0 0 (-1)).
Definition example_skew : ray := mkray vec3_zero (mkvec3 0.1 0.2 (-1)).
Definition example_up : ray := mkray vec3_zero (mkvec3 0 1 0).
Definition example_along_x : ray := mkray (mkvec3 (-1) 0 0) (mkvec3 1 0 0).
Definition example_grazing : ray := mkray (mkvec3 (-1) 0.1 0) (mkvec3 1 (-0.1) 0).

(** The search range of [ray_color]. *)
Definition example_range : interval := mkinterval 0.001 infinity.

Definition example_rec : hit_record := hit_record_default 0 false.

(** A hit from inside the glass, and a hit on the outside of the steel. *)
Definition example_inside_hit : hit_record :=
  mkhit_record vec3_zero 1 (mkvec3 0 1 0) false (Some example_glass).
Definition example_outside_hit : hit_record :=
  mkhit_record vec3_zero 1 (mkvec3 0 1 0) true (Some example_steel).

Definition example_out : scatter_out := mkscatter_out false vec3_zero ray_default.

(** A generator that always draws 0.5, and one whose third draw is 0.05. *)
Definition example_draws (k : nat) : double := 0.5.
Definition example_draws_down (k : nat) : double :=
  match k with
  | 2%nat => 0.05
  | _ => 0.5
  end.


(** A stand-in for [pow] at the exponent 5. *)
Definition example_pow (x y : double) : double := x * x * x * x * x.

(** ** The vocabulary of the further properties *)

(** Two states of the loop of [hittable_list::hit] that differ at most in
    the scratch record [tmp]. *)
Definition same_outcome (st1 st2 : hit_loop) : Prop :=
  st1.(hit_anything) = st2.(hit_anything)
  /\ st1.(closest_so_far) = st2.(closest_so_far)
  /\ st1.(out_rec) = st2.(out_rec).

(** Two runs of the loop under the same bound, started in [a1] and [a2]:
    either neither has been hit since, or both were hit last by the same
    member. *)
Definition keep_pace (a1 a2 st1 st2 : hit_loop) : Prop :=
  st1.(closest_so_far) = st2.(closest_so_far)
  /\ ((st1.(hit_anything) = a1.(hit_anything) /\ st1.(out_rec) = a1.(out_rec)
       /\ st2.(hit_anything) = a2.(hit_anything) /\ st2.(out_rec) = a2.(out_rec))
      \/ (st1.(hit_anything) = true /\ st2.(hit_anything) = true
          /\ st1.(out_rec) = st2.(out_rec))).

(** The lines of an image, one after the other. *)
Definition unlines (lines : list string) : string :=
  fold_right append EmptyString lines.

(** The line of a black pixel. *)
Definition black_line : string := ("0 0 0" ++ newline)%string.

(** The ground and the three large spheres of the scene of [main]. *)
Definition main_ground : hittableObject :=
  sphere (mkvec3 0 (-1000) 0) 1000 (lambertian (mkvec3 0.5 0.5 0.5)).

Definition main_large : list hittableObject :=
  [sphere (mkvec3 0 1 0) 1.0 (dielectric 1.5);
   sphere (mkvec3 (-4) 1 0) 1.0 (lambertian (mkvec3 0.4 0.2 0.1));
   sphere (mkvec3 4 1 0) 1.0 (metal (mkvec3 0.7 0.6 0.5) 0.0)].

(** A small sphere of the grid of [main]: of radius 0.2, resting on the
    ground, matte, of metal with a fuzz of at most 1, or of glass. *)
Definition main_small (obj : hittableObject) : Prop :=
  exists center m,
    obj = sphere center 0.2 m
    /\ e1 center = 0.2
    /\ match m with
       | lambertian _ => True
       | metal _ fuzz => (fuzz <=? 1) = true
       | dielectric ir => ir = 1.5
       end.

(** The scene under construction after [n] points of the grid of [main],
    from the state [k0] of the generator: the ground, at most [n] small
    spheres, and between 3 and 9 draws for each point. *)
Definition grid_state (k0 : nat) (n : nat) (st : list hittableObject * nat)
  : Prop :=
  exists small,
    fst st = main_ground :: small
    /\ (List.length small <= n)%nat
    /\ Forall main_small small
    /\ (k0 + 3 * n <= snd st <= k0 + 9 * n)%nat.

(** ** Concrete cameras and scenes for the further properties *)

(** A sphere away from the axis of the camera, and a ball of glass. *)
Definition example_aside : hittableObject :=
  sphere (mkvec3 5 0 0) 0.5 example_matte.
Definition example_ball : hittableObject :=
  sphere example_near_center 0.5 example_glass.

(** Stand-ins for [tan] and [degrees_to_radians]. *)
Definition example_tan (x : double) : double := x.
Definition example_degrees_to_radians (x : double) : double :=
  x * 0.017453292519943295.

(** A camera for an image of two pixels by one, with one sample for each
    pixel and one bounce; the same without a bounce, and without a sample. *)
Definition example_camera : Camera.camera :=
  Camera.mkcamera 2.0 2 1 1 90 (mkvec3 0 0 1) (mkvec3 0 0 0) (mkvec3 0 1 0) 0 10.
Definition example_camera_flat : Camera.camera :=
  Camera.mkcamera 2.0 2 1 0 90 (mkvec3 0 0 1) (mkvec3 0 0 0) (mkvec3 0 1 0) 0 10.
Definition example_camera_idle : Camera.camera :=
  Camera.mkcamera 2.0 2 0 1 90 (mkvec3 0 0 1) (mkvec3 0 0 0) (mkvec3 0 1 0) 0 10.

Definition example_io : streams := mkstreams EmptyString EmptyString.

(* ===================================================================== *)
(** * The order of binary64 numbers *)
(* ===================================================================== *)

Lemma SFcompare_rank x y :
  match SFcompare x y with
  | Some Lt => rank_lt (SFrank x) (SFrank y)
  | Some Eq => SFrank x = SFrank y /\ SFrank x <> None
  | Some Gt => rank_lt (SFrank y) (SFrank x)
  | None => SFrank x = None \/ SFrank y = None
  end.
Proof.
  destruct x as [[|]|[|]| |[|] m e], y as [[|]|[|]| |[|] m' e']; simpl;
    try (intuition (try lia; try congruence); fail).
  - destruct (Z.compare_spec e e'); simpl; try lia.
    rewrite Pos.compare_cont_spec; simpl.
    destruct (Pos.compare_spec m m'); simpl; try lia.
    subst. split; congruence.
  - destruct (Z.compare_spec e e'); simpl; try lia.
    rewrite Pos.compare_cont_spec; simpl.
    destruct (Pos.compare_spec m m'); simpl; try lia.
    subst. split; congruence.
Qed.

Lemma lexlt_irrefl a : ~ lexlt a a.
Proof. destruct a as [[a1 a2] a3]; simpl; lia. Qed.

Lemma lexlt_asym a b : lexlt a b -> ~ lexlt b a.
Proof. destruct a as [[a1 a2] a3], b as [[b1 b2] b3]; simpl; lia. Qed.

Lemma lexlt_total a b : lexlt a b \/ a = b \/ lexlt b a.
Proof.
  destruct a as [[a1 a2] a3], b as [[b1 b2] b3]; simpl.
  destruct (Z.lt_total a1 b1) as [?|[?|?]]; try lia.
  destruct (Z.lt_total a2 b2) as [?|[?|?]]; try lia.
  destruct (Z.lt_total a3 b3) as [?|[?|?]]; try lia.
  subst; auto.
Qed.

Lemma lexlt_trans a b c : lexlt a b -> lexlt b c -> lexlt a c.
Proof.
  destruct a as [[a1 a2] a3], b as [[b1 b2] b3], c as [[c1 c2] c3]; simpl; lia.
Qed.

Lemma ltb_rank x y : (x <? y) = true <-> rank_lt (rank x) (rank y).
Proof.
  rewrite ltb_spec. unfold SFltb, rank.
  pose proof (SFcompare_rank (Prim2SF x) (Prim2SF y)) as H.
  destruct (SFcompare (Prim2SF x) (Prim2SF y)) as [[| |]|].
  - destruct H as [H1 H2]. rewrite <- H1.
    destruct (SFrank (Prim2SF x)); simpl; [|tauto].
    split; [discriminate | intro H3; elim (lexlt_irrefl _ H3)].
  - tauto.
  - split; [discriminate|]. intro H1.
    destruct (SFrank (Prim2SF x)), (SFrank (Prim2SF y)); simpl in *; try tauto.
    elim (lexlt_asym _ _ H H1).
  - split; [discriminate|].
    destruct H as [H|H]; rewrite H; simpl; try tauto.
    destruct (SFrank (Prim2SF x)); simpl; tauto.
Qed.

Lemma lexle_refl a : lexle a a.
Proof. destruct a as [[a1 a2] a3]; simpl; lia. Qed.

Lemma lexlt_lexle a b : lexlt a b -> lexle a b.
Proof. destruct a as [[a1 a2] a3], b as [[b1 b2] b3]; simpl; lia. Qed.

Lemma lexle_not_lexlt a b : lexle a b -> ~ lexlt b a.
Proof. destruct a as [[a1 a2] a3], b as [[b1 b2] b3]; simpl; lia. Qed.

Lemma leb_rank x y : (x <=? y) = true <-> rank_le (rank x) (rank y).
Proof.
  rewrite leb_spec. unfold SFleb, rank.
  pose proof (SFcompare_rank (Prim2SF x) (Prim2SF y)) as H.
  destruct (SFcompare (Prim2SF x) (Prim2SF y)) as [[| |]|].
  - destruct H as [H1 H2]. rewrite <- H1.
    destruct (SFrank (Prim2SF x)); simpl; [|congruence].
    split; auto using lexle_refl.
  - destruct (SFrank (Prim2SF x)), (SFrank (Prim2SF y)); simpl in *;
      try tauto.
    split; auto using lexlt_lexle.
  - split; [discriminate|]. intro H1.
    destruct (SFrank (Prim2SF x)), (SFrank (Prim2SF y)); simpl in *; try tauto.
    elim (lexle_not_lexlt _ _ H1 H).
  - split; [discriminate|].
    destruct H as [H|H]; rewrite H; simpl; try tauto.
    destruct (SFrank (Prim2SF x)); simpl; tauto.
Qed.

Lemma ltb_rank_false x y : (x <? y) = false <-> ~ rank_lt (rank x) (rank y).
Proof. rewrite <- ltb_rank. destruct (x <? y); split; congruence. Qed.

Lemma leb_rank_false x y : (x <=? y) = false <-> ~ rank_le (rank x) (rank y).
Proof. rewrite <- leb_rank. destruct (x <=? y); split; congruence. Qed.

(** Comparisons in the context and the goal are turned into statements on
    ranks and decided case by case. *)
Ltac rank_facts :=
  unfold at_most in *;
  repeat match goal with
    | H : (_ <? _) = true |- _ => apply ltb_rank in H
    | H : (_ <? _) = false |- _ => apply ltb_rank_false in H
    | H : (_ <=? _) = true |- _ => apply leb_rank in H
    | H : (_ <=? _) = false |- _ => apply leb_rank_false in H
    end;
  try match goal with
    | |- (_ <? _) = true => apply ltb_rank
    | |- (_ <? _) = false => apply ltb_rank_false
    | |- (_ <=? _) = true => apply leb_rank
    | |- (_ <=? _) = false => apply leb_rank_false
    end.

Ltac rank_cases :=
  repeat match goal with
    | |- context [rank ?x] =>
        let a := fresh "a" in
        let b := fresh "b" in
        let c := fresh "c" in
        destruct (rank x) as [[[a b] c]|]
    | H : context [rank ?x] |- _ =>
        let a := fresh "a" in
        let b := fresh "b" in
        let c := fresh "c" in
        destruct (rank x) as [[[a b] c]|]
    end.

Ltac float_order :=
  rank_facts; rank_cases; unfold rank_lt, rank_le, lexlt, lexle in *;
  try tauto;
  repeat match goal with
    | H : Some _ = Some _ |- _ => injection H as ? ? ?
    | H : _ \/ _ |- _ => destruct H
    | H : _ /\ _ |- _ => destruct H
    end;
  subst; try lia; try (intuition (try congruence; try lia); fail).

Lemma ltb_trans x y z : (x <? y) = true -> (y <? z) = true -> (x <? z) = true.
Proof. intros. float_order. Qed.

Lemma ltb_leb_trans x y z : (x <? y) = true -> (y <=? z) = true -> (x <? z) = true.
Proof. intros. float_order. Qed.

Lemma leb_trans x y z : (x <=? y) = true -> (y <=? z) = true -> (x <=? z) = true.
Proof. intros. float_order. Qed.

Lemma ltb_leb x y : (x <? y) = true -> (x <=? y) = true.
Proof. intros. float_order. Qed.

(** Two numbers that each compare with something compare with each other. *)
Lemma not_ltb_leb x y lo hi :
  (lo <? x) = true -> (y <? hi) = true -> (x <? y) = false -> (y <=? x) = true.
Proof.
  intros H1 H2 H3. float_order.
Qed.

(** Multiplication by one is exact. *)
Lemma digits2_pos_shift52 m :
  Zpos (digits2_pos (Pos.mul 4503599627370496 m)) = (Zpos (digits2_pos m) + 52)%Z.
Proof.
  change (Pos.mul 4503599627370496 m) with (Pos.iter xO m 52).
  cbn [Pos.iter]. cbn [digits2_pos]. lia.
Qed.

Lemma mul_1_l (x : double) : 1 * x = x.
Proof.
  apply Prim2SF_inj. rewrite mul_spec.
  pose proof (Prim2SF_valid x) as Hv.
  change (Prim2SF 1) with (S754_finite false 4503599627370496 (-52)).
  destruct (Prim2SF x) as [s|s| |s m e]; try reflexivity.
  unfold SF64mul, SFmul. cbn [xorb].
  unfold valid_binary, bounded, canonical_mantissa in Hv.
  apply andb_prop in Hv. destruct Hv as [Hc He].
  apply Z.eqb_eq in Hc. apply Z.leb_le in He.
  unfold binary_round_aux, shr_fexp.
  unfold Zdigits2. rewrite digits2_pos_shift52.
  replace (Z.pos (digits2_pos m) + 52 + (-52 + e))%Z
    with (Z.pos (digits2_pos m) + e)%Z by lia.
  rewrite Hc.
  replace (e - (-52 + e))%Z with 52%Z by lia.
  unfold shr.
  change (Pos.mul 4503599627370496 m) with (Pos.iter xO m 52).
  cbn [Pos.iter iter_pos shr_record_of_loc shr_1 orb].
  cbn [loc_of_shr_record shr_m round_nearest_even shr_r shr_s].
  replace (-52 + e + 52)%Z with e by lia.
  unfold Zdigits2. rewrite Hc. rewrite Z.sub_diag. cbn [shr_m].
  destruct (e <=? emax - prec)%Z eqn:E; [reflexivity|].
  apply Z.leb_gt in E. unfold emax, prec in *. lia.
Qed.

(** [v / 1] is [v]. *)
Lemma vdiv_1 (v : vec3) : vdiv v 1 = v.
Proof.
  destruct v as [a b c]. unfold vdiv, vscale. cbn [e0 e1 e2].
  change (1 / 1) with 1. now rewrite !mul_1_l.
Qed.

(* ===================================================================== *)
(** * sphere::hit *)
(* ===================================================================== *)

(** Every return of [sphere::hit]: a miss that leaves the record alone, or
    an accepted root and the record built from it. *)
Lemma sphere_hit_eq center radius m r ray_t rec :
  sphere_hit center radius m r ray_t rec
  = match accepted_root center radius r ray_t with
    | Some root => sphere_record center radius m r root rec
    | None => (false, rec)
    end.
Proof.
  unfold sphere_hit, accepted_root. cbv zeta.
  change (dot (direction r) (vsub (origin r) center)
          * dot (direction r) (vsub (origin r) center)
          - length_squared (direction r)
            * (length_squared (vsub (origin r) center) - radius * radius))
    with (quadratic_discriminant center radius r).
  change ((- dot (direction r) (vsub (origin r) center)
           - PrimFloat.sqrt (quadratic_discriminant center radius r))
          / length_squared (direction r))
    with (smaller_root center radius r).
  change ((- dot (direction r) (vsub (origin r) center)
           + PrimFloat.sqrt (quadratic_discriminant center radius r))
          / length_squared (direction r))
    with (larger_root center radius r).
  destruct (quadratic_discriminant center radius r <? 0); [reflexivity|].
  destruct (surrounds ray_t (smaller_root center radius r)); cbn [negb];
    [reflexivity|].
  destruct (surrounds ray_t (larger_root center radius r)); reflexivity.
Qed.

Lemma surrounds_spec i x :
  surrounds i x = true <-> (min i <? x) = true /\ (x <? max i) = true.
Proof. unfold surrounds. now rewrite andb_true_iff. Qed.

Lemma accepted_root_inside center radius r ray_t root :
  accepted_root center radius r ray_t = Some root ->
  surrounds ray_t root = true.
Proof.
  unfold accepted_root.
  destruct (quadratic_discriminant center radius r <? 0); [discriminate|].
  destruct (surrounds ray_t (smaller_root center radius r)) eqn:E1.
  - now intros [= <-].
  - destruct (surrounds ray_t (larger_root center radius r)) eqn:E2;
      [now intros [= <-] | discriminate].
Qed.

Lemma accepted_root_choice center radius r ray_t root :
  accepted_root center radius r ray_t = Some root ->
  root = (if surrounds ray_t (smaller_root center radius r)
          then smaller_root center radius r
          else larger_root center radius r).
Proof.
  unfold accepted_root.
  destruct (quadratic_discriminant center radius r <? 0); [discriminate|].
  destruct (surrounds ray_t (smaller_root center radius r)).
  - now intros [= <-].
  - destruct (surrounds ray_t (larger_root center radius r));
      [now intros [= <-] | discriminate].
Qed.

(** The record of a hit does not depend on what the caller's record held. *)
Lemma sphere_record_fresh center radius m r root rec rec2 :
  sphere_record center radius m r root rec
  = sphere_record center radius m r root rec2.
Proof. reflexivity. Qed.

Lemma sphere_record_t center radius m r root rec :
  (snd (sphere_record center radius m r root rec)).(t) = root.
Proof. reflexivity. Qed.

(** C1. Whenever [sphere::hit] returns true, the recorded [t] lies strictly
    inside the queried interval, the recorded point is [ray.at(t)], that is
    [origin + t * direction], and [t] is the smaller root of the quadratic
    when that root lies strictly inside the interval and the larger root
    otherwise. *)
Theorem sphere_hit_records_root_inside_interval
    center radius m r ray_t rec rec' :
  sphere_hit center radius m r ray_t rec = (true, rec') ->
  (min ray_t <? rec'.(t)) = true
  /\ (rec'.(t) <? max ray_t) = true
  /\ rec'.(p) = ray_at r rec'.(t)
  /\ ray_at r rec'.(t) = vadd (origin r) (vscale rec'.(t) (direction r))
  /\ rec'.(t) = (if surrounds ray_t (smaller_root center radius r)
                 then smaller_root center radius r
                 else larger_root center radius r).
Proof.
  rewrite sphere_hit_eq.
  destruct (accepted_root center radius r ray_t) as [root|] eqn:E;
    [|discriminate].
  pose proof (accepted_root_inside _ _ _ _ _ E) as Hin.
  pose proof (accepted_root_choice _ _ _ _ _ E) as Hroot.
  apply surrounds_spec in Hin. destruct Hin as [Hlo Hhi].
  unfold sphere_record. intros [= <-]. cbn.
  repeat split; auto.
Qed.

(* ===================================================================== *)
(** * The loop of hittable_list::hit, for any kind of member *)
(* ===================================================================== *)

Lemma at_most_refl x : at_most x x.
Proof. now left. Qed.

Lemma at_most_trans x y z : at_most x y -> at_most y z -> at_most x z.
Proof.
  intros [->|H1] [->|H2]; [now left | now right | now right |].
  right. eapply leb_trans; eauto.
Qed.

Lemma ltb_at_most x y : (x <? y) = true -> at_most x y.
Proof. intros H. right. now apply ltb_leb. Qed.

(** Below a bound that is at most another bound. *)
Lemma ltb_at_most_trans x y z : (x <? y) = true -> at_most y z -> (x <? z) = true.
Proof. intros H [<-|H2]; [assumption|]. eapply ltb_leb_trans; eauto. Qed.

Lemma surrounds_widen lo c hi x :
  at_most c hi ->
  surrounds (mkinterval lo c) x = true -> surrounds (mkinterval lo hi) x = true.
Proof.
  intros Hc Hx. apply surrounds_spec in Hx. cbn in Hx. destruct Hx as [H1 H2].
  apply surrounds_spec. cbn. split; [assumption|].
  eapply ltb_at_most_trans; eauto.
Qed.

(** Inside the wide range and not inside the narrow one: at or past the
    narrow bound. *)
Lemma surrounds_not_narrow lo c hi x :
  at_most c hi ->
  surrounds (mkinterval lo hi) x = true ->
  surrounds (mkinterval lo c) x = false ->
  at_most c x.
Proof.
  intros Hc Hx Hn. apply surrounds_spec in Hx. cbn in Hx. destruct Hx as [H1 H2].
  unfold surrounds in Hn. cbn in Hn. rewrite H1 in Hn. cbn in Hn.
  destruct Hc as [->|Hc]; [congruence|].
  right. clear H1. float_order.
Qed.

Lemma surrounds_leb_refl i x : surrounds i x = true -> (x <=? x) = true.
Proof.
  intros Hx. apply surrounds_spec in Hx. destruct Hx as [H1 H2]. float_order.
Qed.

Section Members.

Context {A : Type}.
Variable hit_obj : A -> interval -> hit_record -> bool * hit_record.

Lemma frame_fst o i rec rec2 :
  (frame_ok hit_obj) o -> fst (hit_obj o i rec) = fst (hit_obj o i rec2).
Proof.
  intros Hf.
  destruct (hit_obj o i rec) as [[|] rm] eqn:E1.
  - apply (proj1 (Hf i rec rec2)) in E1. now rewrite E1.
  - destruct (hit_obj o i rec2) as [[|] rm2] eqn:E2; [|reflexivity].
    apply (proj1 (Hf i rec2 rec)) in E2. congruence.
Qed.

Lemma hit_members_app ray_t l1 l2 st :
  hit_members hit_obj ray_t (l1 ++ l2) st
  = hit_members hit_obj ray_t l2 (hit_members hit_obj ray_t l1 st).
Proof. revert st. induction l1 as [|o l1 IH]; intros st; cbn; auto. Qed.

(** The two outcomes of one iteration. *)
Lemma hit_step_cases ray_t o st :
  (exists tm, hit_obj o (mkinterval (min ray_t) st.(closest_so_far)) st.(tmp)
              = (true, tm)
              /\ hit_step hit_obj ray_t o st = mkhit_loop tm true tm.(t) tm)
  \/ (exists tm, hit_obj o (mkinterval (min ray_t) st.(closest_so_far)) st.(tmp)
                 = (false, tm)
                 /\ hit_step hit_obj ray_t o st
                    = mkhit_loop tm st.(hit_anything) st.(closest_so_far)
                        st.(out_rec)).
Proof.
  unfold hit_step.
  destruct (hit_obj o _ _) as [[|] tm]; [left | right]; exists tm; auto.
Qed.

Lemma settled_step ray_t o st :
  (inside_ok hit_obj) o -> settled ray_t st -> settled ray_t (hit_step hit_obj ray_t o st).
Proof.
  intros Hin Hs.
  destruct (hit_step_cases ray_t o st) as [(tm & E & ->) | (tm & E & ->)].
  - apply Hin in E. unfold settled in *. cbn. split; [reflexivity|].
    apply surrounds_spec in E. cbn in E. destruct E as [E1 E2].
    apply surrounds_spec. split; [assumption|].
    destruct (hit_anything st).
    + destruct Hs as [_ Hs]. apply surrounds_spec in Hs.
      eapply ltb_trans; [eassumption | apply Hs].
    + now rewrite <- Hs.
  - exact Hs.
Qed.

Lemma settled_members ray_t objs st :
  Forall (inside_ok hit_obj) objs -> settled ray_t st ->
  settled ray_t (hit_members hit_obj ray_t objs st).
Proof.
  intros Hall. revert st.
  induction Hall as [|o objs Ho Hall IH]; intros st Hs; cbn; [assumption|].
  apply IH. now apply settled_step.
Qed.

Lemma settled_at_most ray_t st :
  settled ray_t st -> at_most st.(closest_so_far) (max ray_t).
Proof.
  unfold settled. destruct (hit_anything st).
  - intros [_ Hs]. apply surrounds_spec in Hs. apply ltb_at_most, Hs.
  - intros ->. apply at_most_refl.
Qed.

(** [closest_so_far] never grows. *)
Lemma closest_step_at_most ray_t o st :
  (inside_ok hit_obj) o ->
  at_most (hit_step hit_obj ray_t o st).(closest_so_far) st.(closest_so_far).
Proof.
  intros Hin.
  destruct (hit_step_cases ray_t o st) as [(tm & E & ->) | (tm & E & ->)]; cbn.
  - apply Hin in E. apply surrounds_spec in E. apply ltb_at_most, E.
  - apply at_most_refl.
Qed.

Lemma closest_members_at_most ray_t objs st :
  Forall (inside_ok hit_obj) objs ->
  at_most (hit_members hit_obj ray_t objs st).(closest_so_far)
    st.(closest_so_far).
Proof.
  intros Hall. revert st.
  induction Hall as [|o objs Ho Hall IH]; intros st; cbn; [apply at_most_refl|].
  eapply at_most_trans; [apply IH | now apply closest_step_at_most].
Qed.

(** Once something is hit, it stays hit. *)
Lemma hit_anything_step ray_t o st :
  st.(hit_anything) = true -> (hit_step hit_obj ray_t o st).(hit_anything) = true.
Proof.
  intros H.
  destruct (hit_step_cases ray_t o st) as [(tm & E & ->) | (tm & E & ->)]; auto.
Qed.

Lemma hit_anything_members ray_t objs st :
  st.(hit_anything) = true ->
  (hit_members hit_obj ray_t objs st).(hit_anything) = true.
Proof.
  revert st. induction objs as [|o objs IH]; intros st H; cbn; auto.
  apply IH. now apply hit_anything_step.
Qed.

(** A loop that ends without a hit has touched neither the caller's record
    nor the bound. *)
Lemma miss_members ray_t objs st :
  (hit_members hit_obj ray_t objs st).(hit_anything) = false ->
  (hit_members hit_obj ray_t objs st).(out_rec) = st.(out_rec)
  /\ (hit_members hit_obj ray_t objs st).(closest_so_far) = st.(closest_so_far)
  /\ st.(hit_anything) = false.
Proof.
  revert st. induction objs as [|o objs IH]; intros st H; cbn in *; auto.
  destruct (hit_step_cases ray_t o st) as [(tm & E & Hst) | (tm & E & Hst)].
  - rewrite Hst in H. rewrite hit_anything_members in H by reflexivity.
    discriminate.
  - specialize (IH _ H). rewrite Hst in IH. cbn in IH. rewrite Hst. exact IH.
Qed.

(** Later members replace the record only by a strictly closer hit. *)
Lemma later_members_strictly_closer ray_t objs st :
  Forall (inside_ok hit_obj) objs ->
  st.(hit_anything) = true ->
  let st' := hit_members hit_obj ray_t objs st in
  st'.(hit_anything) = true
  /\ ((st'.(out_rec) = st.(out_rec)
       /\ st'.(closest_so_far) = st.(closest_so_far))
      \/ ((st'.(out_rec).(t) <? st.(closest_so_far)) = true
          /\ st'.(closest_so_far) = st'.(out_rec).(t))).
Proof.
  intros Hall. revert st.
  induction Hall as [|o objs Ho Hall IH]; intros st Hh; cbn; [auto|].
  destruct (hit_step_cases ray_t o st) as [(tm & E & Hst) | (tm & E & Hst)];
    rewrite Hst.
  - apply Ho in E. apply surrounds_spec in E. cbn in E. destruct E as [_ E].
    destruct (IH (mkhit_loop tm true (t tm) tm) eq_refl) as [Hh' Hcase].
    cbn in Hcase. split; [assumption|]. right.
    destruct Hcase as [[-> ->] | [Hlt ->]]; split; auto.
    eapply ltb_trans; eauto.
  - destruct (IH (mkhit_loop tm (hit_anything st) (closest_so_far st) (out_rec st)) Hh)
      as [Hh' Hcase].
    cbn in Hcase. split; assumption.
Qed.

Lemma same_search_step ray_t o st1 st2 :
  (frame_ok hit_obj) o -> same_search st1 st2 ->
  same_search (hit_step hit_obj ray_t o st1) (hit_step hit_obj ray_t o st2).
Proof.
  intros Hf (Hh & Hc & Ho).
  pose proof (frame_fst o (mkinterval (min ray_t) (closest_so_far st1))
                (tmp st1) (tmp st2) Hf) as Hfst.
  destruct (hit_step_cases ray_t o st1) as [(tm & E1 & ->) | (tm & E1 & ->)];
    destruct (hit_step_cases ray_t o st2) as [(tm2 & E2 & ->) | (tm2 & E2 & ->)];
    rewrite <- Hc in E2; rewrite E1, E2 in Hfst; cbn in Hfst; try discriminate.
  - apply (proj1 (Hf _ (tmp st1) (tmp st2))) in E1.
    assert (tm2 = tm) as -> by congruence.
    repeat split; auto.
  - repeat split; auto.
Qed.

Lemma same_search_members ray_t objs st1 st2 :
  Forall (frame_ok hit_obj) objs -> same_search st1 st2 ->
  same_search (hit_members hit_obj ray_t objs st1)
    (hit_members hit_obj ray_t objs st2).
Proof.
  intros Hall. revert st1 st2.
  induction Hall as [|o objs Ho Hall IH]; intros st1 st2 Hs; cbn; [assumption|].
  apply IH. now apply same_search_step.
Qed.

Lemma coupled_step rtA rtB o stA stB :
  min rtA = min rtB ->
  (well_behaved hit_obj) o -> coupled stA stB ->
  coupled (hit_step hit_obj rtA o stA) (hit_step hit_obj rtB o stB).
Proof.
  intros Hmin (Hf & Hin & Hn & Hw) (Hc & Hh).
  destruct (hit_step_cases rtA o stA) as [(tmA & EA & ->) | (tmA & EA & ->)];
    destruct (hit_step_cases rtB o stB) as [(tmB & EB & ->) | (tmB & EB & ->)];
    unfold coupled; cbn; rewrite <- Hmin in EB.
  - apply (proj1 (Hf _ (tmp stA) (tmp stB))) in EA.
    destruct (Hn _ _ _ _ _ Hc EA) as [(rm' & E' & Hle) | (E' & Hle)].
    + assert (tmB = rm') as -> by congruence. auto.
    + rewrite EB in E'. discriminate.
  - apply (proj1 (Hf _ (tmp stA) (tmp stB))) in EA.
    destruct (Hn _ _ _ _ _ Hc EA) as [(rm' & E' & Hle) | (E' & Hle)].
    + congruence.
    + auto.
  - assert (fst (hit_obj o (mkinterval (min rtA) (closest_so_far stA)) (tmp stB))
            = true) as Hwide.
    { apply (Hw _ _ _ _ Hc). now rewrite EB. }
    rewrite (frame_fst o _ (tmp stB) (tmp stA) Hf), EA in Hwide. discriminate.
  - auto.
Qed.

Lemma coupled_members rtA rtB objs stA stB :
  min rtA = min rtB ->
  Forall (well_behaved hit_obj) objs -> coupled stA stB ->
  coupled (hit_members hit_obj rtA objs stA) (hit_members hit_obj rtB objs stB).
Proof.
  intros Hmin Hall. revert stA stB.
  induction Hall as [|o objs Ho Hall IH]; intros stA stB Hc; cbn; [assumption|].
  apply IH. now apply coupled_step.
Qed.

End Members.

(* ===================================================================== *)
(** * hit, for spheres and for lists of any depth *)
(* ===================================================================== *)

(** Induction on scene objects: a list has the property when its members
    have it. *)
Lemma hittableObject_members_ind (P : hittableObject -> Prop) :
  (forall center radius m, P (sphere center radius m)) ->
  (forall objs, Forall P objs -> P (hittable_list objs)) ->
  forall obj, P obj.
Proof.
  intros P_sphere P_list.
  fix IH 1. intros [center radius m | objs].
  - apply P_sphere.
  - apply P_list. induction objs as [|o objs IHobjs]; constructor.
    + apply IH.
    + exact IHobjs.
Qed.

Lemma accepted_root_narrow center radius r lo hi c root :
  at_most c hi ->
  accepted_root center radius r (mkinterval lo hi) = Some root ->
  (exists root', accepted_root center radius r (mkinterval lo c) = Some root'
                 /\ at_most root' root)
  \/ (accepted_root center radius r (mkinterval lo c) = None /\ at_most c root).
Proof.
  intros Hc. unfold accepted_root.
  destruct (quadratic_discriminant center radius r <? 0); [discriminate|].
  destruct (surrounds (mkinterval lo hi) (smaller_root center radius r)) eqn:Es.
  - intros [= <-].
    destruct (surrounds (mkinterval lo c) (smaller_root center radius r)) eqn:Es'.
    + left. eexists. split; [reflexivity | apply at_most_refl].
    + pose proof (surrounds_not_narrow _ _ _ _ Hc Es Es') as Hpast.
      destruct (surrounds (mkinterval lo c) (larger_root center radius r)) eqn:El'.
      * left. eexists. split; [reflexivity|].
        apply surrounds_spec in El'. cbn in El'. destruct El' as [_ El'].
        apply ltb_at_most. eapply ltb_at_most_trans; eauto.
      * right. auto.
  - destruct (surrounds (mkinterval lo hi) (larger_root center radius r)) eqn:El;
      [|discriminate].
    intros [= <-].
    destruct (surrounds (mkinterval lo c) (smaller_root center radius r)) eqn:Es'.
    + apply (surrounds_widen _ _ _ _ Hc) in Es'. congruence.
    + destruct (surrounds (mkinterval lo c) (larger_root center radius r)) eqn:El'.
      * left. eexists. split; [reflexivity | apply at_most_refl].
      * right. split; [reflexivity|].
        eapply surrounds_not_narrow; eauto.
Qed.

Lemma accepted_root_widen center radius r lo hi c root :
  at_most c hi ->
  accepted_root center radius r (mkinterval lo c) = Some root ->
  exists root', accepted_root center radius r (mkinterval lo hi) = Some root'.
Proof.
  intros Hc. unfold accepted_root.
  destruct (quadratic_discriminant center radius r <? 0); [discriminate|].
  destruct (surrounds (mkinterval lo hi) (smaller_root center radius r)) eqn:Es;
    [eauto|].
  destruct (surrounds (mkinterval lo c) (smaller_root center radius r)) eqn:Es'.
  - apply (surrounds_widen _ _ _ _ Hc) in Es'. congruence.
  - destruct (surrounds (mkinterval lo c) (larger_root center radius r)) eqn:El';
      [|discriminate].
    apply (surrounds_widen _ _ _ _ Hc) in El'. rewrite El'. eauto.
Qed.

Section Hit.

Variable indeterminate_t : double.
Variable indeterminate_frontfacing : bool.
Variable r : ray.

#[local] Abbreviation hit_r := (hit indeterminate_t indeterminate_frontfacing r).

#[local] Abbreviation start ray_t rec :=
  (mkhit_loop (hit_record_default indeterminate_t indeterminate_frontfacing)
     false (max ray_t) rec).

Lemma hit_list_eq objs ray_t rec :
  hit_r (hittable_list objs) ray_t rec
  = ((hit_members hit_r ray_t objs (start ray_t rec)).(hit_anything),
     (hit_members hit_r ray_t objs (start ray_t rec)).(out_rec)).
Proof. reflexivity. Qed.

Lemma hit_sphere_eq center radius m ray_t rec :
  hit_r (sphere center radius m) ray_t rec
  = match accepted_root center radius r ray_t with
    | Some root => sphere_record center radius m r root rec
    | None => (false, rec)
    end.
Proof. apply sphere_hit_eq. Qed.

Lemma start_settled ray_t rec : settled ray_t (start ray_t rec).
Proof. reflexivity. Qed.

Lemma sphere_well_behaved center radius m :
  well_behaved hit_r (sphere center radius m).
Proof.
  repeat split.
  - intros rm. rewrite !hit_sphere_eq.
    destruct (accepted_root center radius r i); [|discriminate].
    now rewrite (sphere_record_fresh _ _ _ _ _ rec rec2).
  - intros rm. rewrite !hit_sphere_eq.
    destruct (accepted_root center radius r i); [discriminate|]. congruence.
  - intros i rec rm. rewrite hit_sphere_eq.
    destruct (accepted_root center radius r i) as [root|] eqn:E; [|discriminate].
    intros [= <-]. cbn. eapply accepted_root_inside; eauto.
  - intros lo hi c rec rm Hc. rewrite !hit_sphere_eq.
    destruct (accepted_root center radius r (mkinterval lo hi)) as [root|] eqn:E;
      [|discriminate].
    intros [= <-].
    destruct (accepted_root_narrow _ _ _ _ _ _ _ Hc E)
      as [(root' & -> & Hle) | (-> & Hle)].
    + left. eexists. split; [reflexivity|]. exact Hle.
    + right. split; [reflexivity|]. exact Hle.
  - intros lo hi c rec Hc. rewrite !hit_sphere_eq.
    destruct (accepted_root center radius r (mkinterval lo c)) as [root|] eqn:E;
      [|discriminate].
    intros _. destruct (accepted_root_widen _ _ _ _ _ _ _ Hc E) as [root' ->].
    reflexivity.
Qed.

Lemma well_behaved_inside objs :
  Forall (well_behaved hit_r) objs -> Forall (inside_ok hit_r) objs.
Proof. apply Forall_impl. intros o H. apply H. Qed.

Lemma well_behaved_frame objs :
  Forall (well_behaved hit_r) objs -> Forall (frame_ok hit_r) objs.
Proof. apply Forall_impl. intros o H. apply H. Qed.

Lemma list_frame_ok objs :
  Forall (well_behaved hit_r) objs -> frame_ok hit_r (hittable_list objs).
Proof.
  intros Hall i rec rec2. rewrite !hit_list_eq. split.
  - intros rm [= Hh Ho].
    pose proof (same_search_members hit_r i objs (start i rec) (start i rec2)
                  (well_behaved_frame _ Hall)) as Hs.
    destruct Hs as (Hh' & Hc' & Ho'); [repeat split; discriminate|].
    rewrite <- Hh', Hh. f_equal. rewrite <- (Ho' Hh). exact Ho.
  - intros rm [= Hh Ho]. rewrite <- Ho.
    now destruct (miss_members hit_r i objs (start i rec) Hh) as (-> & _).
Qed.

Lemma list_inside_ok objs :
  Forall (well_behaved hit_r) objs -> inside_ok hit_r (hittable_list objs).
Proof.
  intros Hall i rec rm. rewrite hit_list_eq. intros [= Hh Ho].
  pose proof (settled_members hit_r i objs (start i rec)
                (well_behaved_inside _ Hall) (start_settled i rec)) as Hs.
  unfold settled in Hs. rewrite Hh in Hs. destruct Hs as [Ht Hs].
  rewrite <- Ho, Ht. exact Hs.
Qed.

Lemma list_narrow_ok objs :
  Forall (well_behaved hit_r) objs -> narrow_ok hit_r (hittable_list objs).
Proof.
  intros Hall lo hi c rec rm Hc. rewrite !hit_list_eq.
  pose proof (settled_members hit_r _ objs _ (well_behaved_inside _ Hall)
                (start_settled (mkinterval lo hi) rec)) as HsA.
  pose proof (settled_members hit_r _ objs _ (well_behaved_inside _ Hall)
                (start_settled (mkinterval lo c) rec)) as HsB.
  assert (coupled
            (hit_members hit_r (mkinterval lo hi) objs (start (mkinterval lo hi) rec))
            (hit_members hit_r (mkinterval lo c) objs (start (mkinterval lo c) rec)))
    as [Hle Himp].
  { apply coupled_members; [reflexivity | assumption |].
    split; [exact Hc | discriminate]. }
  revert HsA HsB Hle Himp.
  generalize (hit_members hit_r (mkinterval lo hi) objs (start (mkinterval lo hi) rec)).
  generalize (hit_members hit_r (mkinterval lo c) objs (start (mkinterval lo c) rec)).
  intros stB stA HsA HsB Hle Himp [= Hh Ho].
  unfold settled in HsA, HsB.
  rewrite Hh in HsA. destruct HsA as [HtA _]. rewrite <- Ho, HtA.
  destruct (hit_anything stB) eqn:HhB.
  - left. exists (out_rec stB). split; [reflexivity|].
    destruct HsB as [-> _]. exact Hle.
  - right. cbn. split; [reflexivity|].
    cbn in HsB. now rewrite <- HsB.
Qed.

Lemma list_widen_ok objs :
  Forall (well_behaved hit_r) objs -> widen_ok hit_r (hittable_list objs).
Proof.
  intros Hall lo hi c rec Hc. rewrite !hit_list_eq. cbn. intros Hh.
  eapply (coupled_members hit_r (mkinterval lo hi) (mkinterval lo c));
    [reflexivity | eassumption | | eassumption].
  split; [exact Hc | discriminate].
Qed.

(** Every object of a scene honours the contract of a member. *)
Lemma hit_well_behaved obj : well_behaved hit_r obj.
Proof.
  induction obj as [center radius m | objs IH] using hittableObject_members_ind.
  - apply sphere_well_behaved.
  - repeat split.
    + now apply list_frame_ok.
    + now apply list_frame_ok.
    + now apply list_inside_ok.
    + now apply list_narrow_ok.
    + now apply list_widen_ok.
Qed.

Lemma all_well_behaved objs : Forall (well_behaved hit_r) objs.
Proof. apply Forall_forall. intros o _. apply hit_well_behaved. Qed.

End Hit.

Section Nearest.

Variable indeterminate_t : double.
Variable indeterminate_frontfacing : bool.
Variable r : ray.

#[local] Abbreviation hit_r := (hit indeterminate_t indeterminate_frontfacing r).

#[local] Abbreviation start ray_t rec :=
  (mkhit_loop (hit_record_default indeterminate_t indeterminate_frontfacing)
     false (max ray_t) rec).

(** The record the loop ends with was there at the start, or is the hit of
    a member, strictly below the bound the member was given. *)
Lemma members_producer ray_t objs st :
  settled ray_t st ->
  let st' := hit_members hit_r ray_t objs st in
  st'.(hit_anything) = true ->
  (st.(hit_anything) = true /\ st'.(out_rec) = st.(out_rec))
  \/ exists o c tm,
       In o objs /\ at_most c (max ray_t)
       /\ hit_r o (mkinterval (min ray_t) c) tm = (true, st'.(out_rec))
       /\ (st'.(out_rec).(t) <? c) = true.
Proof.
  revert st. induction objs as [|o objs IH]; intros st Hs; cbn.
  - intros H. now left.
  - intros Hh.
    pose proof (settled_step hit_r ray_t o st
                  (proj1 (proj2 (hit_well_behaved _ _ r o))) Hs) as Hs1.
    destruct (IH _ Hs1 Hh) as [(Hh1 & Ho1) | (o' & c & tm & Hin & Hc & E & Hlt)].
    + destruct (hit_step_cases hit_r ray_t o st)
        as [(tm & E & Hst) | (tm & E & Hst)]; rewrite Hst in *; cbn in *.
      * right. exists o, (closest_so_far st), (tmp st). rewrite Ho1.
        split; [now left|]. split; [now apply settled_at_most|].
        split; [exact E|].
        apply (proj1 (proj2 (hit_well_behaved _ _ r o))) in E.
        apply surrounds_spec in E. apply E.
      * left. auto.
    + right. exists o', c, tm. auto.
Qed.

(** A member that is hit on the whole query interval bounds the loop from
    above, whatever the loop has found before reaching it. *)
Lemma members_minimal ray_t objs st o rec0 rm :
  settled ray_t st ->
  In o objs ->
  hit_r o ray_t rec0 = (true, rm) ->
  at_most (hit_members hit_r ray_t objs st).(closest_so_far) rm.(t).
Proof.
  intros Hs Hin Hhit. revert st Hs.
  induction objs as [|o' objs IH]; intros st Hs; [contradiction|].
  cbn.
  pose proof (hit_well_behaved indeterminate_t indeterminate_frontfacing r o')
    as (Hf & Hi & Hn & Hw).
  destruct Hin as [-> | Hin].
  - eapply at_most_trans.
    { apply closest_members_at_most, well_behaved_inside, all_well_behaved. }
    destruct ray_t as [lo hi].
    apply (proj1 (Hf _ rec0 (tmp st))) in Hhit.
    destruct (Hn _ _ _ _ _ (settled_at_most _ _ Hs) Hhit)
      as [(rm' & E' & Hle) | (E' & Hle)];
      destruct (hit_step_cases hit_r (mkinterval lo hi) o st)
        as [(tm & E & ->) | (tm & E & ->)]; cbn in *.
    + now replace tm with rm' by congruence.
    + congruence.
    + rewrite E in E'. discriminate.
    + exact Hle.
  - apply IH; [assumption|]. now apply settled_step.
Qed.

(** A false return leaves the caller's record as it was. *)
Lemma list_miss_keeps_record objs ray_t rec rec' :
  hit_r (hittable_list objs) ray_t rec = (false, rec') -> rec' = rec.
Proof.
  rewrite hit_list_eq. intros [= Hh Ho]. rewrite <- Ho.
  now destruct (miss_members hit_r ray_t objs (start ray_t rec) Hh) as (-> & _).
Qed.

(** A true return stores the hit of a member, strictly below the bound the
    member was given. *)
Lemma list_hit_producer objs ray_t rec rec' :
  hit_r (hittable_list objs) ray_t rec = (true, rec') ->
  exists o c tm,
    In o objs /\ at_most c (max ray_t)
    /\ hit_r o (mkinterval (min ray_t) c) tm = (true, rec')
    /\ (rec'.(t) <? c) = true.
Proof.
  rewrite hit_list_eq. intros [= Hh Ho].
  destruct (members_producer ray_t objs (start ray_t rec)
              (start_settled _ _ ray_t rec) Hh)
    as [(Habs & _) | Hprod]; [discriminate|].
  now rewrite <- Ho.
Qed.

(** C7. [hittable_list::hit] writes to the caller's record only when a
    member produced a hit strictly closer than the bound then in force;
    whenever it returns false, the caller's record is exactly as it was. *)
Theorem hittable_list_hit_writes_only_closer_hit objs ray_t rec :
  (forall rec',
     hit_r (hittable_list objs) ray_t rec = (false, rec') -> rec' = rec)
  /\ (forall rec',
        hit_r (hittable_list objs) ray_t rec = (true, rec') ->
        exists o c tm,
          In o objs /\ at_most c (max ray_t)
          /\ hit_r o (mkinterval (min ray_t) c) tm = (true, rec')
          /\ (rec'.(t) <? c) = true).
Proof.
  split; intros rec'.
  - apply list_miss_keeps_record.
  - apply list_hit_producer.
Qed.

(** C2. Whenever [hittable_list::hit] returns true, the record is the hit
    of a member; its [t] is minimal among the members that are hit on the
    query interval; and the record found by the first members is replaced
    only by a hit of a later member that is strictly closer, so a later hit
    at an equal [t] does not replace it. *)
Theorem hittable_list_hit_is_nearest objs ray_t rec res :
  hit_r (hittable_list objs) ray_t rec = (true, res) ->
  (exists o c tm,
     In o objs /\ at_most c (max ray_t)
     /\ hit_r o (mkinterval (min ray_t) c) tm = (true, res))
  /\ (forall o rec0 rm,
        In o objs -> hit_r o ray_t rec0 = (true, rm) ->
        (res.(t) <=? rm.(t)) = true)
  /\ (forall l1 l2 rec1,
        objs = l1 ++ l2 ->
        hit_r (hittable_list l1) ray_t rec = (true, rec1) ->
        res = rec1 \/ (res.(t) <? rec1.(t)) = true).
Proof.
  intros Hhit. split; [|split].
  - destruct (list_hit_producer objs ray_t rec _ Hhit)
      as (o & c & tm & H1 & H2 & H3 & _).
    now exists o, c, tm.
  - intros o rec0 rm Hin Hm. rewrite hit_list_eq in Hhit.
    injection Hhit as Hh Ho.
    pose proof (members_minimal ray_t objs (start ray_t rec) o rec0 rm
                  (start_settled _ _ ray_t rec) Hin Hm) as Hle.
    pose proof (settled_members hit_r ray_t objs (start ray_t rec)
                  (well_behaved_inside _ _ r _ (all_well_behaved _ _ r objs))
                  (start_settled _ _ ray_t rec)) as Hs.
    unfold settled in Hs. rewrite Hh in Hs. destruct Hs as [Ht _].
    rewrite Ho in Ht. rewrite <- Ht in Hle.
    destruct Hle as [-> | Hle]; [|assumption].
    apply (proj1 (proj2 (hit_well_behaved _ _ r o))) in Hm.
    eapply surrounds_leb_refl; eauto.
  - intros l1 l2 rec1 -> H1. rewrite hit_list_eq in Hhit, H1.
    injection Hhit as Hh Ho. injection H1 as Hh1 Ho1.
    rewrite hit_members_app in Hh, Ho.
    pose proof (settled_members hit_r ray_t l1 (start ray_t rec)
                  (well_behaved_inside _ _ r _ (all_well_behaved _ _ r l1))
                  (start_settled _ _ ray_t rec)) as Hs.
    unfold settled in Hs. rewrite Hh1 in Hs. destruct Hs as [Ht _].
    destruct (later_members_strictly_closer hit_r ray_t l2 _
                (well_behaved_inside _ _ r _ (all_well_behaved _ _ r l2)) Hh1)
      as [_ [[Hsame _] | [Hlt _]]].
    + left. congruence.
    + right. rewrite Ho, <- Ht, Ho1 in Hlt. exact Hlt.
Qed.


(** Every hit that [hit] reports is the hit of a sphere of the scene, under
    an upper bound that is at most the bound of the query. *)
Lemma hit_made_by_scene_sphere obj ray_t rec rm :
  hit_r obj ray_t rec = (true, rm) ->
  exists center radius m bound,
    In (sphere center radius m) (spheres_of obj)
    /\ at_most bound (max ray_t)
    /\ sphere_hit center radius m r (mkinterval (min ray_t) bound) rec = (true, rm).
Proof.
  revert ray_t rec rm.
  induction obj as [center radius m | objs IH] using hittableObject_members_ind;
    intros ray_t rec rm.
  - intros E. exists center, radius, m, (max ray_t).
    split; [now left|]. split; [apply at_most_refl|].
    destruct ray_t as [lo hi]. exact E.
  - intros Hhit.
    destruct (list_hit_producer objs ray_t rec _ Hhit)
      as (o & c & tm & Hin & Hc & E & _).
    rewrite Forall_forall in IH.
    destruct (IH o Hin _ _ _ E) as (center & radius & m & c' & Hs & Hc' & Hrec).
    cbn [min max] in *.
    exists center, radius, m, c'.
    split; [cbn [spheres_of]; apply in_flat_map; eauto|].
    split; [eapply at_most_trans; eauto|].
    rewrite sphere_hit_eq in *.
    destruct (accepted_root center radius r (mkinterval (min ray_t) c'));
      [|discriminate].
    now rewrite (sphere_record_fresh _ _ _ _ _ rec tm).
Qed.

End Nearest.

(* ===================================================================== *)
(** * vec3::near_zero *)
(* ===================================================================== *)

(** What [near_zero] computes: the middle test is on [e[1]] itself. *)
Lemma near_zero_as_written v :
  near_zero v
  = (fabs (e0 v) <? 1e-8) && (e1 v <? 1e-8) && (fabs (e2 v) <? 1e-8).
Proof.
  unfold near_zero. cbv zeta.
  destruct (e1 v <? 1e-8); reflexivity.
Qed.

(** C5, at the vector (0, -5, 0): [near_zero] answers true although the
    magnitude of the second component, 5, is not below 1e-8. *)
Theorem near_zero_ignores_magnitude_of_e1 :
  near_zero (mkvec3 0 (-5) 0) = true
  /\ (fabs (e1 (mkvec3 0 (-5) 0)) <? 1e-8) = false.
Proof. split; vm_compute; reflexivity. Qed.

(* ===================================================================== *)
(** * material.h *)
(* ===================================================================== *)

Section Scatter.

Variable draws : nat -> double.
Variable pow : double -> double -> double.
Variable budget : nat.

(** [dielectric::scatter] never absorbs and never attenuates. *)
Lemma dielectric_scatter_returns ir r rec out k :
  exists direction' k',
    dielectric_scatter draws pow ir r rec out k
    = Ok (mkscatter_out true (mkvec3 1 1 1) (mkray rec.(p) direction'), k').
Proof.
  unfold dielectric_scatter. cbv zeta.
  destruct (1 <? _); [eauto|].
  unfold random_double. cbv iota beta. eauto.
Qed.

(** C4. [dielectric::scatter] always returns true with attenuation (1,1,1)
    and a ray from the hit point; and whenever
    [refraction_ratio * sin_theta > 1], the scattered direction is
    [reflect(unit_direction, normal)], whatever the generator would draw:
    no draw is made. *)
Theorem dielectric_scatter_reflects_when_it_cannot_refract ir r rec out k :
  let refraction_ratio := if rec.(frontfacing) then 1 / ir else ir in
  let unit_direction := unit_vectorQ (direction r) in
  let cos_theta := fmin (dot (vneg unit_direction) rec.(normal)) 1 in
  let sin_theta := PrimFloat.sqrt (1 - cos_theta * cos_theta) in
  (exists direction' k',
     dielectric_scatter draws pow ir r rec out k
     = Ok (mkscatter_out true (mkvec3 1 1 1) (mkray rec.(p) direction'), k'))
  /\ ((1 <? refraction_ratio * sin_theta) = true ->
      dielectric_scatter draws pow ir r rec out k
      = Ok (mkscatter_out true (mkvec3 1 1 1)
              (mkray rec.(p) (reflect unit_direction rec.(normal))), k)).
Proof.
  cbv zeta. split; [apply dielectric_scatter_returns|].
  intros Hcannot. unfold dielectric_scatter. cbv zeta.
  now rewrite Hcannot.
Qed.

(** C10. When [metal::scatter] has made its test and reports absorption,
    both out-parameters have been overwritten: [attenuation] is the albedo
    and [scattered] is the rejected ray, from the hit point along the
    fuzzed reflection, whose dot product with the normal is not positive. *)
Theorem metal_scatter_absorption_overwrites_outputs
    albedo fuzz r rec out out' k k' :
  metal_scatter draws budget albedo fuzz r rec out k = Ok (out', k') ->
  (fst (random_double draws k) <? 1) = true ->
  out'.(scatters) = false ->
  exists u,
    random_unit_vector draws budget (snd (random_double draws k)) = Ok (u, k')
    /\ out'.(attenuation) = albedo
    /\ out'.(scattered)
       = mkray rec.(p)
           (vadd (reflect (unit_vectorQ (direction r)) rec.(normal))
                 (vscale fuzz u))
    /\ (0 <? dot (direction out'.(scattered)) rec.(normal)) = false.
Proof.
  unfold metal_scatter, random_double. cbn [fst snd].
  intros H Hdraw Habs. rewrite Hdraw in H.
  destruct (random_unit_vector draws budget (S k)) as [[u k1]| |] eqn:Eu;
    cbn in H; try discriminate.
  injection H as <- <-. cbn in Habs |- *.
  exists u. rewrite vdiv_1. auto.
Qed.

(** The other return of [metal::scatter]: without the test, nothing is
    written. *)
Lemma metal_scatter_without_test albedo fuzz r rec out k :
  (fst (random_double draws k) <? 1) = false ->
  metal_scatter draws budget albedo fuzz r rec out k
  = Ok (mkscatter_out false out.(attenuation) out.(scattered), S k).
Proof.
  unfold metal_scatter, random_double. cbn [fst]. now intros ->.
Qed.

(** The rejection loop returns a vector or exceeds its budget. *)
Lemma random_in_unit_sphere_loop_no_fault fuel k :
  random_in_unit_sphere_loop draws fuel k <> Fault.
Proof.
  revert k. induction fuel as [|fuel IH]; intros k;
    cbn [random_in_unit_sphere_loop]; [discriminate|].
  destruct (vec3_random draws (-1) 1 k) as [q k1].
  destruct (length_squared q <? 1); [discriminate | apply IH].
Qed.

Lemma random_unit_vector_returns k :
  random_in_unit_sphere draws budget k <> Timeout ->
  exists u k', random_unit_vector draws budget k = Ok (u, k').
Proof.
  unfold random_unit_vector, random_in_unit_sphere. intros H.
  pose proof (random_in_unit_sphere_loop_no_fault budget k) as Hf.
  destruct (random_in_unit_sphere_loop draws budget k) as [[q k1]| |];
    try contradiction.
  cbn. eauto.
Qed.



(** When the sampling loop returns, [scatter] returns. *)
Lemma scatter_returns m r rec out k :
  (forall j, random_in_unit_sphere draws budget j <> Timeout) ->
  exists out' k', scatter draws pow budget m r rec out k = Ok (out', k').
Proof.
  intros Hs. destruct m as [albedo | albedo fuzz | ir]; cbn.
  - unfold lambertian_scatter, random_double.
    destruct (draws k <? 1); [|eauto].
    destruct (random_unit_vector_returns (S k) (Hs _)) as (u & k' & ->).
    cbn. eauto.
  - unfold metal_scatter, random_double.
    destruct (draws k <? 1); [|eauto].
    destruct (random_unit_vector_returns (S k) (Hs _)) as (u & k' & ->).
    cbn. eauto.
  - destruct (dielectric_scatter_returns ir r rec out k) as (d & k' & ->).
    eauto.
Qed.

End Scatter.

(* ===================================================================== *)
(** * camera::ray_color *)
(* ===================================================================== *)

Section RayColor.

Variable draws : nat -> double.
Variable pow : double -> double -> double.
Variable budget : nat.
Variable indeterminate_t : double.
Variable indeterminate_frontfacing : bool.

#[local] Abbreviation ray_color' :=
  (ray_color draws pow budget indeterminate_t indeterminate_frontfacing).

#[local] Abbreviation first_hit r world :=
  (hit indeterminate_t indeterminate_frontfacing r world
     (mkinterval 0.001 infinity)
     (hit_record_default indeterminate_t indeterminate_frontfacing)).

Lemma ray_color_exhausted r depth world k :
  (depth <= 0)%Z -> ray_color' r depth world k = Ok (mkvec3 0 0 0, k).
Proof.
  intros Hd. simp ray_color.
  destruct (Z_le_gt_dec depth 0) as [Hle|Hgt]; [reflexivity | lia].
Qed.

(** The body of [ray_color] when the budget is not exhausted: the only
    recursive call is made with [depth - 1]. *)
Lemma ray_color_body r depth world k :
  (depth > 0)%Z ->
  ray_color' r depth world k
  = let '(found, rec) := first_hit r world in
    if found then
      match rec.(mat) with
      | None => Fault
      | Some m =>
          let* (out, k) :=
            scatter draws pow budget m r rec
              (mkscatter_out false vec3_zero ray_default) k in
          if out.(scatters) then
            let* (c, k) := ray_color' out.(scattered) (depth - 1) world k in
            Ok (vmul out.(attenuation) c, k)
          else Ok (mkvec3 0 0 0, k)
      end
    else Ok (background r, k).
Proof.
  intros Hd. simp ray_color.
  destruct (Z_le_gt_dec depth 0) as [Hle|Hgt]; [lia | reflexivity].
Qed.


(** C9, as the code has it. For every ray that hits nothing and every
    [depth > 0], [ray_color] returns the gradient of the stated formula,
    evaluated on [unit_vectorQ] of the direction: the direction scaled by
    the fast inverse square root of its squared length. *)
Theorem ray_color_background_gradient r depth world k :
  (depth > 0)%Z ->
  fst (first_hit r world) = false ->
  ray_color' r depth world k
  = Ok (gradient (unit_vectorQ (direction r)), k).
Proof.
  intros Hd Hmiss. rewrite ray_color_body by assumption.
  destruct (first_hit r world) as [[|] rec]; [discriminate | reflexivity].
Qed.




End RayColor.

(* ===================================================================== *)
(** * Negation and the sign of a dot product *)
(* ===================================================================== *)

Lemma SFrank_opp x : SFrank (SFopp x) = rank_opp (SFrank x).
Proof.
  destruct x as [[|]|[|]| |[|] m e]; cbn; try reflexivity;
    now rewrite Z.opp_involutive.
Qed.

Lemma binary_round_aux_opp s m e l :
  binary_round_aux prec emax (negb s) m e l
  = SFopp (binary_round_aux prec emax s m e l).
Proof.
  unfold binary_round_aux.
  destruct (shr_fexp prec emax m e l) as [mrs' e'].
  destruct (shr_fexp prec emax _ e' loc_Exact) as [mrs'' e''].
  destruct (shr_m mrs''); try reflexivity.
  destruct (e'' <=? emax - prec)%Z; reflexivity.
Qed.

Lemma binary_round_opp s m e :
  binary_round prec emax (negb s) m e = SFopp (binary_round prec emax s m e).
Proof.
  unfold binary_round.
  destruct (shl_align m e _) as [mz ez]. apply binary_round_aux_opp.
Qed.

Lemma SFmul_opp_r x y :
  SFmul prec emax x (SFopp y) = SFopp (SFmul prec emax x y).
Proof.
  destruct x as [sx|sx| |sx mx ex], y as [sy|sy| |sy my ey]; cbn [SFmul SFopp];
    try reflexivity;
    try (destruct sx, sy; reflexivity).
  replace (xorb sx (negb sy)) with (negb (xorb sx sy)) by (destruct sx, sy; reflexivity).
  apply binary_round_aux_opp.
Qed.

Lemma mul_opp_r (x y : double) : x * (- y) = - (x * y).
Proof.
  apply Prim2SF_inj.
  rewrite mul_spec, !opp_spec, mul_spec. apply SFmul_opp_r.
Qed.

Lemma binary_normalize_opp_rank z e :
  SFrank (binary_normalize prec emax (- z) e false)
  = rank_opp (SFrank (binary_normalize prec emax z e false)).
Proof.
  destruct z as [|q|q]; cbn [binary_normalize Z.opp]; [reflexivity| |].
  - rewrite <- SFrank_opp. f_equal. apply (binary_round_opp false).
  - rewrite <- SFrank_opp, <- (binary_round_opp true). reflexivity.
Qed.

Lemma SFadd_opp_rank x y :
  SFrank (SFadd prec emax (SFopp x) (SFopp y))
  = rank_opp (SFrank (SFadd prec emax x y)).
Proof.
  destruct x as [sx|sx| |sx mx ex], y as [sy|sy| |sy my ey];
    try (destruct sx, sy; reflexivity);
    try (destruct sx; reflexivity);
    try (destruct sy; reflexivity);
    try reflexivity.
  - cbn [SFadd SFopp]. apply (SFrank_opp (S754_finite sy my ey)).
  - cbn [SFadd SFopp]. apply (SFrank_opp (S754_finite sx mx ex)).
  - cbn [SFadd SFopp]. rewrite <- binary_normalize_opp_rank. f_equal. f_equal.
    destruct sx, sy; cbn [cond_Zopp negb]; lia.
Qed.

(** Numbers of equal rank are equal, or are the two zeros. *)
Lemma SFrank_inj x y :
  SFrank x = SFrank y ->
  x = y \/ (exists s s', x = S754_zero s /\ y = S754_zero s').
Proof.
  destruct x as [sx|[|]| |[|] mx ex], y as [sy|[|]| |[|] my ey]; cbn;
    try discriminate; try (now left); try (right; eauto; fail);
    intros [= H1 H2]; left; f_equal; lia.
Qed.

Lemma SFadd_rank_l x x' y :
  SFrank x = SFrank x' ->
  SFrank (SFadd prec emax x y) = SFrank (SFadd prec emax x' y).
Proof.
  intros H. destruct (SFrank_inj _ _ H) as [->|(s & s' & -> & ->)];
    [reflexivity|].
  destruct y as [sy|sy| |sy my ey]; try reflexivity.
  destruct s, s', sy; reflexivity.
Qed.

Lemma rank_opp_spec x : rank (- x) = rank_opp (rank x).
Proof. unfold rank. rewrite opp_spec. apply SFrank_opp. Qed.

Lemma rank_add_opp x y : rank ((- x) + (- y)) = rank_opp (rank (x + y)).
Proof. unfold rank. rewrite !add_spec, !opp_spec. apply SFadd_opp_rank. Qed.

Lemma rank_add_l x x' y : rank x = rank x' -> rank (x + y) = rank (x' + y).
Proof. unfold rank. rewrite !add_spec. apply SFadd_rank_l. Qed.

(** The dot product with the opposite vector is the opposite number, up to
    the sign of a zero. *)
Lemma rank_dot_vneg u v : rank (dot u (vneg v)) = rank_opp (rank (dot u v)).
Proof.
  unfold dot, vneg. cbn [e0 e1 e2]. rewrite !mul_opp_r.
  rewrite (rank_add_l _ (- (e0 u * e0 v + e1 u * e1 v))).
  - apply rank_add_opp.
  - rewrite rank_add_opp. symmetry. apply rank_opp_spec.
Qed.

Lemma rank_zero : rank 0 = Some (0, 0, 0)%Z.
Proof. reflexivity. Qed.

Lemma is_nan_rank x : is_nan x = false <-> rank x <> None.
Proof.
  unfold is_nan, rank. rewrite eqb_spec. unfold SFeqb.
  pose proof (SFcompare_rank (Prim2SF x) (Prim2SF x)) as H.
  destruct (SFcompare (Prim2SF x) (Prim2SF x)) as [[| |]|]; cbn.
  - split; [intros _; apply H | reflexivity].
  - destruct (SFrank (Prim2SF x)); cbn in H; [|contradiction].
    elim (lexlt_irrefl _ H).
  - destruct (SFrank (Prim2SF x)); cbn in H; [|contradiction].
    elim (lexlt_irrefl _ H).
  - split; [discriminate|]. intros Hn. destruct H; contradiction.
Qed.

(** The normal stored by [set_face_normal] never points along the ray. *)
Lemma set_face_normal_opposes rec r outward :
  let rec' := set_face_normal rec r outward in
  rec'.(frontfacing) = (dot (direction r) outward <? 0)
  /\ rec'.(normal) = (if rec'.(frontfacing) then outward else vneg outward)
  /\ (0 <? dot (direction r) rec'.(normal)) = false
  /\ (is_nan (dot (direction r) outward) = false ->
      (dot (direction r) rec'.(normal) <=? 0) = true).
Proof.
  unfold set_face_normal. cbv zeta. cbn [frontfacing normal].
  split; [reflexivity|]. split; [reflexivity|].
  destruct (dot (direction r) outward <? 0) eqn:E.
  - split; [|intros _]; float_order.
  - split.
    + apply ltb_rank_false. apply ltb_rank_false in E.
      rewrite rank_dot_vneg. rewrite rank_zero in *.
      destruct (rank (dot (direction r) outward)) as [[[a b] c]|]; cbn in *; lia.
    + intros Hn. apply is_nan_rank in Hn.
      apply leb_rank. apply ltb_rank_false in E.
      rewrite rank_dot_vneg. rewrite rank_zero in *.
      destruct (rank (dot (direction r) outward)) as [[[a b] c]|]; cbn in *;
        [lia | contradiction].
Qed.

Lemma sphere_record_normal center radius m r root rec rec' :
  sphere_record center radius m r root rec = (true, rec') ->
  normal_opposes_ray r center radius rec'.
Proof.
  unfold sphere_record. intros [= <-].
  unfold normal_opposes_ray, outward_normal_at, set_mat.
  cbn [p normal frontfacing].
  exact (set_face_normal_opposes (set_p (set_t rec root) (ray_at r root)) r
           (vdiv (vsub (ray_at r root) center) radius)).
Qed.

(** C3, as the code has it. For every hit reported by [sphere::hit], the
    normal is the outward normal [(p - center) / radius] of that sphere at
    the recorded point, negated unless the ray meets the front face; its dot
    product with the direction of the ray is never positive, and is at most
    zero whenever the dot product with the outward normal is a number. The
    same holds of every record returned by [hit] on a list of any depth, for
    a sphere of the scene: the record is the one that [sphere::hit] fills in
    for that sphere, under an upper bound that is at most the bound of the
    query. Nothing is promised of the length of the normal. *)
Theorem hit_normal_opposes_ray indeterminate_t indeterminate_frontfacing r :
  (forall center radius m ray_t rec rec',
     sphere_hit center radius m r ray_t rec = (true, rec') ->
     normal_opposes_ray r center radius rec')
  /\ (forall obj ray_t rec rec',
        hit indeterminate_t indeterminate_frontfacing r obj ray_t rec
        = (true, rec') ->
        exists center radius m bound,
          In (sphere center radius m) (spheres_of obj)
          /\ at_most bound (max ray_t)
          /\ sphere_hit center radius m r (mkinterval (min ray_t) bound) rec
             = (true, rec')
          /\ normal_opposes_ray r center radius rec').
Proof.
  assert (forall center radius m ray_t rec rec',
            sphere_hit center radius m r ray_t rec = (true, rec') ->
            normal_opposes_ray r center radius rec') as Hsphere.
  { intros center radius m ray_t rec rec'. rewrite sphere_hit_eq.
    destruct (accepted_root center radius r ray_t) as [root|]; [|discriminate].
    apply sphere_record_normal. }
  split; [exact Hsphere|].
  intros obj ray_t rec rec' H.
  destruct (hit_made_by_scene_sphere _ _ _ _ _ _ _ H)
    as (center & radius & m & bound & Hin & Hb & Hs).
  exists center, radius, m, bound. repeat split; auto.
  all: eapply Hsphere; eauto.
Qed.

(* ===================================================================== *)
(** * The properties at concrete scenes *)
(* ===================================================================== *)

Lemma sphere_hit_records_root_inside_interval_witness :
  sphere_hit example_near_center 0.5 example_matte example_ahead example_range
    example_rec
  = (true, snd (hit 0 false example_ahead example_near example_range example_rec))
  /\ (snd (hit 0 false example_ahead example_near example_range example_rec)).(t)
     = 0.5.
Proof.
  assert (sphere_hit example_near_center 0.5 example_matte example_ahead
            example_range example_rec
          = (true, snd (hit 0 false example_ahead example_near example_range
                          example_rec))) as H
    by (vm_compute; reflexivity).
  split; [exact H|].
  destruct (sphere_hit_records_root_inside_interval _ _ _ _ _ _ _ H)
    as (_ & _ & _ & _ & ->).
  vm_compute. reflexivity.
Defined.

Lemma hittable_list_hit_is_nearest_witness :
  hit 0 false example_ahead example_world example_range example_rec
  = (true, snd (hit 0 false example_ahead example_near example_range example_rec))
  /\ forall o rec0 rm,
       In o [example_far; example_near] ->
       hit 0 false example_ahead o example_range rec0 = (true, rm) ->
       (0.5 <=? rm.(t)) = true.
Proof.
  assert (hit 0 false example_ahead example_world example_range example_rec
          = (true, snd (hit 0 false example_ahead example_near example_range
                          example_rec))) as H
    by (vm_compute; reflexivity).
  split; [exact H|].
  exact (proj1 (proj2 (hittable_list_hit_is_nearest 0 false example_ahead
                         [example_far; example_near] example_range example_rec
                         _ H))).
Defined.

Lemma hittable_list_hit_writes_only_closer_hit_witness :
  hit 0 false example_up example_world example_range example_outside_hit
  = (false, example_outside_hit)
  /\ forall rec',
       hit 0 false example_up example_world example_range example_outside_hit
       = (false, rec') -> rec' = example_outside_hit.
Proof.
  split; [vm_compute; reflexivity|].
  exact (proj1 (hittable_list_hit_writes_only_closer_hit 0 false example_up
                  [example_far; example_near] example_range
                  example_outside_hit)).
Defined.

(** C3, refuted as stated. The normal recorded for an ordinary hit has a
    length that is not 1; and for a sphere of a positive subnormal radius
    a hit is reported whose normal has no dot product at most zero with
    the direction of the ray. *)
Lemma sphere_hit_normal_not_unit_length :
  (let res := sphere_hit example_near_center 0.5 example_matte example_skew
                example_range example_rec in
   fst res = true
   /\ (vec3_length (snd res).(normal) =? 1) = false
   /\ (length_squared (snd res).(normal) =? 1) = false)
  /\ (let res := hit 0 false example_along_x example_speck example_range
                   example_rec in
      fst res = true
      /\ (dot (direction example_along_x) (snd res).(normal) <=? 0) = false).
Proof. vm_compute. repeat split. Qed.

Lemma hit_normal_opposes_ray_witness :
  hit 0 false example_ahead example_world example_range example_rec
  = (true, snd (hit 0 false example_ahead example_near example_range example_rec))
  /\ exists center radius m bound,
       In (sphere center radius m) (spheres_of example_world)
       /\ at_most bound (max example_range)
       /\ sphere_hit center radius m example_ahead
            (mkinterval (min example_range) bound) example_rec
          = (true, snd (hit 0 false example_ahead example_near example_range
                          example_rec))
       /\ normal_opposes_ray example_ahead center radius
            (snd (hit 0 false example_ahead example_near example_range example_rec)).
Proof.
  assert (hit 0 false example_ahead example_world example_range example_rec
          = (true, snd (hit 0 false example_ahead example_near example_range
                          example_rec))) as H
    by (vm_compute; reflexivity).
  split; [exact H|].
  exact (proj2 (hit_normal_opposes_ray 0 false example_ahead) _ _ _ _ H).
Defined.

Lemma dielectric_scatter_reflects_when_it_cannot_refract_witness :
  (let unit_direction := unit_vectorQ (direction example_grazing) in
   let cos_theta :=
     fmin (dot (vneg unit_direction) example_inside_hit.(normal)) 1 in
   (1 <? 1.5 * PrimFloat.sqrt (1 - cos_theta * cos_theta)) = true)
  /\ dielectric_scatter example_draws example_pow 1.5 example_grazing
       example_inside_hit example_out 0
     = Ok (mkscatter_out true (mkvec3 1 1 1)
             (mkray example_inside_hit.(p)
                (reflect (unit_vectorQ (direction example_grazing))
                   example_inside_hit.(normal))), 0%nat).
Proof.
  split; [vm_compute; reflexivity|].
  apply (proj2 (dielectric_scatter_reflects_when_it_cannot_refract
                  example_draws example_pow 1.5 example_grazing
                  example_inside_hit example_out 0)).
  vm_compute. reflexivity.
Defined.

Lemma metal_scatter_absorption_overwrites_outputs_witness :
  exists out' k',
    metal_scatter example_draws_down 10 (mkvec3 0.8 0.8 0.8) 1 example_grazing
      example_outside_hit example_out 0 = Ok (out', k')
    /\ out'.(scatters) = false
    /\ out'.(attenuation) = mkvec3 0.8 0.8 0.8.
Proof.
  destruct (metal_scatter example_draws_down 10 (mkvec3 0.8 0.8 0.8) 1
              example_grazing example_outside_hit example_out 0)
    as [[out' k']| |] eqn:E; try (vm_compute in E; discriminate).
  assert (scatters out' = false) as Habs
    by (vm_compute in E; injection E as <- _; reflexivity).
  exists out', k'. split; [reflexivity|]. split; [exact Habs|].
  destruct (metal_scatter_absorption_overwrites_outputs example_draws_down 10
              (mkvec3 0.8 0.8 0.8) 1 example_grazing example_outside_hit
              example_out out' 0 k' E eq_refl Habs)
    as (u & _ & Hatt & _).
  exact Hatt.
Defined.

Lemma ray_color_background_gradient_witness :
  (1 > 0)%Z
  /\ fst (hit 0 false example_up example_world example_range
            (hit_record_default 0 false)) = false
  /\ ray_color example_draws example_pow 10 0 false example_up 1 example_world 0
     = Ok (gradient (unit_vectorQ (direction example_up)), 0%nat).
Proof.
  assert (fst (hit 0 false example_up example_world example_range
                 (hit_record_default 0 false)) = false) as H
    by (vm_compute; reflexivity).
  split; [lia|]. split; [exact H|].
  apply ray_color_background_gradient; [lia | exact H].
Defined.

(** C9, refuted as stated. The direction (0,1,0) is a unit vector and the
    ray hits nothing, yet the color is not the gradient evaluated with the
    y component of the direction itself; and with [depth = 0] the color of
    a ray that hits nothing is black, not the gradient. *)
Lemma ray_color_gradient_not_exact_on_unit_direction :
  (vec3_length (direction example_up) =? 1) = true
  /\ fst (hit 0 false example_up (hittable_list []) example_range
            (hit_record_default 0 false)) = false
  /\ ray_color example_draws example_pow 10 0 false example_up 1
       (hittable_list []) 0
     <> Ok (gradient (direction example_up), 0%nat)
  /\ ray_color example_draws example_pow 10 0 false example_up 0
       (hittable_list []) 0
     <> Ok (gradient (unit_vectorQ (direction example_up)), 0%nat).
Proof.
  split; [vm_compute; reflexivity|]. split; [vm_compute; reflexivity|].
  split; intros H.
  - apply (f_equal (fun res => match res with
                               | Ok (c, _) => e0 c =? 0.5
                               | _ => true
                               end)) in H.
    vm_compute in H. discriminate.
  - apply (f_equal (fun res => match res with
                               | Ok (c, _) => e0 c =? 0
                               | _ => false
                               end)) in H.
    vm_compute in H. discriminate.
Qed.




(* ===================================================================== *)
(** * write_color: rounding of n * (1 / n) *)
(* ===================================================================== *)

#[local] Open Scope Z_scope.

Lemma digits2_pos_bounds q :
  2 ^ (Zpos (digits2_pos q) - 1) <= Zpos q < 2 ^ Zpos (digits2_pos q).
Proof.
  induction q as [q IH|q IH|]; cbn [digits2_pos].
  - rewrite Pos2Z.inj_succ.
    replace (Z.succ (Zpos (digits2_pos q)) - 1) with (Z.succ (Zpos (digits2_pos q) - 1)) by lia.
    rewrite !Z.pow_succ_r by lia. lia.
  - rewrite Pos2Z.inj_succ.
    replace (Z.succ (Zpos (digits2_pos q)) - 1) with (Z.succ (Zpos (digits2_pos q) - 1)) by lia.
    rewrite !Z.pow_succ_r by lia. lia.
  - cbn. lia.
Qed.

Lemma digits2_pos_unique q d :
  2 ^ (d - 1) <= Zpos q < 2 ^ d -> Zpos (digits2_pos q) = d.
Proof.
  intros [H1 H2]. pose proof (digits2_pos_bounds q) as [H3 H4].
  assert (0 < d) as Hd.
  { destruct (Z_lt_le_dec 0 d) as [?|Hn]; [assumption|].
    assert (2 ^ d <= 2 ^ 0) by (apply Z.pow_le_mono_r; lia).
    change (2 ^ 0) with 1 in *. lia. }
  destruct (Z.lt_trichotomy (Zpos (digits2_pos q)) d) as [Hlt|[Heq|Hgt]];
    [|assumption|].
  - assert (2 ^ Zpos (digits2_pos q) <= 2 ^ (d - 1)) by (apply Z.pow_le_mono_r; lia).
    lia.
  - assert (2 ^ d <= 2 ^ (Zpos (digits2_pos q) - 1)) by (apply Z.pow_le_mono_r; lia).
    lia.
Qed.

Lemma shr_1_m mrs : 0 <= shr_m mrs -> shr_m (shr_1 mrs) = shr_m mrs / 2.
Proof.
  destruct mrs as [m r s]. cbn [shr_m]. intros Hm.
  destruct m as [|[q|q|]|q]; cbn [shr_1 shr_m]; try lia.
  - reflexivity.
  - apply (Z.div_unique _ _ _ 1); lia.
  - apply (Z.div_unique _ _ _ 0); lia.
  - reflexivity.
Qed.

Lemma pow2_double k : 2 ^ Zpos k~0 = 2 ^ Zpos k * 2 ^ Zpos k.
Proof. rewrite <- Z.pow_add_r by lia. f_equal. lia. Qed.

Lemma pow2_double_succ k : 2 ^ Zpos k~1 = 2 * (2 ^ Zpos k * 2 ^ Zpos k).
Proof.
  rewrite <- Z.pow_add_r, <- Z.pow_succ_r by lia. f_equal. lia.
Qed.

Lemma iter_shr_m k mrs :
  0 <= shr_m mrs ->
  shr_m (iter_pos shr_1 k mrs) = shr_m mrs / 2 ^ Zpos k.
Proof.
  revert mrs. induction k as [k IH|k IH|]; intros mrs Hm; cbn [iter_pos].
  - assert (0 <= shr_m (shr_1 mrs)) as H1
      by (rewrite shr_1_m by assumption; apply Z.div_pos; lia).
    assert (0 <= shr_m (iter_pos shr_1 k (shr_1 mrs))) as H2
      by (rewrite IH by assumption; apply Z.div_pos; lia).
    rewrite IH, IH, shr_1_m by assumption.
    rewrite !Z.div_div by lia. now rewrite pow2_double_succ.
  - assert (0 <= shr_m (iter_pos shr_1 k mrs)) as H2
      by (rewrite IH by assumption; apply Z.div_pos; lia).
    rewrite IH, IH by assumption.
    rewrite !Z.div_div by lia. now rewrite pow2_double.
  - rewrite shr_1_m by assumption. reflexivity.
Qed.

Lemma round_nearest_even_bounds m l :
  m <= round_nearest_even m l <= m + 1.
Proof.
  destruct l as [|[| |]]; cbn [round_nearest_even]; try lia.
  destruct (Z.even m); lia.
Qed.

Lemma shr_record_of_loc_m m l : shr_m (shr_record_of_loc m l) = m.
Proof. destruct l as [|[| |]]; reflexivity. Qed.

Lemma loc_of_shr_record_of_loc m l :
  loc_of_shr_record (shr_record_of_loc m l) = l.
Proof. destruct l as [|[| |]]; reflexivity. Qed.

Lemma shr_fexp_53 m e l :
  4503599627370496 <= m < 9007199254740992 -> -1074 <= e ->
  shr_fexp prec emax m e l = (shr_record_of_loc m l, e).
Proof.
  intros Hm He. unfold shr_fexp.
  destruct m as [|q|q]; try lia.
  cbn [Zdigits2].
  rewrite (digits2_pos_unique q 53) by (change (2 ^ (53 - 1)) with 4503599627370496;
                                        change (2 ^ 53) with 9007199254740992; lia).
  replace (fexp prec emax (53 + e) - e) with 0
    by (unfold fexp, SpecFloat.emin, prec, emax; lia).
  reflexivity.
Qed.

Lemma shr_fexp_54 e l :
  -1074 <= e ->
  shr_fexp prec emax 9007199254740992 e l
  = (shr_1 (shr_record_of_loc 9007199254740992 l), e + 1).
Proof.
  intros He. unfold shr_fexp.
  change (Zdigits2 9007199254740992) with 54.
  replace (fexp prec emax (54 + e) - e) with 1
    by (unfold fexp, SpecFloat.emin, prec, emax; lia).
  reflexivity.
Qed.

Lemma round_tail_spec s m1 e :
  4503599627370496 <= m1 <= 9007199254740992 -> -1074 <= e <= 970 ->
  round_tail s m1 e = rounded s m1 e.
Proof.
  intros Hm He. unfold round_tail, rounded.
  destruct (m1 <? 9007199254740992) eqn:E.
  - apply Z.ltb_lt in E. rewrite shr_fexp_53 by lia. cbn [shr_record_of_loc shr_m].
    destruct m1 as [|q|q]; try lia.
    destruct (e <=? emax - prec) eqn:E2; [reflexivity|].
    apply Z.leb_gt in E2. unfold emax, prec in E2. lia.
  - apply Z.ltb_ge in E. replace m1 with 9007199254740992 by lia.
    rewrite shr_fexp_54 by lia. cbn [shr_record_of_loc shr_1 shr_m orb].
    destruct (e + 1 <=? emax - prec) eqn:E2; [reflexivity|].
    apply Z.leb_gt in E2. unfold emax, prec in E2. lia.
Qed.

Lemma binary_round_aux_tail s m e l :
  binary_round_aux prec emax s m e l
  = let '(mrs', e') := shr_fexp prec emax m e l in
    round_tail s (round_nearest_even (shr_m mrs') (loc_of_shr_record mrs')) e'.
Proof. reflexivity. Qed.

(** Rounding a mantissa of 53 or 54 bits at most. *)
Lemma binary_round_aux_53_54 s m e l :
  4503599627370496 <= m <= 9007199254740992 -> -1074 <= e <= 969 ->
  exists m1, m <= m1 <= m + 1 /\ m1 <= 9007199254740992
             /\ binary_round_aux prec emax s m e l = rounded s m1 e.
Proof.
  intros Hm He. rewrite binary_round_aux_tail.
  destruct (Z.eq_dec m 9007199254740992) as [->|Hne].
  - rewrite shr_fexp_54 by lia. exists 9007199254740992.
    split; [lia|]. split; [lia|].
    destruct l as [|[| |]]; cbn [shr_record_of_loc shr_1 shr_m orb
                                   loc_of_shr_record round_nearest_even];
      rewrite round_tail_spec by lia; reflexivity.
  - rewrite shr_fexp_53 by lia.
    rewrite shr_record_of_loc_m, loc_of_shr_record_of_loc.
    pose proof (round_nearest_even_bounds m l) as Hb.
    exists (round_nearest_even m l).
    split; [lia|]. split; [lia|].
    apply round_tail_spec; lia.
Qed.

(** Rounding the exact product of two mantissas, [k] bits too long. *)
Lemma binary_round_aux_long s P E k :
  4503599627370496 * 2 ^ Zpos k <= P < 9007199254740992 * 2 ^ Zpos k ->
  -1074 <= E + Zpos k <= 969 ->
  exists m1, P / 2 ^ Zpos k <= m1 <= P / 2 ^ Zpos k + 1
             /\ binary_round_aux prec emax s P E loc_Exact
                = rounded s m1 (E + Zpos k).
Proof.
  intros HP HE. rewrite binary_round_aux_tail.
  assert (0 < 2 ^ Zpos k) as Hk by (apply Z.pow_pos_nonneg; lia).
  unfold shr_fexp.
  destruct P as [|q|q]; try lia.
  cbn [Zdigits2].
  rewrite (digits2_pos_unique q (53 + Zpos k)).
  2:{ replace (53 + Zpos k - 1) with (52 + Zpos k) by lia.
      rewrite !Z.pow_add_r by lia.
      change (2 ^ 52) with 4503599627370496.
      change (2 ^ 53) with 9007199254740992. lia. }
  replace (fexp prec emax (53 + Zpos k + E) - E) with (Zpos k)
    by (unfold fexp, SpecFloat.emin, prec, emax; lia).
  cbn [shr shr_record_of_loc].
  set (mrs := iter_pos shr_1 k {| shr_m := Zpos q; shr_r := false; shr_s := false |}).
  assert (shr_m mrs = Zpos q / 2 ^ Zpos k) as Hm
    by (unfold mrs; rewrite iter_shr_m by (cbn; lia); reflexivity).
  assert (4503599627370496 <= Zpos q / 2 ^ Zpos k < 9007199254740992) as Hq.
  { split.
    - apply Z.div_le_lower_bound; lia.
    - apply Z.div_lt_upper_bound; lia. }
  pose proof (round_nearest_even_bounds (shr_m mrs) (loc_of_shr_record mrs)) as Hb.
  exists (round_nearest_even (shr_m mrs) (loc_of_shr_record mrs)).
  rewrite <- Hm. split; [lia|].
  apply round_tail_spec; lia.
Qed.

Lemma Pos_iter_xO q k : Zpos (Pos.iter xO q k) = Zpos q * 2 ^ Zpos k.
Proof.
  induction k as [|k IH] using Pos.peano_ind.
  - cbn. lia.
  - rewrite Pos.iter_succ, Pos2Z.inj_xO, IH, Pos2Z.inj_succ, Z.pow_succ_r by lia.
    lia.
Qed.

Lemma binary_round_aux_exact s M e :
  4503599627370496 <= Zpos M < 9007199254740992 -> -1074 <= e <= 970 ->
  binary_round_aux prec emax s (Zpos M) e loc_Exact = S754_finite s M e.
Proof.
  intros HM He. rewrite binary_round_aux_tail, shr_fexp_53 by lia.
  cbn [shr_record_of_loc shr_m loc_of_shr_record round_nearest_even].
  rewrite round_tail_spec by lia. unfold rounded.
  destruct (Zpos M <? 9007199254740992) eqn:E; [reflexivity|].
  apply Z.ltb_ge in E. lia.
Qed.

Lemma double_of_int_normal n :
  1 <= n <= INT_MAX -> normal_in_range (Prim2SF (double_of_int n)).
Proof.
  intros Hn. destruct n as [|q|q]; try lia. unfold INT_MAX in Hn.
  unfold double_of_int. rewrite of_uint63_spec.
  rewrite Uint63.of_Z_spec.
  rewrite Z.mod_small by (unfold Uint63.wB; cbn; lia).
  cbn [binary_normalize]. unfold binary_round.
  pose proof (digits2_pos_bounds q) as Hd.
  set (d := Zpos (digits2_pos q)) in *.
  assert (1 <= d <= 31) as Hd31.
  { split; [unfold d; lia|].
    destruct (Z_le_gt_dec d 31) as [?|Hgt]; [assumption|].
    assert (2 ^ 31 <= 2 ^ (d - 1)) by (apply Z.pow_le_mono_r; lia).
    change (2 ^ 31) with 2147483648 in *. lia. }
  replace (fexp prec emax (d + 0)) with (d - 53)
    by (unfold fexp, SpecFloat.emin, prec, emax; lia).
  unfold shl_align.
  destruct (d - 53 - 0) as [|k|k] eqn:Ek; try lia.
  assert (Zpos k = 53 - d) as Hk by lia.
  pose proof (Pos_iter_xO q k) as HM.
  assert (2 ^ (d - 1) * 2 ^ Zpos k = 4503599627370496) as H52.
  { rewrite <- Z.pow_add_r by lia. replace (d - 1 + Zpos k) with 52 by lia.
    reflexivity. }
  assert (2 ^ d * 2 ^ Zpos k = 9007199254740992) as H53.
  { rewrite <- Z.pow_add_r by lia. replace (d + Zpos k) with 53 by lia.
    reflexivity. }
  assert (0 < 2 ^ Zpos k) as Hpk by (apply Z.pow_pos_nonneg; lia).
  assert (4503599627370496 <= Zpos (Pos.iter xO q k) < 9007199254740992) as Hb.
  { rewrite HM, <- H52, <- H53. split.
    - apply Z.mul_le_mono_nonneg_r; lia.
    - apply Z.mul_lt_mono_pos_r; lia. }
  rewrite binary_round_aux_exact by lia.
  exists (Pos.iter xO q k), (d - 53). repeat split; lia.
Qed.

Lemma SFdiv_core_one M e :
  4503599627370496 <= Zpos M < 9007199254740992 -> -52 <= e <= -22 ->
  SFdiv_core_binary prec emax 4503599627370496 (-52) (Zpos M) e
  = (40564819207303340847894502572032 / Zpos M, -105 - e,
     new_location (Zpos M) (40564819207303340847894502572032 mod Zpos M)).
Proof.
  intros HM He. unfold SFdiv_core_binary.
  cbn [Zdigits2].
  rewrite (digits2_pos_unique M 53)
    by (change (2 ^ (53 - 1)) with 4503599627370496;
        change (2 ^ 53) with 9007199254740992; lia).
  change (Zpos (digits2_pos 4503599627370496)) with 53.
  replace (Z.min (fexp prec emax (53 + -52 - (53 + e))) (-52 - e)) with (-105 - e)
    by (unfold fexp, SpecFloat.emin, prec, emax; lia).
  replace (-52 - e - (-105 - e)) with 53 by lia.
  change (Z.shiftl 4503599627370496 53) with 40564819207303340847894502572032.
  unfold Z.div, Z.modulo.
  destruct (Z.div_eucl 40564819207303340847894502572032 (Zpos M)) as [q r].
  reflexivity.
Qed.

Lemma reciprocal_rounded M e :
  4503599627370496 <= Zpos M < 9007199254740992 -> -52 <= e <= -22 ->
  exists q1,
    40564819207303340847894502572032 / Zpos M <= q1
      <= 40564819207303340847894502572032 / Zpos M + 1
    /\ q1 <= 9007199254740992
    /\ SFdiv prec emax (S754_finite false 4503599627370496 (-52))
         (S754_finite false M e)
       = rounded false q1 (-105 - e).
Proof.
  intros HM He. cbn [SFdiv xorb]. rewrite SFdiv_core_one by assumption.
  apply binary_round_aux_53_54; [|lia].
  split.
  - apply Z.div_le_lower_bound; lia.
  - apply Z.div_le_upper_bound; lia.
Qed.

Lemma product_near_one M e q1 :
  4503599627370496 <= Zpos M < 9007199254740992 -> -52 <= e <= -22 ->
  40564819207303340847894502572032 / Zpos M <= q1
    <= 40564819207303340847894502572032 / Zpos M + 1 ->
  q1 <= 9007199254740992 ->
  near_one (SFmul prec emax (S754_finite false M e) (rounded false q1 (-105 - e))).
Proof.
  intros HM He Hq1 Hq1max.
  pose proof (Z.div_mod 40564819207303340847894502572032 (Zpos M) ltac:(lia)) as Hdiv.
  pose proof (Z.mod_pos_bound 40564819207303340847894502572032 (Zpos M) ltac:(lia)) as Hr.
  set (q := 40564819207303340847894502572032 / Zpos M) in *.
  set (r := 40564819207303340847894502572032 mod Zpos M) in *.
  assert (4503599627370496 <= q) as Hq by (apply Z.div_le_lower_bound; lia).
  unfold rounded. destruct (q1 <? 9007199254740992) eqn:E.
  - apply Z.ltb_lt in E. cbn [SFmul xorb].
    replace (e + (-105 - e)) with (-105) by lia.
    rewrite Pos2Z.inj_mul, Z2Pos.id by lia.
    assert (Zpos M * q1 = Zpos M * q \/ Zpos M * q1 = Zpos M * q + Zpos M) as HP.
    { destruct (Z.eq_dec q1 q) as [->|Hne]; [now left|].
      right. replace q1 with (q + 1) by lia. ring. }
    destruct (Z_lt_le_dec (Zpos M * q1) 40564819207303340847894502572032)
      as [Hlt|Hge].
    + destruct (binary_round_aux_long false (Zpos M * q1) (-105) 52)
        as (m1 & Hm1 & ->).
      { change (2 ^ Zpos 52) with 4503599627370496. lia. }
      { lia. }
      change (2 ^ Zpos 52) with 4503599627370496 in Hm1.
      assert (9007199254740990 <= Zpos M * q1 / 4503599627370496
              <= 9007199254740991) as Hquo.
      { split.
        - apply Z.div_le_lower_bound; lia.
        - assert (Zpos M * q1 / 4503599627370496 < 9007199254740992); [|lia].
          apply Z.div_lt_upper_bound; lia. }
      assert (m1 = 9007199254740990 \/ m1 = 9007199254740991
              \/ m1 = 9007199254740992) as Hcases by lia.
      destruct Hcases as [ -> | [ -> | -> ] ]; unfold near_one; cbn; auto.
    + destruct (binary_round_aux_long false (Zpos M * q1) (-105) 53)
        as (m1 & Hm1 & ->).
      { change (2 ^ Zpos 53) with 9007199254740992. lia. }
      { lia. }
      change (2 ^ Zpos 53) with 9007199254740992 in Hm1.
      assert (Zpos M * q1 / 9007199254740992 = 4503599627370496) as Hquo.
      { symmetry. apply (Z.div_unique _ _ _
                           (Zpos M * q1 - 40564819207303340847894502572032)).
        - left. lia.
        - ring. }
      rewrite Hquo in Hm1.
      assert (m1 = 4503599627370496 \/ m1 = 4503599627370497) as Hcases by lia.
      destruct Hcases as [ -> | -> ]; unfold near_one; cbn; auto.
  - apply Z.ltb_ge in E.
    assert (Zpos M * 9007199254740991 <= Zpos M * q) as Hmq
      by (apply Z.mul_le_mono_nonneg_l; lia).
    assert (M = 4503599627370496%positive) as -> by lia.
    cbn [SFmul xorb]. replace (e + (-105 - e + 1)) with (-104) by lia.
    unfold near_one. right. right. left. vm_compute. reflexivity.
Qed.

Lemma reciprocal_product (x : double) :
  normal_in_range (Prim2SF x) ->
  (exists ms es, Prim2SF (1 / x) = S754_finite false ms es)
  /\ near_one (Prim2SF (x * (1 / x))).
Proof.
  intros (M & e & Hx & HM & He).
  destruct (reciprocal_rounded M e HM He) as (q1 & Hq1 & Hmax & Hdiv).
  assert (Prim2SF (1 / x) = rounded false q1 (-105 - e)) as Hs.
  { rewrite div_spec, Hx. exact Hdiv. }
  split.
  - rewrite Hs. unfold rounded. destruct (q1 <? 9007199254740992); eauto.
  - rewrite mul_spec, Hs, Hx. now apply product_near_one.
Qed.

#[local] Close Scope Z_scope.

Lemma write_color_channels pixel_color n :
  write_color pixel_color n
  = match channel (vec3_x pixel_color) n, channel (vec3_y pixel_color) n,
          channel (vec3_z pixel_color) n with
    | Some ir, Some ig, Some ib =>
        Some (print_int ir ++ " " ++ print_int ig ++ " " ++ print_int ib
              ++ newline)%string
    | _, _, _ => None
    end.
Proof. reflexivity. Qed.

Lemma channel_black n :
  (1 <= n <= INT_MAX)%Z -> channel 0 n = Some 0%Z.
Proof.
  intros Hn.
  destruct (reciprocal_product _ (double_of_int_normal n Hn))
    as [(ms & es & Hs) _].
  unfold channel.
  assert (0 * (1 / double_of_int n) = 0) as ->.
  { apply Prim2SF_inj. rewrite mul_spec, Hs. reflexivity. }
  vm_compute. reflexivity.
Qed.

Lemma channel_white n :
  (1 <= n <= INT_MAX)%Z -> channel (double_of_int n) n = Some 255%Z.
Proof.
  intros Hn.
  destruct (reciprocal_product _ (double_of_int_normal n Hn)) as [_ Hy].
  unfold channel.
  rewrite <- (SF2Prim_Prim2SF (double_of_int n * (1 / double_of_int n))).
  destruct Hy as [-> | [-> | [-> | ->]]]; vm_compute; reflexivity.
Qed.

(** C8. For every sample count [n >= 1] that an [int] holds, the
    accumulation (0,0,0) is written as the line "0 0 0", and the
    accumulation (n,n,n), whose average is (1,1,1), as "255 255 255". *)
Theorem write_color_black_and_white n :
  (1 <= n <= INT_MAX)%Z ->
  write_color (mkvec3 0 0 0) n = Some ("0 0 0" ++ newline)%string
  /\ write_color
       (mkvec3 (double_of_int n) (double_of_int n) (double_of_int n)) n
     = Some ("255 255 255" ++ newline)%string.
Proof.
  intros Hn. rewrite !write_color_channels. cbn [vec3_x vec3_y vec3_z e0 e1 e2].
  rewrite channel_black, channel_white by assumption.
  split; reflexivity.
Qed.

Lemma write_color_black_and_white_witness :
  (1 <= 49 <= INT_MAX)%Z
  /\ write_color (mkvec3 0 0 0) 49 = Some ("0 0 0" ++ newline)%string
  /\ write_color (mkvec3 (double_of_int 49) (double_of_int 49) (double_of_int 49))
       49
     = Some ("255 255 255" ++ newline)%string.
Proof.
  assert (1 <= 49 <= INT_MAX)%Z as H by (unfold INT_MAX; lia).
  split; [exact H|]. exact (write_color_black_and_white 49 H).
Defined.

(** The class of a number decides the library's tests. *)
Lemma SFcompare_refl_finite s m e :
  SFcompare (S754_finite s m e) (S754_finite s m e) = Some Eq.
Proof.
  destruct s; cbn; rewrite Z.compare_refl, Pos.compare_cont_refl; reflexivity.
Qed.

Lemma is_nan_SF x :
  is_nan x = match Prim2SF x with S754_nan => true | _ => false end.
Proof.
  unfold is_nan. rewrite eqb_spec. unfold SFeqb.
  destruct (Prim2SF x) as [[|]|[|]| |s m e]; try reflexivity.
  now rewrite SFcompare_refl_finite.
Qed.

Lemma is_finite_SF x :
  is_finite x = match Prim2SF x with
                | S754_zero _ | S754_finite _ _ _ => true
                | _ => false
                end.
Proof.
  unfold is_finite, is_infinity. rewrite is_nan_SF, eqb_spec, abs_spec.
  destruct (Prim2SF x) as [[|]|[|]| |s m e]; reflexivity.
Qed.

Lemma surrounds_finite i x : surrounds i x = true -> is_finite x = true.
Proof.
  intros H. apply surrounds_spec in H. destruct H as [H1 H2].
  rewrite ltb_spec in H1, H2. rewrite is_finite_SF.
  destruct (Prim2SF x) as [[|]|[|]| |s m e]; try reflexivity;
    destruct (Prim2SF (min i)) as [[|]|[|]| |s1 m1 e1];
    destruct (Prim2SF (max i)) as [[|]|[|]| |s2 m2 e2]; discriminate.
Qed.

(* ===================================================================== *)
(** * interval.h *)
(* ===================================================================== *)

Lemma clamp_inside i x :
  (min i <=? max i) = true -> is_nan x = false ->
  contains i (clamp i x) = true.
Proof.
  intros Hi Hx. apply is_nan_rank in Hx. unfold clamp, contains.
  destruct (x <? min i) eqn:E1; [|destruct (max i <? x) eqn:E2];
    apply andb_true_iff; split; float_order.
Qed.

Lemma clamp_nan i x : is_nan x = true -> clamp i x = x.
Proof.
  intros H. unfold clamp.
  assert (rank x = None) as Hr.
  { destruct (rank x) eqn:E; [|reflexivity].
    assert (is_nan x = false) by (apply is_nan_rank; congruence). congruence. }
  assert ((x <? min i) = false) as ->
    by (apply ltb_rank_false; rewrite Hr; cbn; tauto).
  assert ((max i <? x) = false) as ->
    by (apply ltb_rank_false; rewrite Hr; destruct (rank (max i)); cbn; tauto).
  reflexivity.
Qed.

(** X1. [interval::clamp] of a number that is not a NaN, in an interval whose
    [min] is at most its [max], lies in the interval, and clamping it again
    changes nothing. *)
Theorem clamp_lands_in_interval i x :
  (min i <=? max i) = true -> is_nan x = false ->
  contains i (clamp i x) = true /\ clamp i (clamp i x) = clamp i x.
Proof.
  intros Hi Hx. split; [now apply clamp_inside|].
  apply is_nan_rank in Hx. unfold clamp.
  destruct (x <? min i) eqn:E1; [|destruct (max i <? x) eqn:E2].
  - assert ((min i <? min i) = false) as -> by float_order.
    assert ((max i <? min i) = false) as -> by float_order.
    reflexivity.
  - assert ((max i <? min i) = false) as -> by float_order.
    assert ((max i <? max i) = false) as -> by float_order.
    reflexivity.
  - now rewrite E1, E2.
Qed.

(** X2. [interval::clamp] returns its argument unchanged when the interval
    contains it, and also when it is a NaN, which is never clamped; in every
    case the result is the argument or one of the two bounds. *)
Theorem clamp_keeps_members_and_nan i x :
  (contains i x = true -> clamp i x = x)
  /\ (is_nan x = true -> clamp i x = x)
  /\ (clamp i x = x \/ clamp i x = min i \/ clamp i x = max i).
Proof.
  split; [|split; [apply clamp_nan|]].
  - unfold clamp, contains. intros H. apply andb_true_iff in H.
    destruct H as [H1 H2].
    assert ((x <? min i) = false) as -> by float_order.
    assert ((max i <? x) = false) as -> by float_order.
    reflexivity.
  - unfold clamp. destruct (x <? min i); [auto|]. destruct (max i <? x); auto.
Qed.

(** X3. The interval [empty] contains and surrounds no number; [universe]
    contains every number that is not a NaN, the infinities included, and
    surrounds exactly the finite numbers. *)
Theorem empty_and_universe x :
  contains empty x = false
  /\ surrounds empty x = false
  /\ contains universe x = negb (is_nan x)
  /\ surrounds universe x = is_finite x.
Proof.
  unfold contains, surrounds, empty, universe, infinity. cbn [min max].
  rewrite is_nan_SF, is_finite_SF, !leb_spec, !ltb_spec, opp_spec.
  change (Prim2SF PrimFloat.infinity) with (S754_infinity false).
  destruct (Prim2SF x) as [[|]|[|]| |[|] m e]; repeat split; reflexivity.
Qed.

(* ===================================================================== *)
(** * sphere.h *)
(* ===================================================================== *)

Lemma div_finite x y :
  is_finite (x / y) = true ->
  is_finite x = true /\ is_nan y = false /\ (y =? 0) = false.
Proof.
  rewrite !is_finite_SF, is_nan_SF, eqb_spec, div_spec.
  change (Prim2SF 0) with (S754_zero false).
  destruct (Prim2SF x) as [[|]|[|]| |[|] m e];
    destruct (Prim2SF y) as [[|]|[|]| |[|] m' e']; cbn;
    intros H; try discriminate; repeat split.
Qed.

Lemma add_finite x y :
  is_finite (x + y) = true -> is_nan x = false /\ is_nan y = false.
Proof.
  rewrite is_finite_SF, !is_nan_SF, add_spec.
  destruct (Prim2SF x) as [[|]|[|]| |[|] m e];
    destruct (Prim2SF y) as [[|]|[|]| |[|] m' e']; cbn;
    intros H; try discriminate; repeat split.
Qed.

Lemma sub_finite x y :
  is_finite (x - y) = true -> is_nan x = false /\ is_nan y = false.
Proof.
  rewrite is_finite_SF, !is_nan_SF, sub_spec.
  destruct (Prim2SF x) as [[|]|[|]| |[|] m e];
    destruct (Prim2SF y) as [[|]|[|]| |[|] m' e']; cbn;
    intros H; try discriminate; repeat split.
Qed.

Lemma sqrt_not_nan x : is_nan (PrimFloat.sqrt x) = false -> (0 <=? x) = true.
Proof.
  rewrite is_nan_SF, leb_spec, sqrt_spec.
  change (Prim2SF 0) with (S754_zero false).
  destruct (Prim2SF x) as [[|]|[|]| |[|] m e]; cbn;
    intros H; try discriminate; reflexivity.
Qed.

Lemma accepted_root_real center radius r ray_t root :
  accepted_root center radius r ray_t = Some root ->
  (0 <=? quadratic_discriminant center radius r) = true
  /\ is_nan (quadratic_a r) = false
  /\ (quadratic_a r =? 0) = false
  /\ is_finite root = true.
Proof.
  intros E.
  pose proof (accepted_root_inside _ _ _ _ _ E) as Hin.
  apply surrounds_finite in Hin.
  assert (is_finite (smaller_root center radius r) = true
          \/ is_finite (larger_root center radius r) = true) as Hroot.
  { unfold accepted_root in E.
    destruct (quadratic_discriminant center radius r <? 0); [discriminate|].
    destruct (surrounds ray_t (smaller_root center radius r));
      [injection E as <-; now left|].
    destruct (surrounds ray_t (larger_root center radius r));
      [injection E as <-; now right | discriminate]. }
  assert (is_nan (PrimFloat.sqrt (quadratic_discriminant center radius r)) = false
          /\ is_nan (quadratic_a r) = false /\ (quadratic_a r =? 0) = false)
    as (Hs & Ha & Hz).
  { destruct Hroot as [H|H]; apply div_finite in H; destruct H as (H & Ha & Hz).
    - apply sub_finite in H. tauto.
    - apply add_finite in H. tauto. }
  repeat split; auto. now apply sqrt_not_nan.
Qed.

(** X4. [sphere::hit] reports a hit only when the discriminant is a number
    that is not negative and the squared length of the direction is a number
    other than zero; the recorded [t] is then finite. *)
Theorem sphere_hit_needs_real_roots center radius m r ray_t rec rec' :
  sphere_hit center radius m r ray_t rec = (true, rec') ->
  (0 <=? quadratic_discriminant center radius r) = true
  /\ is_nan (quadratic_a r) = false
  /\ (quadratic_a r =? 0) = false
  /\ is_finite rec'.(t) = true.
Proof.
  rewrite sphere_hit_eq.
  destruct (accepted_root center radius r ray_t) as [root|] eqn:E; [|discriminate].
  unfold sphere_record. intros [= <-]. cbn [t set_mat set_face_normal set_p set_t].
  eapply accepted_root_real; eauto.
Qed.

(* ===================================================================== *)
(** * hittable_list.h: how scenes compose *)
(* ===================================================================== *)

Lemma interval_eta i : mkinterval (min i) (max i) = i.
Proof. now destruct i. Qed.

Section Pace.

Context {A : Type}.
Variable hit_obj : A -> interval -> hit_record -> bool * hit_record.

(** The loop reads only the lower bound of the query interval once it has
    started. *)
Lemma hit_members_min rt1 rt2 objs st :
  min rt1 = min rt2 ->
  hit_members hit_obj rt1 objs st = hit_members hit_obj rt2 objs st.
Proof.
  intros Hmin. revert st. induction objs as [|o objs IH]; intros st; cbn; auto.
  rewrite IH. f_equal. unfold hit_step. now rewrite Hmin.
Qed.

Lemma keep_pace_step ray_t o a1 a2 st1 st2 :
  frame_ok hit_obj o -> keep_pace a1 a2 st1 st2 ->
  keep_pace a1 a2 (hit_step hit_obj ray_t o st1) (hit_step hit_obj ray_t o st2).
Proof.
  intros Hf (Hc & Hcase).
  pose proof (frame_fst hit_obj o (mkinterval (min ray_t) (closest_so_far st1))
                (tmp st1) (tmp st2) Hf) as Hfst.
  destruct (hit_step_cases hit_obj ray_t o st1) as [(tm & E1 & ->) | (tm & E1 & ->)];
    destruct (hit_step_cases hit_obj ray_t o st2) as [(tm2 & E2 & ->) | (tm2 & E2 & ->)];
    rewrite <- Hc in E2; rewrite E1, E2 in Hfst; cbn in Hfst; try discriminate.
  - apply (proj1 (Hf _ (tmp st1) (tmp st2))) in E1.
    assert (tm2 = tm) as -> by congruence.
    split; cbn; auto.
  - split; cbn; auto.
Qed.

Lemma keep_pace_members ray_t objs a1 a2 st1 st2 :
  Forall (frame_ok hit_obj) objs -> keep_pace a1 a2 st1 st2 ->
  keep_pace a1 a2 (hit_members hit_obj ray_t objs st1)
    (hit_members hit_obj ray_t objs st2).
Proof.
  intros Hall. revert st1 st2.
  induction Hall as [|o objs Ho Hall IH]; intros st1 st2 Hk; cbn; [assumption|].
  apply IH. now apply keep_pace_step.
Qed.

(** The scratch record does not influence the loop. *)
Lemma same_outcome_members ray_t objs st1 st2 :
  Forall (frame_ok hit_obj) objs -> same_outcome st1 st2 ->
  same_outcome (hit_members hit_obj ray_t objs st1)
    (hit_members hit_obj ray_t objs st2).
Proof.
  intros Hall (Hh & Hc & Ho).
  destruct (keep_pace_members ray_t objs st1 st2 st1 st2 Hall) as (Hc' & Hcase).
  { split; auto. }
  destruct Hcase as [(H1 & H2 & H3 & H4) | (H1 & H2 & H3)]; repeat split;
    congruence.
Qed.

Lemma same_outcome_refl st : same_outcome st st.
Proof. repeat split. Qed.

Lemma same_outcome_sym st1 st2 : same_outcome st1 st2 -> same_outcome st2 st1.
Proof. intros (H1 & H2 & H3). repeat split; congruence. Qed.

Lemma same_outcome_trans st1 st2 st3 :
  same_outcome st1 st2 -> same_outcome st2 st3 -> same_outcome st1 st3.
Proof. intros (H1 & H2 & H3) (H4 & H5 & H6). repeat split; congruence. Qed.

Lemma hit_members_ext (hit_obj' : A -> interval -> hit_record -> bool * hit_record)
    ray_t objs st :
  Forall (fun o => forall i rec, hit_obj o i rec = hit_obj' o i rec) objs ->
  hit_members hit_obj ray_t objs st = hit_members hit_obj' ray_t objs st.
Proof.
  intros Hall. revert st.
  induction Hall as [|o objs Ho Hall IH]; intros st; cbn; [reflexivity|].
  rewrite IH. f_equal. unfold hit_step. now rewrite Ho.
Qed.

(** A member that is hit on the whole query interval makes the loop report
    a hit. *)
Lemma member_hit_found ray_t objs st o rec0 :
  Forall (frame_ok hit_obj) objs ->
  settled ray_t st -> In o objs -> fst (hit_obj o ray_t rec0) = true ->
  (hit_members hit_obj ray_t objs st).(hit_anything) = true.
Proof.
  intros Hall. revert st.
  induction Hall as [|o' objs Ho Hall IH]; intros st Hs Hin Hhit; [contradiction|].
  cbn. destruct (hit_anything st) eqn:Eh.
  { apply hit_anything_members. now apply hit_anything_step. }
  destruct Hin as [-> | Hin].
  - apply hit_anything_members.
    unfold settled in Hs. rewrite Eh in Hs.
    unfold hit_step. rewrite Hs, interval_eta.
    rewrite (frame_fst hit_obj o ray_t rec0 (tmp st) Ho) in Hhit.
    destruct (hit_obj o ray_t (tmp st)) as [[|] tm]; [reflexivity | discriminate].
  - destruct (hit_step_cases hit_obj ray_t o' st) as [(tm & E & Hst) | (tm & E & Hst)].
    + apply hit_anything_members. now rewrite Hst.
    + apply IH; auto. rewrite Hst. unfold settled in *. cbn. now rewrite Eh in *.
Qed.

End Pace.

Section Scenes.

Variable indeterminate_t : double.
Variable indeterminate_frontfacing : bool.
Variable r : ray.

#[local] Abbreviation hit_r := (hit indeterminate_t indeterminate_frontfacing r).

#[local] Abbreviation start ray_t rec :=
  (mkhit_loop (hit_record_default indeterminate_t indeterminate_frontfacing)
     false (max ray_t) rec).

Lemma all_frame_ok objs : Forall (frame_ok hit_r) objs.
Proof. apply Forall_forall. intros o _. apply hit_well_behaved. Qed.

Lemma all_inside_ok objs : Forall (inside_ok hit_r) objs.
Proof. apply Forall_forall. intros o _. apply hit_well_behaved. Qed.

(** X7. [hittable_list::hit] returns true exactly when the [hit] of some
    member returns true on the whole query interval. *)
Theorem hittable_list_hit_iff_member_hit objs ray_t rec :
  fst (hit indeterminate_t indeterminate_frontfacing r
         (hittable_list objs) ray_t rec) = true
  <-> exists o,
        In o objs
        /\ fst (hit indeterminate_t indeterminate_frontfacing r o ray_t rec) = true.
Proof.
  split.
  - destruct (hit_r (hittable_list objs) ray_t rec) as [[|] rec'] eqn:E;
      [intros _ | discriminate].
    destruct (list_hit_producer _ _ _ _ _ _ _ E) as (o & c & tm & Hin & Hc & Ho & _).
    exists o. split; [assumption|].
    pose proof (hit_well_behaved indeterminate_t indeterminate_frontfacing r o)
      as (Hf & _ & _ & Hw).
    rewrite <- (interval_eta ray_t).
    rewrite (frame_fst hit_r o _ rec tm Hf).
    apply (Hw _ _ _ _ Hc). now rewrite Ho.
  - intros (o & Hin & Ho). rewrite hit_list_eq. cbn [fst].
    eapply member_hit_found; eauto using all_frame_ok.
    reflexivity.
Qed.

Lemma singleton_list_hit o ray_t rec :
  hit_r (hittable_list [o]) ray_t rec = hit_r o ray_t rec.
Proof.
  rewrite hit_list_eq. cbn [hit_members]. unfold hit_step. cbn [closest_so_far tmp].
  rewrite interval_eta.
  pose proof (hit_well_behaved indeterminate_t indeterminate_frontfacing r o)
    as (Hf & _).
  destruct (hit_r o ray_t
              (hit_record_default indeterminate_t indeterminate_frontfacing))
    as [[|] tm] eqn:E; cbn.
  - symmetry. exact (proj1 (Hf ray_t _ rec) _ E).
  - destruct (hit_r o ray_t rec) as [[|] rm] eqn:E2.
    + apply (proj1 (Hf ray_t rec
                      (hit_record_default indeterminate_t indeterminate_frontfacing)))
        in E2. congruence.
    + apply (proj2 (Hf ray_t rec rec)) in E2. now subst.
Qed.

(** X8. The list built by the constructor [hittable_list(obj)] is hit
    exactly as [obj] is: same return value and same record. *)
Theorem hittable_list_of_one_member o ray_t rec :
  hit_r (hittable_list_of o) ray_t rec = hit_r o ray_t rec.
Proof. apply singleton_list_hit. Qed.

(** The step of the loop for a nested list does what the loop would do on
    the members of that list. *)
Lemma nested_list_step objs ray_t st :
  same_outcome (hit_step hit_r ray_t (hittable_list objs) st)
    (hit_members hit_r ray_t objs st).
Proof.
  unfold hit_step. rewrite hit_list_eq.
  set (inner := mkinterval (min ray_t) (closest_so_far st)).
  rewrite (hit_members_min hit_r inner ray_t) by reflexivity.
  set (a1 := start inner (tmp st)).
  pose proof (keep_pace_members hit_r ray_t objs a1 st a1 st (all_frame_ok objs))
    as Hk.
  destruct Hk as (Hc & Hcase); [split; [reflexivity | left; auto]|].
  pose proof (settled_members hit_r inner objs a1 (all_inside_ok objs)
                (start_settled _ _ inner (tmp st))) as Hs.
  rewrite (hit_members_min hit_r inner ray_t) in Hs by reflexivity.
  unfold settled in Hs.
  destruct (hit_anything (hit_members hit_r ray_t objs a1)) eqn:Eh.
  - destruct Hcase as [(H1 & _) | (_ & H2 & H3)]; [discriminate|].
    destruct Hs as [Ht _]. repeat split; cbn.
    + now rewrite H2.
    + now rewrite Ht.
    + exact H3.
  - destruct Hcase as [(_ & _ & H3 & H4) | (H1 & _)]; [|discriminate].
    destruct (miss_members hit_r ray_t objs a1 Eh) as (_ & Hc1 & _).
    repeat split; cbn.
    + now rewrite H3.
    + rewrite <- Hc, Hc1. reflexivity.
    + now rewrite H4.
Qed.

Lemma flatten_members objs ray_t :
  Forall (fun o => forall st,
            same_outcome (hit_members hit_r ray_t (spheres_of o) st)
              (hit_step hit_r ray_t o st)) objs ->
  forall st,
    same_outcome (hit_members hit_r ray_t (flat_map spheres_of objs) st)
      (hit_members hit_r ray_t objs st).
Proof.
  induction 1 as [|o objs Ho Hall IH]; intros st; cbn [flat_map hit_members].
  - apply same_outcome_refl.
  - rewrite hit_members_app.
    eapply same_outcome_trans; [apply IH|].
    apply same_outcome_members; [apply all_frame_ok | apply Ho].
Qed.

Lemma flatten_step obj ray_t st :
  same_outcome (hit_members hit_r ray_t (spheres_of obj) st)
    (hit_step hit_r ray_t obj st).
Proof.
  revert ray_t st.
  induction obj as [center radius m | objs IH] using hittableObject_members_ind;
    intros ray_t st.
  - apply same_outcome_refl.
  - cbn [spheres_of].
    eapply same_outcome_trans.
    + apply flatten_members. eapply Forall_impl; [|exact IH].
      intros o Ho st'. apply Ho.
    + apply same_outcome_sym, nested_list_step.
Qed.

(** X9. Nesting does not matter: a scene is hit exactly as the flat list of
    its spheres, taken in the order of the traversal. *)
Theorem hit_of_flattened_scene obj ray_t rec :
  hit_r obj ray_t rec = hit_r (hittable_list (spheres_of obj)) ray_t rec.
Proof.
  destruct obj as [center radius m | objs].
  - symmetry. apply singleton_list_hit.
  - rewrite !hit_list_eq. cbn [spheres_of].
    destruct (flatten_members objs ray_t) with (st := start ray_t rec)
      as (Hh & _ & Ho).
    { apply Forall_forall. intros o _ st. apply flatten_step. }
    now rewrite Hh, Ho.
Qed.

(** X6. For a scene of any nesting, a hit reported by [hit] records a [t]
    strictly inside the query interval, so finite, the point [r.at(t)], and
    the material of a sphere of the scene. *)
Theorem hit_records_point_of_scene_sphere obj ray_t rec rec' :
  hit_r obj ray_t rec = (true, rec') ->
  surrounds ray_t rec'.(t) = true
  /\ is_finite rec'.(t) = true
  /\ rec'.(p) = ray_at r rec'.(t)
  /\ exists center radius m,
       In (sphere center radius m) (spheres_of obj)
       /\ rec'.(mat) = Some m.
Proof.
  intros H.
  pose proof (proj1 (proj2 (hit_well_behaved _ _ r obj)) _ _ _ H) as Hin.
  split; [exact Hin|]. split; [eapply surrounds_finite; eauto|].
  destruct (hit_made_by_scene_sphere _ _ _ _ _ _ _ H)
    as (center & radius & m & c & Hs & _ & Hrec).
  rewrite sphere_hit_eq in Hrec.
  destruct (accepted_root center radius r _) as [root|]; [|discriminate].
  unfold sphere_record in Hrec. injection Hrec as <-.
  split; [reflexivity|].
  exists center, radius, m. split; [assumption | reflexivity].
Qed.

(** X5. A ray whose direction has a squared length of zero (the zero vector,
    or a vector so short that the squares underflow) hits no object of any
    scene, and the caller's record is left as it was. *)
Theorem degenerate_ray_hits_nothing obj ray_t rec :
  (length_squared (direction r) =? 0) = true ->
  hit_r obj ray_t rec = (false, rec).
Proof.
  intros Hz.
  destruct (hit_r obj ray_t rec) as [[|] rec'] eqn:E.
  - destruct (hit_made_by_scene_sphere _ _ _ _ _ _ _ E)
      as (center & radius & m & c & _ & _ & Hs).
    rewrite sphere_hit_eq in Hs.
    destruct (accepted_root center radius r _) as [root|] eqn:Er; [|discriminate].
    destruct (accepted_root_real _ _ _ _ _ Er) as (_ & _ & Ha & _).
    unfold quadratic_a in Ha. congruence.
  - f_equal.
    pose proof (hit_well_behaved indeterminate_t indeterminate_frontfacing r obj)
      as (Hf & _).
    now apply (proj2 (Hf ray_t rec rec)).
Qed.

End Scenes.

(** The members [t] and [frontfacing] of the scratch record, which
    [hittable_list::hit] leaves uninitialized, do not influence a result. *)
Lemma hit_ignores_uninitialized_members t1 f1 t2 f2 r obj ray_t rec :
  hit t1 f1 r obj ray_t rec = hit t2 f2 r obj ray_t rec.
Proof.
  revert ray_t rec.
  induction obj as [center radius m | objs IH] using hittableObject_members_ind;
    intros ray_t rec; [reflexivity|].
  rewrite !hit_list_eq.
  rewrite (hit_members_ext (hit t1 f1 r) (hit t2 f2 r)) by exact IH.
  destruct (same_outcome_members (hit t2 f2 r) ray_t objs
              (mkhit_loop (hit_record_default t1 f1) false (max ray_t) rec)
              (mkhit_loop (hit_record_default t2 f2) false (max ray_t) rec))
    as (Hh & _ & Ho).
  { apply all_frame_ok. }
  { repeat split. }
  now rewrite Hh, Ho.
Qed.

(* ===================================================================== *)
(** * camera::ray_color, further *)
(* ===================================================================== *)

Section RayColorMore.

Variable draws : nat -> double.
Variable pow : double -> double -> double.
Variable budget : nat.

(** X11. The members [t] and [frontfacing] that [hittable_list::hit] and
    [ray_color] leave uninitialized in their local [hit_record] influence
    neither the result of [hit] nor the color returned by [ray_color]. *)
Theorem uninitialized_members_are_never_read t1 f1 t2 f2 :
  (forall r obj ray_t rec,
     hit t1 f1 r obj ray_t rec = hit t2 f2 r obj ray_t rec)
  /\ (forall r depth world k,
        ray_color draws pow budget t1 f1 r depth world k
        = ray_color draws pow budget t2 f2 r depth world k).
Proof.
  split; [intros; apply hit_ignores_uninitialized_members|].
  intros r depth world.
  assert (forall n depth, (depth <= Z.of_nat n)%Z ->
          forall r k,
            ray_color draws pow budget t1 f1 r depth world k
            = ray_color draws pow budget t2 f2 r depth world k) as Hall.
  { clear r depth.
    induction n as [|n IH]; intros depth Hd r k.
    - now rewrite !ray_color_exhausted by lia.
    - destruct (Z_le_gt_dec depth 0) as [Hle|Hgt].
      + now rewrite !ray_color_exhausted by lia.
      + rewrite !ray_color_body by assumption.
        rewrite (hit_ignores_uninitialized_members t1 f1 t2 f2).
        pose proof (hit_well_behaved t2 f2 r world) as (Hf & _).
        specialize (Hf (mkinterval 0.001 infinity) (hit_record_default t1 f1)
                      (hit_record_default t2 f2)).
        pose proof (frame_fst (hit t2 f2 r) world (mkinterval 0.001 infinity)
                      (hit_record_default t1 f1) (hit_record_default t2 f2)
                      (proj1 (hit_well_behaved t2 f2 r world))) as Hfst.
        destruct (hit t2 f2 r world _ (hit_record_default t1 f1))
          as [[|] rec1] eqn:E1.
        * rewrite (proj1 Hf _ eq_refl).
          destruct (mat rec1) as [m|]; [|reflexivity].
          destruct (scatter draws pow budget m r rec1 _ k) as [[out k1]| |];
            cbn; try reflexivity.
          destruct (scatters out); [|reflexivity].
          now rewrite (IH (depth - 1)%Z ltac:(lia)).
        * destruct (hit t2 f2 r world _ (hit_record_default t2 f2))
            as [[|] rec2]; [discriminate | reflexivity]. }
  intros k. apply (Hall (Z.to_nat depth)). lia.
Qed.

Lemma dielectric_scatter_draws ir r rec out k :
  exists direction' k',
    dielectric_scatter draws pow ir r rec out k
    = Ok (mkscatter_out true (mkvec3 1 1 1) (mkray rec.(p) direction'), k')
    /\ (k <= k' <= S k)%nat.
Proof.
  unfold dielectric_scatter. cbv zeta.
  destruct (1 <? _).
  - do 2 eexists. split; [reflexivity | lia].
  - unfold random_double. cbv iota beta.
    do 2 eexists. split; [reflexivity | lia].
Qed.

(** X12. In a scene whose spheres are all dielectric, [ray_color] returns a
    color for every generator, ray and depth, after at most one draw for each
    bounce that [depth] allows. *)
Theorem ray_color_returns_in_a_scene_of_glass it ff world :
  (forall center radius m,
     In (sphere center radius m) (spheres_of world) -> exists ir, m = dielectric ir) ->
  forall r depth k,
  exists c k',
    ray_color draws pow budget it ff r depth world k = Ok (c, k')
    /\ (k <= k' <= k + Z.to_nat depth)%nat.
Proof.
  intros Hglass.
  assert (forall n depth, (depth <= Z.of_nat n)%Z ->
          forall r k, exists c k',
            ray_color draws pow budget it ff r depth world k = Ok (c, k')
            /\ (k <= k' <= k + Z.to_nat depth)%nat) as Hall.
  { induction n as [|n IH]; intros depth Hd r k.
    - rewrite ray_color_exhausted by lia. do 2 eexists. split; [reflexivity | lia].
    - destruct (Z_le_gt_dec depth 0) as [Hle|Hgt].
      + rewrite ray_color_exhausted by lia.
        do 2 eexists. split; [reflexivity | lia].
      + rewrite ray_color_body by assumption.
        destruct (hit it ff r world _ _) as [[|] rec] eqn:Ehit.
        2:{ do 2 eexists. split; [reflexivity | lia]. }
        destruct (hit_made_by_scene_sphere _ _ _ _ _ _ _ Ehit)
          as (center & radius & m & bound & Hin & _ & Hs).
        rewrite sphere_hit_eq in Hs.
        destruct (accepted_root center radius r _) as [root|]; [|discriminate].
        assert (mat rec = Some m) as ->
          by (unfold sphere_record in Hs; injection Hs as <-; reflexivity).
        destruct (Hglass _ _ _ Hin) as [ir ->]. cbn [scatter].
        destruct (dielectric_scatter_draws ir r rec
                    (mkscatter_out false vec3_zero ray_default) k)
          as (d & k1 & -> & Hk1).
        cbn.
        destruct (IH (depth - 1)%Z ltac:(lia) (mkray (p rec) d) k1)
          as (c & k2 & -> & Hk2).
        cbn. do 2 eexists. split; [reflexivity | lia]. }
  intros r depth k. apply (Hall (Z.to_nat depth)). lia.
Qed.

End RayColorMore.

(* ===================================================================== *)
(** * material.h, further *)
(* ===================================================================== *)

Lemma make_metal_fuzz a f :
  exists g,
    make_metal a f = metal a g
    /\ (g <=? 1) = true
    /\ ((f <? 1) = true -> g = f).
Proof.
  unfold make_metal. destruct (f <? 1) eqn:E.
  - exists f. repeat split. float_order.
  - exists 1. repeat split. discriminate.
Qed.

(** X13. The constructor of [metal] stores a fuzz that is at most 1 for
    every argument: the argument itself when it is below 1, and 1 otherwise,
    a NaN included. *)
Theorem make_metal_clamps_fuzz a f :
  exists g,
    make_metal a f = metal a g
    /\ (g <=? 1) = true
    /\ ((f <? 1) = true -> g = f)
    /\ ((f <? 1) = false -> g = 1).
Proof.
  unfold make_metal. destruct (f <? 1) eqn:E.
  - exists f. repeat split; [float_order | discriminate].
  - exists 1. repeat split. discriminate.
Qed.

Section ScatterMore.

Variable draws : nat -> double.
Variable pow : double -> double -> double.
Variable budget : nat.

Lemma Ok_pair_inj {A B : Type} (x x' : A) (y y' : B) :
  Ok (x, y) = Ok (x', y') -> x = x' /\ y = y'.
Proof. intros H. split; congruence. Qed.

(** X14. Whenever [scatter] returns true, for any of the three materials,
    the scattered ray starts at the hit point, and the attenuation is the
    albedo of a lambertian or metal surface, exactly, and white for a
    dielectric. *)
Theorem scatter_true_starts_at_hit_point m r rec out k out' k' :
  scatter draws pow budget m r rec out k = Ok (out', k') ->
  out'.(scatters) = true ->
  origin out'.(scattered) = rec.(p)
  /\ out'.(attenuation) = match m with
                          | lambertian albedo => albedo
                          | metal albedo _ => albedo
                          | dielectric _ => mkvec3 1 1 1
                          end.
Proof.
  destruct m as [albedo | albedo fuzz | ir]; cbn [scatter].
  - unfold lambertian_scatter, random_double.
    destruct (draws k <? 1).
    + destruct (random_unit_vector draws budget (S k)) as [[u k1]| |];
        cbn [bind]; try discriminate.
      intros H _. apply Ok_pair_inj in H. destruct H as [<- _].
      cbn [scattered attenuation origin orig]. now rewrite vdiv_1.
    + intros H. apply Ok_pair_inj in H. destruct H as [<- _]. discriminate.
  - unfold metal_scatter, random_double.
    destruct (draws k <? 1).
    + destruct (random_unit_vector draws budget (S k)) as [[u k1]| |];
        cbn [bind]; try discriminate.
      intros H _. apply Ok_pair_inj in H. destruct H as [<- _].
      cbn [scattered attenuation origin orig]. now rewrite vdiv_1.
    + intros H. apply Ok_pair_inj in H. destruct H as [<- _]. discriminate.
  - destruct (dielectric_scatter_returns draws pow ir r rec out k) as (d & k1 & ->).
    intros H _. apply Ok_pair_inj in H. destruct H as [<- _].
    split; reflexivity.
Qed.

(** X15. When [lambertian::scatter] returns, it returns true exactly when its
    first draw is below 1. A false return leaves both out-parameters as they were after one
    draw; a true return stores the albedo and a ray from the hit point along
    [normal + random_unit_vector()], or along the normal when [near_zero]
    holds of that sum. *)
Theorem lambertian_scatter_absorbs_only_without_draw albedo r rec out k out' k' :
  lambertian_scatter draws budget albedo r rec out k = Ok (out', k') ->
  out'.(scatters) = (draws k <? 1)
  /\ (out'.(scatters) = false ->
      out'.(attenuation) = out.(attenuation)
      /\ out'.(scattered) = out.(scattered) /\ k' = S k)
  /\ (out'.(scatters) = true ->
      exists u,
        random_unit_vector draws budget (S k) = Ok (u, k')
        /\ out'.(attenuation) = albedo
        /\ out'.(scattered)
           = mkray rec.(p)
               (if near_zero (vadd rec.(normal) u) then rec.(normal)
                else vadd rec.(normal) u)).
Proof.
  unfold lambertian_scatter, random_double.
  destruct (draws k <? 1).
  - destruct (random_unit_vector draws budget (S k)) as [[u k1]| |];
      cbn [bind]; try discriminate.
    intros H. apply Ok_pair_inj in H. destruct H as [<- <-].
    cbn [scatters attenuation scattered].
    split; [reflexivity|]. split; [discriminate|].
    intros _. exists u. now rewrite vdiv_1.
  - intros H. apply Ok_pair_inj in H. destruct H as [<- <-].
    cbn [scatters attenuation scattered].
    split; [reflexivity|]. split; [auto | discriminate].
Qed.

End ScatterMore.

(* ===================================================================== *)
(** * vec3.h: the samplers *)
(* ===================================================================== *)

Section SamplingMore.

Variable draws : nat -> double.
Variable budget : nat.

Lemma vec3_random_count lo hi k :
  snd (vec3_random draws lo hi k) = (k + 3)%nat.
Proof. unfold vec3_random, random_double_range, random_double. cbn. lia. Qed.

Lemma random_in_unit_sphere_loop_first fuel k q k' :
  random_in_unit_sphere_loop draws fuel k = Ok (q, k') ->
  exists j,
    (j < fuel)%nat
    /\ k' = (k + 3 * (j + 1))%nat
    /\ q = fst (vec3_random draws (-1) 1 (k + 3 * j))
    /\ (length_squared q <? 1) = true
    /\ forall i, (i < j)%nat ->
         (length_squared (fst (vec3_random draws (-1) 1 (k + 3 * i))) <? 1) = false.
Proof.
  revert k. induction fuel as [|fuel IH]; intros k; cbn [random_in_unit_sphere_loop];
    [discriminate|].
  pose proof (vec3_random_count (-1) 1 k) as Hk.
  destruct (vec3_random draws (-1) 1 k) as [q0 k0] eqn:E. cbn in Hk. subst k0.
  destruct (length_squared q0 <? 1) eqn:El.
  - intros [= <- <-]. exists 0%nat.
    replace (k + 3 * 0)%nat with k by lia. rewrite E.
    repeat split; auto; try lia.
  - intros H. destruct (IH _ H) as (j & Hj & -> & -> & Hl & Hrej).
    exists (S j).
    replace (k + 3 * S j)%nat with (k + 3 + 3 * j)%nat by lia.
    repeat split; auto; try lia.
    intros [|i] Hi.
    + replace (k + 3 * 0)%nat with k by lia. now rewrite E.
    + replace (k + 3 * S i)%nat with (k + 3 + 3 * i)%nat by lia.
      apply Hrej. lia.
Qed.

(** X16. When [random_in_unit_sphere] returns, it returns the first proposed
    point whose squared length is below 1, every earlier one having been
    rejected, and it has made three draws for each proposal. *)
Theorem random_in_unit_sphere_takes_first_inside k q k' :
  random_in_unit_sphere draws budget k = Ok (q, k') ->
  exists j,
    (j < budget)%nat
    /\ k' = (k + 3 * (j + 1))%nat
    /\ q = fst (vec3_random draws (-1) 1 (k + 3 * j))
    /\ (length_squared q <? 1) = true
    /\ forall i, (i < j)%nat ->
         (length_squared (fst (vec3_random draws (-1) 1 (k + 3 * i))) <? 1) = false.
Proof. apply random_in_unit_sphere_loop_first. Qed.

Lemma random_in_unit_disk_loop_inside fuel k q k' :
  random_in_unit_disk_loop draws fuel k = Ok (q, k') ->
  exists j,
    (j < fuel)%nat
    /\ k' = (k + 2 * (j + 1))%nat
    /\ q = mkvec3 (-1 + (1 - -1) * draws (k + 2 * j))
             (-1 + (1 - -1) * draws (k + 2 * j + 1)) 0
    /\ (length_squared q <? 1) = true.
Proof.
  revert k. induction fuel as [|fuel IH]; intros k; cbn [random_in_unit_disk_loop];
    [discriminate|].
  unfold random_double_range, random_double. cbv zeta.
  match goal with
  | |- (if ?c then _ else _) = _ -> _ => destruct c eqn:El
  end.
  - intros [= <- <-]. exists 0%nat.
    replace (k + 2 * 0)%nat with k by lia. replace (k + 1)%nat with (S k) by lia.
    repeat split; auto; lia.
  - intros H. destruct (IH _ H) as (j & Hj & -> & -> & Hl).
    exists (S j).
    replace (k + 2 * S j)%nat with (S (S k) + 2 * j)%nat by lia.
    repeat split; auto; lia.
Qed.

(** X17. When [random_in_unit_disk] returns, the point has a third
    component of zero and a squared length below 1, and two draws were made
    for each proposal. *)
Theorem random_in_unit_disk_stays_in_the_plane k q k' :
  random_in_unit_disk draws budget k = Ok (q, k') ->
  exists j,
    (j < budget)%nat
    /\ k' = (k + 2 * (j + 1))%nat
    /\ q = mkvec3 (-1 + (1 - -1) * draws (k + 2 * j))
             (-1 + (1 - -1) * draws (k + 2 * j + 1)) 0
    /\ (length_squared q <? 1) = true.
Proof. apply random_in_unit_disk_loop_inside. Qed.

(** X18. The vector returned by [random_on_hemishpere] is the random unit
    vector or its opposite, and its dot product with the normal is never
    negative: it is at least zero whenever it is a number. *)
Theorem random_on_hemishpere_not_against_normal normal k v k' :
  random_on_hemishpere draws budget normal k = Ok (v, k') ->
  (dot normal v <? 0) = false
  /\ (is_nan (dot normal v) = false -> (0 <=? dot normal v) = true)
  /\ exists ran,
       random_unit_vector draws budget k = Ok (ran, k')
       /\ (v = ran \/ v = vneg ran).
Proof.
  unfold random_on_hemishpere.
  destruct (random_unit_vector draws budget k) as [[ran k1]| |]; cbn [bind];
    try discriminate.
  destruct (0 <? dot normal ran) eqn:E; intros [= <- <-].
  - split; [float_order|]. split; [intros _; float_order | eauto].
  - split; [|split; [|eauto]].
    + apply ltb_rank_false. apply ltb_rank_false in E.
      rewrite rank_dot_vneg. rewrite rank_zero in *.
      destruct (rank (dot normal ran)) as [[[a b] c]|]; cbn in *; lia.
    + intros Hn. apply is_nan_rank in Hn. apply leb_rank.
      apply ltb_rank_false in E. rewrite rank_dot_vneg in *.
      rewrite rank_zero in *.
      destruct (rank (dot normal ran)) as [[[a b] c]|]; cbn in *;
        [lia | contradiction].
Qed.

End SamplingMore.

(* ===================================================================== *)
(** * write_color: every channel is a byte *)
(* ===================================================================== *)

#[local] Open Scope Z_scope.

Lemma Zdigits2_bounds m : 0 < m -> 2 ^ (Zdigits2 m - 1) <= m < 2 ^ Zdigits2 m.
Proof. destruct m as [|q|q]; try lia. intros _. apply digits2_pos_bounds. Qed.

Lemma Zdigits2_le m d : 0 <= m < 2 ^ d -> 0 <= d -> Zdigits2 m <= d.
Proof.
  intros [H0 Hm] Hd. destruct m as [|q|q]; try lia; [cbn; lia|].
  pose proof (digits2_pos_bounds q) as [Hlo _]. cbn [Zdigits2].
  destruct (Z_le_gt_dec (Zpos (digits2_pos q)) d) as [?|Hgt]; [assumption|].
  assert (2 ^ d <= 2 ^ (Zpos (digits2_pos q) - 1)) by (apply Z.pow_le_mono_r; lia).
  lia.
Qed.

Lemma fexp_eq z : fexp prec emax z = Z.max (z - 53) (-1074).
Proof. reflexivity. Qed.

(** The first half of a rounding: the exponent is raised to the one the
    format allows, and the mantissa is shifted accordingly. *)
Lemma shr_fexp_spec m e l mrs e1 :
  0 <= m ->
  shr_fexp prec emax m e l = (mrs, e1) ->
  e1 = Z.max e (fexp prec emax (Zdigits2 m + e))
  /\ shr_m mrs = m / 2 ^ (e1 - e).
Proof.
  intros Hm. unfold shr_fexp, shr.
  destruct (fexp prec emax (Zdigits2 m + e) - e) as [|n|n] eqn:En;
    intros [= <- <-].
  - split; [lia|]. rewrite Z.sub_diag, shr_record_of_loc_m. cbn. now rewrite Z.div_1_r.
  - split; [lia|]. rewrite iter_shr_m by (rewrite shr_record_of_loc_m; lia).
    rewrite shr_record_of_loc_m. f_equal. f_equal. lia.
  - split; [lia|]. rewrite Z.sub_diag, shr_record_of_loc_m. cbn. now rewrite Z.div_1_r.
Qed.

(** The exponent of a rounded number is at most one above the exponent the
    format allows to the number that is rounded. *)
Lemma binary_round_aux_exponent s m e :
  0 < m ->
  exists e2,
    e2 <= Z.max e (fexp prec emax (Zdigits2 m + e)) + 1
    /\ (binary_round_aux prec emax s m e loc_Exact = S754_zero s
        \/ (exists q, binary_round_aux prec emax s m e loc_Exact = S754_finite s q e2)
        \/ (binary_round_aux prec emax s m e loc_Exact = S754_infinity s
            /\ 971 < e2)).
Proof.
  intros Hm. rewrite binary_round_aux_tail.
  destruct (shr_fexp prec emax m e loc_Exact) as [mrs e1] eqn:E1.
  destruct (shr_fexp_spec m e loc_Exact mrs e1 ltac:(lia) E1) as [He1 Hp1].
  pose proof (round_nearest_even_bounds (shr_m mrs) (loc_of_shr_record mrs)) as Hr.
  set (m1 := round_nearest_even (shr_m mrs) (loc_of_shr_record mrs)) in *.
  assert (0 <= e1 - e) as Hsh by lia.
  assert (0 < 2 ^ (e1 - e)) as Hpow by (apply Z.pow_pos_nonneg; lia).
  assert (0 <= shr_m mrs < 9007199254740992) as Hp.
  { rewrite Hp1. split; [apply Z.div_pos; lia|].
    apply Z.div_lt_upper_bound; [lia|].
    pose proof (Zdigits2_bounds m Hm) as [_ Hd].
    assert (Zdigits2 m <= 53 + (e1 - e)) as HD by (rewrite fexp_eq in He1; lia).
    assert (2 ^ Zdigits2 m <= 2 ^ (53 + (e1 - e))) as Hle
      by (apply Z.pow_le_mono_r; lia).
    rewrite Z.pow_add_r in Hle by lia.
    change (2 ^ 53) with 9007199254740992 in Hle. lia. }
  assert (Zdigits2 m1 <= 54) as Hd1.
  { apply Zdigits2_le; [|lia]. change (2 ^ 54) with 18014398509481984. lia. }
  unfold round_tail.
  destruct (shr_fexp prec emax m1 e1 loc_Exact) as [mrs2 e2] eqn:E2.
  destruct (shr_fexp_spec m1 e1 loc_Exact mrs2 e2 ltac:(lia) E2) as [He2 Hp2].
  assert (0 <= shr_m mrs2) as Hq.
  { rewrite Hp2. apply Z.div_pos; [lia|]. apply Z.pow_pos_nonneg; lia. }
  exists e2. split.
  { rewrite fexp_eq in *. lia. }
  destruct (shr_m mrs2) as [|q|q]; [now left | | lia].
  right. destruct (e2 <=? emax - prec) eqn:Ee.
  - left. now exists q.
  - right. split; [reflexivity|]. apply Z.leb_gt in Ee.
    unfold emax, prec in Ee. lia.
Qed.

Lemma truncate_small q e :
  Zpos q < 9007199254740992 -> e <= -45 ->
  exists z, SFtruncate (S754_finite false q e) = Some z /\ 0 <= z <= 255.
Proof.
  intros Hq He. destruct e as [|sh|sh]; try lia.
  cbn [SFtruncate]. eexists. split; [reflexivity|].
  rewrite Z.shiftr_div_pow2 by lia.
  assert (2 ^ 45 <= 2 ^ Zpos sh) as Hpow by (apply Z.pow_le_mono_r; lia).
  change (2 ^ 45) with 35184372088832 in Hpow.
  split; [apply Z.div_pos; lia|].
  assert (Zpos q / 2 ^ Zpos sh < 256); [|lia].
  apply Z.div_lt_upper_bound; lia.
Qed.

Lemma valid_mantissa s q e :
  valid_binary (S754_finite s q e) = true ->
  Zpos q < 9007199254740992
  /\ fexp prec emax (Zpos (digits2_pos q) + e) = e.
Proof.
  unfold SpecFloat.valid_binary, bounded, canonical_mantissa. intros H.
  apply andb_prop in H. destruct H as [Hc _]. apply Z.eqb_eq in Hc.
  split; [|assumption].
  pose proof (digits2_pos_bounds q) as [_ Hhi].
  assert (Zpos (digits2_pos q) <= 53) as Hd by (rewrite fexp_eq in Hc; lia).
  assert (2 ^ Zpos (digits2_pos q) <= 2 ^ 53) as Hle
    by (apply Z.pow_le_mono_r; lia).
  change (2 ^ 53) with 9007199254740992 in Hle. lia.
Qed.

(** The product of 255.999 and a number between 0 and 0.999 is below 256:
    its exponent is at most -45. *)
Lemma scaled_exponent mx ex :
  valid_binary (S754_finite false mx ex) = true ->
  ex < -53 \/ (ex = -53 /\ Zpos mx <= 8998192055486251) ->
  SFmul prec emax (S754_finite false 9007164070368903 (-45))
    (S754_finite false mx ex) = S754_zero false
  \/ exists q e,
       e <= -45
       /\ SFmul prec emax (S754_finite false 9007164070368903 (-45))
            (S754_finite false mx ex) = S754_finite false q e.
Proof.
  intros Hv Hx. destruct (valid_mantissa _ _ _ Hv) as [Hm Hc].
  cbn [SFmul xorb]. rewrite Pos2Z.inj_mul.
  set (P := 9007164070368903 * Zpos mx).
  destruct Hx as [Hx | [-> Hx]].
  - destruct (binary_round_aux_exponent false P (-45 + ex) ltac:(lia))
      as (e2 & He2 & Hcase).
    assert (Zdigits2 P <= 53 + Zpos (digits2_pos mx)) as HD.
    { pose proof (digits2_pos_bounds mx) as [_ Hhi].
      apply Zdigits2_le; [|lia]. split; [lia|].
      rewrite Z.pow_add_r by lia. change (2 ^ 53) with 9007199254740992.
      unfold P. nia. }
    rewrite fexp_eq in *.
    destruct Hcase as [-> | [(q & ->) | (_ & Hbig)]]; [now left | | lia].
    right. exists q, e2. split; [lia | reflexivity].
  - right.
    assert (4503599627370496 <= Zpos mx) as Hlo.
    { pose proof (digits2_pos_bounds mx) as [Hlo _].
      rewrite fexp_eq in Hc.
      assert (Zpos (digits2_pos mx) = 53) as Hd by lia.
      rewrite Hd in Hlo. exact Hlo. }
    destruct (Z_lt_le_dec P 40564819207303340847894502572032) as [Hlt|Hge].
    + destruct (binary_round_aux_long false P (-45 + -53) 52) as (m1 & Hm1 & ->).
      { change (2 ^ Zpos 52) with 4503599627370496. unfold P. lia. }
      { lia. }
      unfold rounded. destruct (m1 <? 9007199254740992); eexists; eexists;
        (split; [|reflexivity]); lia.
    + destruct (binary_round_aux_long false P (-45 + -53) 53) as (m1 & Hm1 & ->).
      { change (2 ^ Zpos 53) with 9007199254740992. unfold P. lia. }
      { lia. }
      change (2 ^ Zpos 53) with 9007199254740992 in Hm1.
      assert (P / 9007199254740992
              <= 9007164070368903 * 8998192055486251 / 9007199254740992) as Hquo
        by (apply Z.div_le_mono; [lia|]; unfold P; lia).
      assert (9007164070368903 * 8998192055486251 / 9007199254740992
              < 9007199254740991) as Hconst by (vm_compute; reflexivity).
      unfold rounded.
      assert ((m1 <? 9007199254740992) = true) as -> by (apply Z.ltb_lt; lia).
      eexists; eexists. split; [|reflexivity]. lia.
Qed.

#[local] Close Scope Z_scope.

Lemma scaled_intensity_is_a_byte (x : double) :
  (0 <=? x) = true -> (x <=? 0.999) = true ->
  exists z, static_cast_int (255.999 * x) = Some z /\ (0 <= z <= 255)%Z.
Proof.
  intros H0 H1. rewrite leb_spec in H0, H1.
  change (Prim2SF 0) with (S754_zero false) in H0.
  change (Prim2SF 0.999) with (S754_finite false 8998192055486251 (-53)) in H1.
  pose proof (Prim2SF_valid x) as Hv.
  pose proof (Prim2SF_valid (255.999 * x)) as Hvy.
  unfold static_cast_int. rewrite mul_spec in *.
  change (Prim2SF 255.999) with (S754_finite false 9007164070368903 (-45)) in *.
  destruct (Prim2SF x) as [s|[|]| |[|] mx ex];
    try (unfold SFleb in H0, H1; cbn [SFcompare] in H0, H1; discriminate).
  - exists 0%Z. split; [reflexivity | lia].
  - assert (ex < -53 \/ (ex = -53 /\ Zpos mx <= 8998192055486251))%Z as Hx.
    { unfold SFleb in H1. cbn [SFcompare] in H1.
      destruct (Z.compare_spec ex (-53)) as [-> | Hlt | Hgt];
        [right | left; assumption | discriminate].
      split; [reflexivity|]. rewrite Pos.compare_cont_spec in H1.
      destruct (mx ?= 8998192055486251)%positive eqn:Ec;
        cbn [Pos.switch_Eq] in H1; [| |discriminate].
      - apply Pos.compare_eq_iff in Ec. rewrite Ec. apply Z.le_refl.
      - apply Z.lt_le_incl. exact Ec. }
    destruct (scaled_exponent mx ex Hv Hx) as [Hz | (q & e & He & Hy)].
    + unfold SF64mul. rewrite Hz. exists 0%Z. split; [reflexivity | lia].
    + unfold SF64mul in *. rewrite Hy in *.
      destruct (valid_mantissa _ _ _ Hvy) as [Hq _].
      destruct (truncate_small q e Hq He) as (z & -> & Hz).
      exists z. split; [|assumption].
      unfold INT_MIN, INT_MAX.
      destruct ((-2147483648 <=? z)%Z && (z <=? 2147483647)%Z) eqn:Eb;
        [reflexivity|].
      apply andb_false_iff in Eb. destruct Eb as [Eb|Eb];
        [apply Z.leb_gt in Eb | apply Z.leb_gt in Eb]; lia.
Qed.

Lemma channel_is_a_byte c n :
  let gamma := linear_to_gamma (c * (1 / double_of_int n)) in
  (is_nan gamma = true -> channel c n = None)
  /\ (is_nan gamma = false ->
      exists z, channel c n = Some z /\ (0 <= z <= 255)%Z).
Proof.
  cbv zeta. unfold channel.
  set (gamma := linear_to_gamma (c * (1 / double_of_int n))).
  split; intros Hn.
  - rewrite (clamp_nan _ gamma Hn).
    unfold static_cast_int. rewrite mul_spec.
    rewrite is_nan_SF in Hn.
    destruct (Prim2SF gamma); try discriminate.
    reflexivity.
  - pose proof (clamp_inside (mkinterval 0.000 0.999) gamma eq_refl Hn) as Hin.
    unfold contains in Hin. cbn [min max] in Hin.
    apply andb_true_iff in Hin. destruct Hin as [H0 H1].
    now apply scaled_intensity_is_a_byte.
Qed.

(** X20. [write_color] writes three integers between 0 and 255 whenever the
    three scaled and gamma-corrected components are numbers, and its
    conversion to [int] is undefined exactly when one of them is a NaN. *)
Theorem write_color_writes_bytes_unless_nan pixel_color n :
  let gamma c := linear_to_gamma (c * (1 / double_of_int n)) in
  (is_nan (gamma (vec3_x pixel_color)) = false
   /\ is_nan (gamma (vec3_y pixel_color)) = false
   /\ is_nan (gamma (vec3_z pixel_color)) = false ->
   exists ir ig ib,
     write_color pixel_color n
     = Some (print_int ir ++ " " ++ print_int ig ++ " " ++ print_int ib
             ++ newline)%string
     /\ (0 <= ir <= 255)%Z /\ (0 <= ig <= 255)%Z /\ (0 <= ib <= 255)%Z)
  /\ (is_nan (gamma (vec3_x pixel_color)) = true
      \/ is_nan (gamma (vec3_y pixel_color)) = true
      \/ is_nan (gamma (vec3_z pixel_color)) = true ->
      write_color pixel_color n = None).
Proof.
  cbv zeta. rewrite write_color_channels.
  destruct (channel_is_a_byte (vec3_x pixel_color) n) as [Hxn Hx].
  destruct (channel_is_a_byte (vec3_y pixel_color) n) as [Hyn Hy].
  destruct (channel_is_a_byte (vec3_z pixel_color) n) as [Hzn Hz].
  cbv zeta in *. split.
  - intros (H1 & H2 & H3).
    destruct (Hx H1) as (ir & -> & Hir).
    destruct (Hy H2) as (ig & -> & Hig).
    destruct (Hz H3) as (ib & -> & Hib).
    exists ir, ig, ib. auto.
  - intros [H | [H | H]].
    + now rewrite (Hxn H).
    + rewrite (Hyn H). now destruct (channel (vec3_x pixel_color) n).
    + rewrite (Hzn H).
      destruct (channel (vec3_x pixel_color) n); [|reflexivity].
      now destruct (channel (vec3_y pixel_color) n).
Qed.

(* ===================================================================== *)
(** * camera.h: initialize and render *)
(* ===================================================================== *)

Lemma string_app_assoc (s1 s2 s3 : string) :
  ((s1 ++ s2) ++ s3 = s1 ++ (s2 ++ s3))%string.
Proof. induction s1 as [|a s1 IH]; cbn; [reflexivity | now rewrite IH]. Qed.

Lemma string_app_empty (s : string) : (s ++ EmptyString = s)%string.
Proof. induction s as [|a s IH]; cbn; [reflexivity | now rewrite IH]. Qed.

Lemma unlines_app l1 l2 : unlines (l1 ++ l2) = (unlines l1 ++ unlines l2)%string.
Proof.
  unfold unlines. induction l1 as [|a l1 IH]; cbn [app fold_right];
    [reflexivity|].
  now rewrite IH, string_app_assoc.
Qed.

(** A property that every iteration carries one step further holds of the
    state in which a loop ends. *)
Lemma for_loop_invariant {S : Type} (I : nat -> S -> Prop)
    (body : Z -> S -> result S) :
  (forall j i x x', I j x -> body i x = Ok x' -> I (Datatypes.S j) x') ->
  forall n m i s s',
    I m s -> for_loop n i body s = Ok s' -> I (n + m)%nat s'.
Proof.
  intros Hstep. induction n as [|n IH]; intros m i s s' Hs; cbn [for_loop].
  - now intros [= <-].
  - destruct (body i s) as [x| |] eqn:E; cbn [bind]; try discriminate.
    intros H. replace (Datatypes.S n + m)%nat with (n + Datatypes.S m)%nat by lia.
    eapply IH; eauto.
Qed.

Section CameraMore.

Variable draws : nat -> double.
Variable pow : double -> double -> double.
Variable budget : nat.
Variable indeterminate_t : double.
Variable indeterminate_frontfacing : bool.
Variable tan : double -> double.
Variable degrees_to_radians : double -> double.

#[local] Abbreviation initialize' := (Camera.initialize tan degrees_to_radians).
#[local] Abbreviation get_ray' := (Camera.get_ray draws budget).
#[local] Abbreviation sample_step' :=
  (Camera.sample_step draws pow budget indeterminate_t indeterminate_frontfacing).
#[local] Abbreviation pixel_step' :=
  (Camera.pixel_step draws pow budget indeterminate_t indeterminate_frontfacing).
#[local] Abbreviation scanline_step' :=
  (Camera.scanline_step draws pow budget indeterminate_t indeterminate_frontfacing).
#[local] Abbreviation render' :=
  (Camera.render draws pow budget indeterminate_t indeterminate_frontfacing
     tan degrees_to_radians).

Lemma initialize_guards cam :
  (forall fr,
     initialize' cam = Some fr ->
     (1 <= Camera.image_height fr <= INT_MAX)%Z
     /\ Camera.camera_origin fr = Camera.lookfrom cam)
  /\ ((Camera.aspect_ratio cam =? 0) = true -> initialize' cam = None).
Proof.
  unfold Camera.initialize. split.
  - intros fr.
    destruct (static_cast_int _) as [h|] eqn:E; [|discriminate].
    intros [= <-]. cbn. split; [|reflexivity].
    unfold static_cast_int in E.
    destruct (SFtruncate _) as [z|]; [|discriminate].
    destruct ((INT_MIN <=? z)%Z && (z <=? INT_MAX)%Z) eqn:Eb; [|discriminate].
    injection E as ->. apply andb_prop in Eb. destruct Eb as [_ Eb].
    apply Z.leb_le in Eb. unfold INT_MAX in *.
    destruct (h <? 1)%Z eqn:Eh; [lia|]. apply Z.ltb_ge in Eh. lia.
  - intros Hz. rewrite eqb_spec in Hz.
    change (Prim2SF 0) with (S754_zero false) in Hz.
    unfold static_cast_int. rewrite div_spec.
    destruct (Prim2SF (Camera.aspect_ratio cam)) as [s|[|]| |[|] m e];
      try (cbn in Hz; discriminate).
    destruct (Prim2SF (double_of_int (Camera.image_width cam))); reflexivity.
Qed.

(** X22. When [camera::initialize] has a defined result, the image height is
    at least 1 and fits an [int], and the center of the camera is [lookfrom];
    with an aspect ratio of zero the conversion of the height is
    undefined. *)
Theorem initialize_guards_the_height cam :
  (forall fr,
     initialize' cam = Some fr ->
     (1 <= Camera.image_height fr <= INT_MAX)%Z
     /\ Camera.camera_origin fr = Camera.lookfrom cam)
  /\ ((Camera.aspect_ratio cam =? 0) = true -> initialize' cam = None).
Proof. apply initialize_guards. Qed.

Lemma pixel_step_writes_a_line cam fr world j i io k io' k' :
  pixel_step' cam fr world j i (io, k) = Ok (io', k') ->
  exists c line,
    write_color c (Camera.samples_per_pixel cam) = Some line
    /\ cout io' = (cout io ++ line)%string.
Proof.
  unfold Camera.pixel_step.
  destruct (for_range _ _ _ _) as [[c k1]| |]; cbn [bind]; try discriminate.
  destruct (write_color c (Camera.samples_per_pixel cam)) as [line|] eqn:E;
    cbn [defined bind]; [|discriminate].
  intros [= <- <-]. exists c, line. auto.
Qed.

Lemma scanline_step_writes_a_row cam fr world j io k io' k' :
  scanline_step' cam fr world j (io, k) = Ok (io', k') ->
  exists lines,
    List.length lines = Z.to_nat (Camera.image_width cam)
    /\ Forall (fun line =>
                 exists c, write_color c (Camera.samples_per_pixel cam) = Some line)
         lines
    /\ cout io' = (cout io ++ unlines lines)%string.
Proof.
  unfold Camera.scanline_step, for_range. rewrite Z.sub_0_r.
  set (io0 := to_clog _ io).
  set (I := fun n (st : streams * nat) =>
              exists lines,
                List.length lines = n
                /\ Forall (fun line =>
                             exists c,
                               write_color c (Camera.samples_per_pixel cam)
                               = Some line) lines
                /\ cout (fst st) = (cout io ++ unlines lines)%string).
  assert (forall n i x x',
            I n x -> pixel_step' cam fr world j i x = Ok x' -> I (S n) x') as Hstep.
  { intros n i [x kx] [x' kx'] (lines & Hlen & Hall & Hc) Hstep.
    destruct (pixel_step_writes_a_line _ _ _ _ _ _ _ _ _ Hstep)
      as (c & line & Hw & Hout).
    exists (lines ++ [line]). cbn [fst] in *.
    split; [rewrite List.length_app; cbn; lia|].
    split; [apply Forall_app; split; [assumption | constructor; eauto]|].
    rewrite Hout, Hc, unlines_app, string_app_assoc. cbn.
    now rewrite string_app_empty. }
  assert (I 0%nat (io0, k)) as Hinit.
  { exists []. cbn. now rewrite string_app_empty. }
  intros H.
  pose proof (for_loop_invariant I _ Hstep _ _ _ _ _ Hinit H) as Hinv.
  rewrite Nat.add_0_r in Hinv. exact Hinv.
Qed.

(** X23. Whenever [camera::render] returns, it has written to [cout] the
    header [P3], width, height, 255 and then exactly width times height
    lines, each one written by [write_color]. *)
Theorem render_writes_every_pixel cam world io k io' k' :
  render' cam world (io, k) = Ok (io', k') ->
  exists fr lines,
    initialize' cam = Some fr
    /\ List.length lines
       = (Z.to_nat (Camera.image_height fr) * Z.to_nat (Camera.image_width cam))%nat
    /\ Forall (fun line =>
                 exists c, write_color c (Camera.samples_per_pixel cam) = Some line)
         lines
    /\ cout io'
       = (cout io
          ++ Camera.header (Camera.image_width cam) (Camera.image_height fr)
          ++ unlines lines)%string.
Proof.
  unfold Camera.render.
  destruct (initialize' cam) as [fr|]; cbn [defined bind]; [|discriminate].
  unfold for_range. rewrite Z.sub_0_r.
  set (io0 := to_cout _ io).
  destruct (for_loop _ _ _ _) as [[io1 k1]| |] eqn:E; cbn [bind]; try discriminate.
  intros [= <- <-]. exists fr.
  set (I := fun n (st : streams * nat) =>
              exists lines,
                List.length lines = (n * Z.to_nat (Camera.image_width cam))%nat
                /\ Forall (fun line =>
                             exists c,
                               write_color c (Camera.samples_per_pixel cam)
                               = Some line) lines
                /\ cout (fst st) = (cout io0 ++ unlines lines)%string).
  assert (forall n i x x',
            I n x -> scanline_step' cam fr world i x = Ok x' -> I (S n) x')
    as Hstep.
  { intros n i [x kx] [x' kx'] (lines & Hlen & Hall & Hc) Hstep.
    destruct (scanline_step_writes_a_row _ _ _ _ _ _ _ _ Hstep)
      as (row & Hrow & Hrall & Hout).
    exists (lines ++ row). cbn [fst] in *.
    split; [rewrite List.length_app; lia|].
    split; [apply Forall_app; split; assumption|].
    now rewrite Hout, Hc, unlines_app, string_app_assoc. }
  assert (I 0%nat (io0, k)) as Hinit.
  { exists []. cbn. now rewrite string_app_empty. }
  pose proof (for_loop_invariant I _ Hstep _ _ _ _ _ Hinit E) as Hinv.
  rewrite Nat.add_0_r in Hinv. destruct Hinv as (lines & Hlen & Hall & Hc).
  exists lines. repeat split; auto.
  cbn [fst] in Hc. cbn [to_clog cout]. rewrite Hc. unfold io0. cbn [to_cout cout].
  apply string_app_assoc.
Qed.

End CameraMore.

Lemma write_color_black n :
  (1 <= n <= INT_MAX)%Z -> write_color (mkvec3 0 0 0) n = Some black_line.
Proof.
  intros Hn. rewrite write_color_channels. cbn [vec3_x vec3_y vec3_z e0 e1 e2].
  rewrite channel_black by assumption. reflexivity.
Qed.

Section RenderBlack.

Variable draws : nat -> double.
Variable pow : double -> double -> double.
Variable budget : nat.
Variable indeterminate_t : double.
Variable indeterminate_frontfacing : bool.
Variable tan : double -> double.
Variable degrees_to_radians : double -> double.

#[local] Abbreviation initialize' := (Camera.initialize tan degrees_to_radians).
#[local] Abbreviation get_ray' := (Camera.get_ray draws budget).
#[local] Abbreviation sample_step' :=
  (Camera.sample_step draws pow budget indeterminate_t indeterminate_frontfacing).
#[local] Abbreviation pixel_step' :=
  (Camera.pixel_step draws pow budget indeterminate_t indeterminate_frontfacing).
#[local] Abbreviation scanline_step' :=
  (Camera.scanline_step draws pow budget indeterminate_t indeterminate_frontfacing).
#[local] Abbreviation render' :=
  (Camera.render draws pow budget indeterminate_t indeterminate_frontfacing
     tan degrees_to_radians).

Variable cam : Camera.camera.
Variable fr : Camera.camera_frame.
Variable world : hittableObject.

Hypothesis no_bounce : (Camera.max_depth cam <= 0)%Z.
Hypothesis samples : (1 <= Camera.samples_per_pixel cam <= INT_MAX)%Z.
Hypothesis no_defocus : (Camera.defocus_angle cam <=? 0) = true.

(** Without defocus a ray starts at the center of the camera, after two
    draws. *)
Lemma get_ray_from_the_center i j k :
  exists r,
    get_ray' cam fr i j k = Ok (r, S (S k))
    /\ origin r = Camera.camera_origin fr.
Proof.
  unfold Camera.get_ray, Camera.pixel_sample_square, random_double.
  rewrite no_defocus. cbn [bind]. eexists. split; reflexivity.
Qed.

Lemma black_samples i j n i0 k :
  for_loop n i0 (sample_step' cam fr world i j) (mkvec3 0 0 0, k)
  = Ok (mkvec3 0 0 0, (k + n * 2)%nat).
Proof.
  revert i0 k. induction n as [|n IH]; intros i0 k; cbn [for_loop].
  - f_equal. f_equal. lia.
  - unfold Camera.sample_step at 1.
    destruct (get_ray_from_the_center i j k) as (r & -> & _). cbn [bind].
    rewrite ray_color_exhausted by assumption. cbn [bind].
    change (vadd_assign (mkvec3 0 0 0) (mkvec3 0 0 0)) with (mkvec3 0 0 0).
    rewrite IH. f_equal. f_equal. lia.
Qed.

Lemma black_pixel j i io k :
  pixel_step' cam fr world j i (io, k)
  = Ok (to_cout black_line io,
        (k + Z.to_nat (Camera.samples_per_pixel cam) * 2)%nat).
Proof.
  unfold Camera.pixel_step, for_range. rewrite Z.sub_0_r, black_samples.
  cbn [bind]. rewrite write_color_black by assumption. reflexivity.
Qed.

Lemma black_pixels j n i0 io k :
  exists io',
    for_loop n i0 (pixel_step' cam fr world j) (io, k)
    = Ok (io', (k + n * (Z.to_nat (Camera.samples_per_pixel cam) * 2))%nat)
    /\ cout io' = (cout io ++ unlines (repeat black_line n))%string.
Proof.
  revert i0 io k. induction n as [|n IH]; intros i0 io k; cbn [for_loop].
  - exists io. split; [f_equal; f_equal; lia|].
    cbn. now rewrite string_app_empty.
  - rewrite black_pixel. cbn [bind].
    destruct (IH (i0 + 1)%Z (to_cout black_line io)
                (k + Z.to_nat (Camera.samples_per_pixel cam) * 2)%nat)
      as (io' & -> & Hc).
    exists io'. split; [f_equal; f_equal; lia|].
    rewrite Hc. cbn [to_cout cout repeat unlines fold_right].
    apply string_app_assoc.
Qed.

Lemma black_rows n i0 io k :
  exists io',
    for_loop n i0 (scanline_step' cam fr world) (io, k)
    = Ok (io',
          (k + n * (Z.to_nat (Camera.image_width cam)
                    * (Z.to_nat (Camera.samples_per_pixel cam) * 2)))%nat)
    /\ cout io'
       = (cout io
          ++ unlines (repeat black_line
                        (n * Z.to_nat (Camera.image_width cam))))%string.
Proof.
  revert i0 io k. induction n as [|n IH]; intros i0 io k; cbn [for_loop].
  - exists io. split; [f_equal; f_equal; lia|].
    cbn. now rewrite string_app_empty.
  - unfold Camera.scanline_step at 1. unfold for_range. rewrite Z.sub_0_r.
    match goal with
    | |- context [for_loop _ 0%Z _ (?io0, k)] =>
        destruct (black_pixels i0 (Z.to_nat (Camera.image_width cam)) 0%Z io0 k)
          as (io1 & -> & Hc1)
    end.
    cbn [bind].
    match goal with
    | |- context [for_loop n _ _ (io1, ?k1)] =>
        destruct (IH (i0 + 1)%Z io1 k1) as (io' & -> & Hc)
    end.
    exists io'. split; [f_equal; f_equal; lia|].
    rewrite Hc, Hc1. cbn [to_clog cout].
    replace (S n * Z.to_nat (Camera.image_width cam))%nat
      with (Z.to_nat (Camera.image_width cam)
            + n * Z.to_nat (Camera.image_width cam))%nat by lia.
    rewrite repeat_app, unlines_app. apply string_app_assoc.
Qed.

(** X24. With [max_depth <= 0], at least one sample for each pixel and no
    defocus, [camera::render] returns for every scene and generator, after
    two draws for each sample, and the image is the header followed by width
    times height lines [0 0 0]. *)
Theorem render_black_without_bounces io k :
  initialize' cam = Some fr ->
  exists io',
    render' cam world (io, k)
    = Ok (io',
          (k + Z.to_nat (Camera.image_height fr)
               * (Z.to_nat (Camera.image_width cam)
                  * (Z.to_nat (Camera.samples_per_pixel cam) * 2)))%nat)
    /\ cout io'
       = (cout io
          ++ Camera.header (Camera.image_width cam) (Camera.image_height fr)
          ++ unlines (repeat black_line
                        (Z.to_nat (Camera.image_height fr)
                         * Z.to_nat (Camera.image_width cam))))%string.
Proof.
  intros Hinit. unfold Camera.render. rewrite Hinit. cbn [defined bind].
  unfold for_range. rewrite Z.sub_0_r.
  match goal with
  | |- context [for_loop _ 0%Z _ (?io0, k)] =>
      destruct (black_rows (Z.to_nat (Camera.image_height fr)) 0%Z io0 k)
        as (io1 & -> & Hc1)
  end.
  cbn [bind]. eexists. split; [reflexivity|].
  cbn [to_clog cout]. rewrite Hc1. cbn [to_cout cout].
  apply string_app_assoc.
Qed.

End RenderBlack.

(** With no sample the scale is [1 / 0]: a positive component saturates, and
    any other has no square root. *)
Lemma channel_without_samples c :
  channel c 0 = if 0 <? c then Some 255%Z else None.
Proof.
  unfold channel. change (1 / double_of_int 0) with PrimFloat.infinity.
  rewrite ltb_spec. change (Prim2SF 0) with (S754_zero false).
  assert (c * PrimFloat.infinity = PrimFloat.infinity
          \/ c * PrimFloat.infinity = PrimFloat.neg_infinity
          \/ c * PrimFloat.infinity = PrimFloat.nan) as Hcases.
  { assert (Prim2SF (c * PrimFloat.infinity) = S754_infinity false
            \/ Prim2SF (c * PrimFloat.infinity) = S754_infinity true
            \/ Prim2SF (c * PrimFloat.infinity) = S754_nan) as H.
    { rewrite mul_spec. change (Prim2SF PrimFloat.infinity) with (S754_infinity false).
      destruct (Prim2SF c) as [s|[|]| |[|] m e]; cbn; auto. }
    destruct H as [H | [H | H]]; [left | right; left | right; right];
      apply Prim2SF_inj; rewrite H; reflexivity. }
  assert (SFltb (S754_zero false) (Prim2SF c) = true
          -> c * PrimFloat.infinity = PrimFloat.infinity) as Hpos.
  { intros H. apply Prim2SF_inj. rewrite mul_spec.
    change (Prim2SF PrimFloat.infinity) with (S754_infinity false).
    destruct (Prim2SF c) as [s|[|]| |[|] m e]; try discriminate; reflexivity. }
  assert (SFltb (S754_zero false) (Prim2SF c) = false
          -> c * PrimFloat.infinity <> PrimFloat.infinity) as Hneg.
  { intros H E. apply (f_equal Prim2SF) in E. rewrite mul_spec in E.
    change (Prim2SF PrimFloat.infinity) with (S754_infinity false) in E.
    destruct (Prim2SF c) as [s|[|]| |[|] m e]; try discriminate. }
  destruct (SFltb (S754_zero false) (Prim2SF c)).
  - rewrite Hpos by reflexivity. vm_compute. reflexivity.
  - specialize (Hneg eq_refl).
    destruct Hcases as [H | [H | H]]; [contradiction | |]; rewrite H;
      vm_compute; reflexivity.
Qed.

(** X21. With [samples_per_pixel = 0] the scale is [1 / 0]: [write_color]
    writes 255 for a pixel whose three components are positive, and its
    conversion to [int] is undefined for every other pixel, black
    included. *)
Theorem write_color_without_samples pixel_color :
  write_color pixel_color 0
  = if (0 <? vec3_x pixel_color) && (0 <? vec3_y pixel_color)
       && (0 <? vec3_z pixel_color)
    then Some ("255 255 255" ++ newline)%string
    else None.
Proof.
  rewrite write_color_channels, !channel_without_samples.
  destruct (0 <? vec3_x pixel_color), (0 <? vec3_y pixel_color),
    (0 <? vec3_z pixel_color); reflexivity.
Qed.

(* ===================================================================== *)
(** * RayTracer.cpp *)
(* ===================================================================== *)

(** A loop whose body always returns carries a property from iteration to
    iteration, and returns. *)
Lemma for_loop_returns {S : Type} (I : nat -> S -> Prop)
    (body : Z -> S -> result S) :
  (forall j i x, I j x -> exists x', body i x = Ok x' /\ I (Datatypes.S j) x') ->
  forall n m i s,
    I m s -> exists s', for_loop n i body s = Ok s' /\ I (n + m)%nat s'.
Proof.
  intros Hstep. induction n as [|n IH]; intros m i s Hs; cbn [for_loop].
  - exists s. auto.
  - destruct (Hstep m i s Hs) as (x & -> & Hx). cbn [bind].
    destruct (IH (Datatypes.S m) (i + 1)%Z x Hx) as (s' & -> & Hs').
    exists s'. split; [reflexivity|].
    now replace (Datatypes.S n + m)%nat with (n + Datatypes.S m)%nat by lia.
Qed.

Section MainMore.

Variable draws : nat -> double.

Lemma place_sphere_adds_at_most_one a b world k :
  exists world' k',
    place_sphere draws a b (world, k) = Ok (world', k')
    /\ (world' = world \/ exists obj, main_small obj /\ world' = world ++ [obj])
    /\ (k + 3 <= k' <= k + 9)%nat.
Proof.
  unfold place_sphere, random_double. cbv zeta.
  destruct (0.9 <? _).
  2:{ do 2 eexists. split; [reflexivity|]. split; [now left | lia]. }
  destruct (draws k <? 0.8); [|destruct (draws k <? 0.95)].
  - unfold vec3_random_unit, random_double. cbv zeta iota beta.
    do 2 eexists. split; [reflexivity|]. split; [|lia].
    right. eexists. split; [|reflexivity].
    do 2 eexists. split; [reflexivity|]. split; [reflexivity | exact I].
  - unfold vec3_random, random_double_range, random_double. cbv zeta iota beta.
    destruct (make_metal_fuzz
                (mkvec3 (0.5 + (1 - 0.5) * draws (S (S (S k))))
                   (0.5 + (1 - 0.5) * draws (S (S (S (S k)))))
                   (0.5 + (1 - 0.5) * draws (S (S (S (S (S k)))))))
                (0 + (0.5 - 0) * draws (S (S (S (S (S (S k))))))))
      as (g & -> & Hg & _).
    do 2 eexists. split; [reflexivity|]. split; [|lia].
    right. eexists. split; [|reflexivity].
    do 2 eexists. split; [reflexivity|]. split; [reflexivity | exact Hg].
  - do 2 eexists. split; [reflexivity|]. split; [|lia].
    right. eexists. split; [|reflexivity].
    do 2 eexists. split; [reflexivity|]. split; reflexivity.
Qed.

Lemma place_sphere_grid_state k0 n a b st :
  grid_state k0 n st ->
  exists st', place_sphere draws a b st = Ok st' /\ grid_state k0 (S n) st'.
Proof.
  destruct st as [world k]. intros (small & Hw & Hlen & Hall & Hk).
  cbn [fst snd] in *.
  destruct (place_sphere_adds_at_most_one a b world k)
    as (world' & k' & -> & Hcase & Hk').
  eexists. split; [reflexivity|].
  destruct Hcase as [-> | (obj & Hobj & ->)].
  - exists small. cbn [fst snd]. repeat split; auto; lia.
  - exists (small ++ [obj]). cbn [fst snd]. rewrite Hw.
    split; [reflexivity|]. split; [rewrite List.length_app; cbn; lia|].
    split; [apply Forall_app; auto | lia].
Qed.

Lemma build_world_layout k :
  exists small k',
    build_world draws k = Ok (main_ground :: small ++ main_large, k')
    /\ (List.length small <= 484)%nat
    /\ Forall main_small small
    /\ (k + 1452 <= k' <= k + 4356)%nat.
Proof.
  unfold build_world. cbv zeta. unfold for_range.
  change (Z.to_nat (11 - -11)) with 22%nat.
  destruct (for_loop_returns (fun j => grid_state k (22 * j))
              (fun a st => for_loop 22 (-11)%Z (fun b => place_sphere draws a b) st))
    with (n := 22%nat) (m := 0%nat) (i := (-11)%Z)
         (s := (add [] main_ground, k))
    as ([world k'] & Hrun & (small & Hw & Hlen & Hall & Hk)).
  - intros j a st Hst.
    destruct (for_loop_returns (fun i => grid_state k (22 * j + i))
                (fun b => place_sphere draws a b))
      with (n := 22%nat) (m := 0%nat) (i := (-11)%Z) (s := st)
      as (st' & Hrun & Hst').
    + intros i b x Hx.
      destruct (place_sphere_grid_state k (22 * j + i) a b x Hx) as (x' & Hp & Hx').
      exists x'. split; [assumption|].
      now replace (22 * j + S i)%nat with (S (22 * j + i)) by lia.
    + now rewrite Nat.add_0_r.
    + exists st'. split; [assumption|].
      now replace (22 * S j)%nat with (22 * j + (22 + 0))%nat by lia.
  - exists []. cbn. repeat split; auto; lia.
  - change (sphere (mkvec3 0 (-1000) 0) 1000 (lambertian (mkvec3 0.5 0.5 0.5)))
      with main_ground.
    rewrite Hrun. cbn [bind fst snd] in *. subst world.
    exists small, k'. split.
    + unfold add, main_large. rewrite <- !app_assoc. reflexivity.
    + repeat split; auto; lia.
Qed.

End MainMore.

Section MainRender.

Variable draws : nat -> double.
Variable pow : double -> double -> double.
Variable budget : nat.
Variable indeterminate_t : double.
Variable indeterminate_frontfacing : bool.
Variable tan : double -> double.
Variable degrees_to_radians : double -> double.

Lemma main_camera_height :
  exists fr,
    Camera.initialize tan degrees_to_radians main_camera = Some fr
    /\ Camera.image_height fr = 675%Z.
Proof.
  unfold Camera.initialize.
  change (static_cast_int
            (double_of_int (Camera.image_width main_camera)
             / Camera.aspect_ratio main_camera))
    with (Some 675%Z).
  eexists. split; reflexivity.
Qed.

(** X26. For every generator, [main] builds the ground, at most 484 small
    spheres of radius 0.2 resting on it (every metal with a fuzz of at most
    1, every glass of index 1.5) and the three large spheres, in this order,
    with between 1452 and 4356 draws; its camera gives an image of 1200 by
    675; and [main] is the rendering of that scene. *)
Theorem main_renders_its_scene_at_1200_by_675 io k :
  exists small k1 fr,
    build_world draws k = Ok (main_ground :: small ++ main_large, k1)
    /\ (List.length small <= 484)%nat
    /\ Forall main_small small
    /\ (k + 1452 <= k1 <= k + 4356)%nat
    /\ Camera.initialize tan degrees_to_radians main_camera = Some fr
    /\ Camera.header (Camera.image_width main_camera) (Camera.image_height fr)
       = ("P3" ++ newline ++ "1200 675" ++ newline ++ "255" ++ newline)%string
    /\ main draws pow budget indeterminate_t indeterminate_frontfacing tan
         degrees_to_radians (io, k)
       = Camera.render draws pow budget indeterminate_t indeterminate_frontfacing
           tan degrees_to_radians main_camera
           (hittable_list (main_ground :: small ++ main_large)) (io, k1).
Proof.
  destruct (build_world_layout draws k) as (small & k1 & Hb & Hlen & Hall & Hk).
  destruct main_camera_height as (fr & Hinit & Hh).
  exists small, k1, fr. repeat (split; [assumption|]).
  split; [now rewrite Hh|].
  unfold main. now rewrite Hb.
Qed.

End MainRender.

(* ===================================================================== *)
(** * vec3.h: the algebra of the operators *)
(* ===================================================================== *)

Lemma SFmul_comm x y : SFmul prec emax x y = SFmul prec emax y x.
Proof.
  destruct x as [sx|sx| |sx mx ex], y as [sy|sy| |sy my ey]; cbn [SFmul];
    try reflexivity; try (now rewrite xorb_comm).
  now rewrite xorb_comm, Pos.mul_comm, Z.add_comm.
Qed.

Lemma mul_comm (x y : double) : x * y = y * x.
Proof. apply Prim2SF_inj. rewrite !mul_spec. apply SFmul_comm. Qed.

Lemma opp_involutive (x : double) : - - x = x.
Proof.
  apply Prim2SF_inj. rewrite !opp_spec.
  destruct (Prim2SF x) as [[|]|[|]| |[|] m e]; reflexivity.
Qed.

Lemma SFsub_add_opp x y : SFsub prec emax x y = SFadd prec emax x (SFopp y).
Proof.
  destruct x as [[|]|[|]| |sx mx ex], y as [[|]|[|]| |sy my ey];
    try reflexivity.
  cbn [SFsub SFadd SFopp]. f_equal.
  destruct sy; cbn [cond_Zopp negb]; lia.
Qed.

Lemma sub_add_opp (x y : double) : x - y = x + - y.
Proof.
  apply Prim2SF_inj. rewrite sub_spec, add_spec, opp_spec. apply SFsub_add_opp.
Qed.

(** X19. The operators of [vec3] agree in binary64, not only over the reals:
    [dot] and the componentwise product commute, negating twice is the
    identity, [u - v] is [u + (-v)], and the compound assignments [+=], [*=]
    and [/=] give what [+], [*] and [/] give. *)
Theorem vec3_operators_agree u v t :
  dot u v = dot v u
  /\ vmul u v = vmul v u
  /\ vneg (vneg v) = v
  /\ vsub u v = vadd u (vneg v)
  /\ vadd_assign u v = vadd u v
  /\ vmul_assign u t = vscale t u
  /\ vdiv_assign u t = vdiv u t
  /\ length_squared v = dot v v.
Proof.
  destruct u as [u0 u1 u2], v as [v0 v1 v2].
  unfold dot, vmul, vneg, vsub, vadd, vadd_assign, vdiv_assign, vmul_assign,
    vdiv, vscale, length_squared. cbn [e0 e1 e2].
  repeat apply conj.
  - now rewrite (mul_comm u0), (mul_comm u1), (mul_comm u2).
  - now rewrite (mul_comm u0), (mul_comm u1), (mul_comm u2).
  - now rewrite !opp_involutive.
  - now rewrite !sub_add_opp.
  - reflexivity.
  - now rewrite (mul_comm u0), (mul_comm u1), (mul_comm u2).
  - now rewrite (mul_comm u0), (mul_comm u1), (mul_comm u2).
  - reflexivity.
Qed.

(* ===================================================================== *)
(** * hittable_list.h: add *)
(* ===================================================================== *)

Section AddMore.

Variable indeterminate_t : double.
Variable indeterminate_frontfacing : bool.
Variable r : ray.

#[local] Abbreviation hit_r := (hit indeterminate_t indeterminate_frontfacing r).

(** X10. After [add] of an object that the ray misses on the query
    interval, the list is hit exactly as before. *)
Theorem add_of_a_missed_object_changes_nothing objs o ray_t rec rec0 :
  fst (hit_r o ray_t rec0) = false ->
  hit_r (hittable_list (add objs o)) ray_t rec
  = hit_r (hittable_list objs) ray_t rec.
Proof.
  intros Hmiss. unfold add. rewrite !hit_list_eq, hit_members_app.
  set (st := hit_members hit_r ray_t objs _).
  assert (settled ray_t st) as Hs.
  { apply settled_members; [apply all_inside_ok | reflexivity]. }
  cbn [hit_members].
  pose proof (hit_well_behaved indeterminate_t indeterminate_frontfacing r o)
    as (Hf & _ & _ & Hw).
  destruct (hit_step_cases hit_r ray_t o st) as [(tm & E & ->) | (tm & E & ->)].
  - exfalso.
    assert (fst (hit_r o (mkinterval (min ray_t) (max ray_t)) (tmp st)) = true)
      as Hwide.
    { apply (Hw _ _ _ _ (settled_at_most _ _ Hs)). now rewrite E. }
    rewrite interval_eta in Hwide.
    rewrite (frame_fst hit_r o ray_t (tmp st) rec0 Hf) in Hwide. congruence.
  - reflexivity.
Qed.

End AddMore.

(* ===================================================================== *)
(** * camera.h: render without samples *)
(* ===================================================================== *)

Section RenderMore.

Variable draws : nat -> double.
Variable pow : double -> double -> double.
Variable budget : nat.
Variable indeterminate_t : double.
Variable indeterminate_frontfacing : bool.
Variable tan : double -> double.
Variable degrees_to_radians : double -> double.

(** X25. With [samples_per_pixel = 0] and an image at least one pixel wide,
    [camera::render] runs into the undefined conversion of [write_color] at
    the first pixel. *)
Theorem render_without_samples_is_undefined cam fr world io k :
  Camera.samples_per_pixel cam = 0%Z ->
  (1 <= Camera.image_width cam)%Z ->
  Camera.initialize tan degrees_to_radians cam = Some fr ->
  Camera.render draws pow budget indeterminate_t indeterminate_frontfacing
    tan degrees_to_radians cam world (io, k) = Fault.
Proof.
  intros Hs Hw Hinit.
  destruct (proj1 (initialize_guards tan degrees_to_radians cam) fr Hinit)
    as [Hh _].
  unfold Camera.render. rewrite Hinit. cbn [defined bind]. unfold for_range.
  destruct (Z.to_nat (Camera.image_height fr - 0)) as [|n] eqn:En; [lia|].
  cbn [for_loop]. unfold Camera.scanline_step at 1. unfold for_range.
  destruct (Z.to_nat (Camera.image_width cam - 0)) as [|m] eqn:Em; [lia|].
  cbn [for_loop]. unfold Camera.pixel_step at 1. unfold for_range.
  rewrite Hs. cbn [Z.sub Z.to_nat for_loop bind].
  change (write_color (mkvec3 0 0 0) 0) with (@None string).
  reflexivity.
Qed.

End RenderMore.

(* ===================================================================== *)
(** * The further properties at concrete inputs *)
(* ===================================================================== *)

Lemma clamp_lands_in_interval_witness :
  contains (mkinterval 0 0.999) (clamp (mkinterval 0 0.999) 2) = true
  /\ clamp (mkinterval 0 0.999) (clamp (mkinterval 0 0.999) 2)
     = clamp (mkinterval 0 0.999) 2.
Proof.
  apply clamp_lands_in_interval; reflexivity.
Defined.

Lemma sphere_hit_needs_real_roots_witness :
  (0 <=? quadratic_discriminant example_near_center 0.5 example_ahead) = true
  /\ is_nan (quadratic_a example_ahead) = false
  /\ (quadratic_a example_ahead =? 0) = false
  /\ is_finite
       (snd (hit 0 false example_ahead example_near example_range example_rec)).(t)
     = true.
Proof.
  assert (sphere_hit example_near_center 0.5 example_matte example_ahead
            example_range example_rec
          = (true, snd (hit 0 false example_ahead example_near example_range
                          example_rec))) as H
    by (vm_compute; reflexivity).
  exact (sphere_hit_needs_real_roots _ _ _ _ _ _ _ H).
Defined.

Lemma degenerate_ray_hits_nothing_witness :
  hit 0 false ray_default example_world example_range example_outside_hit
  = (false, example_outside_hit).
Proof.
  apply degenerate_ray_hits_nothing. reflexivity.
Defined.

Lemma hit_records_point_of_scene_sphere_witness :
  surrounds example_range
    (snd (hit 0 false example_ahead example_world example_range example_rec)).(t)
  = true
  /\ is_finite
       (snd (hit 0 false example_ahead example_world example_range example_rec)).(t)
     = true
  /\ (snd (hit 0 false example_ahead example_world example_range example_rec)).(p)
     = ray_at example_ahead
         (snd (hit 0 false example_ahead example_world example_range
                 example_rec)).(t)
  /\ exists center radius m,
       In (sphere center radius m) (spheres_of example_world)
       /\ (snd (hit 0 false example_ahead example_world example_range
                  example_rec)).(mat) = Some m.
Proof.
  assert (hit 0 false example_ahead example_world example_range example_rec
          = (true, snd (hit 0 false example_ahead example_world example_range
                          example_rec))) as H
    by (vm_compute; reflexivity).
  exact (hit_records_point_of_scene_sphere _ _ _ _ _ _ _ H).
Defined.

Lemma add_of_a_missed_object_changes_nothing_witness :
  fst (hit 0 false example_ahead example_aside example_range example_rec) = false
  /\ hit 0 false example_ahead (hittable_list (add [example_far; example_near]
                                                 example_aside))
       example_range example_rec
     = hit 0 false example_ahead example_world example_range example_rec.
Proof.
  assert (fst (hit 0 false example_ahead example_aside example_range example_rec)
          = false) as H by (vm_compute; reflexivity).
  split; [exact H|].
  exact (add_of_a_missed_object_changes_nothing 0 false example_ahead
           [example_far; example_near] example_aside example_range example_rec
           example_rec H).
Defined.

Lemma ray_color_returns_in_a_scene_of_glass_witness :
  exists c k',
    ray_color example_draws example_pow 0 0 false example_ahead 3
      (hittable_list [example_ball]) 0 = Ok (c, k')
    /\ (0 <= k' <= 0 + Z.to_nat 3)%nat.
Proof.
  apply ray_color_returns_in_a_scene_of_glass.
  intros center radius m [H | []]. injection H as _ _ <-. now exists 1.5.
Defined.

Lemma scatter_true_starts_at_hit_point_witness :
  exists out' k',
    scatter example_draws example_pow 1 example_glass example_grazing
      example_inside_hit example_out 0 = Ok (out', k')
    /\ origin out'.(scattered) = example_inside_hit.(p)
    /\ out'.(attenuation) = mkvec3 1 1 1.
Proof.
  destruct (scatter example_draws example_pow 1 example_glass example_grazing
              example_inside_hit example_out 0)
    as [[out' k']| |] eqn:E; try (vm_compute in E; discriminate).
  assert (scatters out' = true) as Hs
    by (vm_compute in E; injection E as <- _; reflexivity).
  exists out', k'. split; [reflexivity|].
  exact (scatter_true_starts_at_hit_point _ _ _ _ _ _ _ _ _ _ E Hs).
Defined.

Lemma lambertian_scatter_absorbs_only_without_draw_witness :
  exists out' k',
    lambertian_scatter example_draws 1 (mkvec3 0.5 0.5 0.5) example_ahead
      example_outside_hit example_out 0 = Ok (out', k')
    /\ out'.(scatters) = (example_draws 0 <? 1).
Proof.
  destruct (lambertian_scatter example_draws 1 (mkvec3 0.5 0.5 0.5) example_ahead
              example_outside_hit example_out 0)
    as [[out' k']| |] eqn:E; try (vm_compute in E; discriminate).
  exists out', k'. split; [reflexivity|].
  exact (proj1 (lambertian_scatter_absorbs_only_without_draw _ _ _ _ _ _ _ _ _ E)).
Defined.

Lemma random_in_unit_sphere_takes_first_inside_witness :
  exists q k',
    random_in_unit_sphere example_draws 1 0 = Ok (q, k')
    /\ exists j,
         (j < 1)%nat
         /\ k' = (0 + 3 * (j + 1))%nat
         /\ q = fst (vec3_random example_draws (-1) 1 (0 + 3 * j))
         /\ (length_squared q <? 1) = true
         /\ forall i, (i < j)%nat ->
              (length_squared
                 (fst (vec3_random example_draws (-1) 1 (0 + 3 * i))) <? 1)
              = false.
Proof.
  destruct (random_in_unit_sphere example_draws 1 0) as [[q k']| |] eqn:E;
    try (vm_compute in E; discriminate).
  exists q, k'. split; [reflexivity|].
  exact (random_in_unit_sphere_takes_first_inside _ _ _ _ _ E).
Defined.

Lemma random_in_unit_disk_stays_in_the_plane_witness :
  exists q k',
    random_in_unit_disk example_draws 1 0 = Ok (q, k')
    /\ e2 q = 0
    /\ (length_squared q <? 1) = true.
Proof.
  destruct (random_in_unit_disk example_draws 1 0) as [[q k']| |] eqn:E;
    try (vm_compute in E; discriminate).
  exists q, k'. split; [reflexivity|].
  destruct (random_in_unit_disk_stays_in_the_plane _ _ _ _ _ E)
    as (j & _ & _ & Hq & Hl).
  split; [now rewrite Hq | exact Hl].
Defined.

Lemma random_on_hemishpere_not_against_normal_witness :
  exists v k',
    random_on_hemishpere example_draws 1 (mkvec3 0 1 0) 0 = Ok (v, k')
    /\ (dot (mkvec3 0 1 0) v <? 0) = false.
Proof.
  destruct (random_on_hemishpere example_draws 1 (mkvec3 0 1 0) 0)
    as [[v k']| |] eqn:E; try (vm_compute in E; discriminate).
  exists v, k'. split; [reflexivity|].
  exact (proj1 (random_on_hemishpere_not_against_normal _ _ _ _ _ _ E)).
Defined.

Lemma render_writes_every_pixel_witness :
  exists io' k',
    Camera.render example_draws example_pow 1 0 false example_tan
      example_degrees_to_radians example_camera example_world (example_io, 0%nat)
    = Ok (io', k')
    /\ exists fr lines,
         Camera.initialize example_tan example_degrees_to_radians example_camera
         = Some fr
         /\ List.length lines
            = (Z.to_nat (Camera.image_height fr)
               * Z.to_nat (Camera.image_width example_camera))%nat
         /\ Forall (fun line =>
                      exists c,
                        write_color c (Camera.samples_per_pixel example_camera)
                        = Some line) lines
         /\ cout io'
            = (cout example_io
               ++ Camera.header (Camera.image_width example_camera)
                    (Camera.image_height fr)
               ++ unlines lines)%string.
Proof.
  destruct (Camera.render example_draws example_pow 1 0 false example_tan
              example_degrees_to_radians example_camera example_world
              (example_io, 0%nat))
    as [[io' k']| |] eqn:E; try (vm_compute in E; discriminate).
  exists io', k'. split; [reflexivity|].
  exact (render_writes_every_pixel _ _ _ _ _ _ _ _ _ _ _ _ _ E).
Defined.

Lemma render_black_without_bounces_witness :
  exists io',
    Camera.render example_draws example_pow 1 0 false example_tan
      example_degrees_to_radians example_camera_flat example_world
      (example_io, 0%nat)
    = Ok (io', 4%nat)
    /\ cout io'
       = ("P3" ++ newline ++ "2 1" ++ newline ++ "255" ++ newline
          ++ black_line ++ black_line)%string.
Proof.
  destruct (Camera.initialize example_tan example_degrees_to_radians
              example_camera_flat) as [fr|] eqn:E;
    [|vm_compute in E; discriminate].
  assert (Camera.image_height fr = 1%Z) as Hh
    by (vm_compute in E; injection E as <-; reflexivity).
  destruct (render_black_without_bounces example_draws example_pow 1 0 false
              example_tan example_degrees_to_radians example_camera_flat fr
              example_world ltac:(cbn; lia) ltac:(cbn; unfold INT_MAX; lia)
              eq_refl example_io 0%nat E) as (io' & Hr & Hc).
  exists io'. rewrite Hh in Hr, Hc. split; [exact Hr | exact Hc].
Defined.

Lemma render_without_samples_is_undefined_witness :
  Camera.render example_draws example_pow 1 0 false example_tan
    example_degrees_to_radians example_camera_idle example_world
    (example_io, 0%nat)
  = Fault.
Proof.
  destruct (Camera.initialize example_tan example_degrees_to_radians
              example_camera_idle) as [fr|] eqn:E;
    [|vm_compute in E; discriminate].
  exact (render_without_samples_is_undefined example_draws example_pow 1 0 false
           example_tan example_degrees_to_radians example_camera_idle fr
           example_world example_io 0%nat eq_refl ltac:(cbn; lia) E).
Defined.
